(** * ParkourGame: the encrypted score ledger and its client hook

    A shallow embedding of the [ParkourGame] contract (Solidity) and of the
    [useParkourGame] React hook (TypeScript), with the properties of the
    score ledger, the max aggregator, the access grants, the leaderboard
    projection and the decryption request pipeline; then of the character
    registry, the event log, the lookup of the deployment, the wallet
    discovery hook and the generator of the table of deployments. *)

From Stdlib Require Import ZArith Lia String.
From stdpp Require Import base option list gmap strings pretty sorting.

Open Scope Z_scope.

(** Solidity value types: [address] is a 160-bit and [uint256], [bytes32]
    a 256-bit unsigned integer. *)
Abbreviation address := Z.
Abbreviation uint256 := Z.
Abbreviation bytes32 := Z.

Definition MAX_UINT256 : Z := 2 ^ 256 - 1.
Definition wrap32 (v : Z) : Z := v mod 2 ^ 32.

(** ** The FHE co-processor *)

Module FHE.

(** Modelled from the spec: the co-processor library ([@fhevm/solidity])
    is an external collaborator; it is taken as the black box of the
    spec, [encrypt], [greaterThan], [select] and the grant set, over an
    ideal store that maps every handle it issued to its plaintext. A
    handle is the (non-zero) position of its ciphertext in the store;
    the all-zero [bytes32] is the handle of nothing. The library derives
    a handle from the operation and its operands and may give the same
    handle twice; here every result takes the next position, and nothing
    is stated that needs two handles to differ. *)
Inductive cval :=
| VU32 (v : Z)
| VBool (b : bool).

Record state := mk_state {
  store : list cval;
  acl : gset (bytes32 * address)
}.

Definition empty : state := {| store := []; acl := ∅ |}.

Definition lookup (st : state) (h : bytes32) : option cval :=
  if h <=? 0 then None else store st !! Z.to_nat (h - 1).

(** Modelled from the spec: what the decryption oracle yields for a handle;
    a handle of nothing reads as zero. *)
Definition decrypt32 (st : state) (h : bytes32) : Z :=
  match lookup st h with Some (VU32 v) => v | _ => 0 end.

Definition decryptBool (st : state) (h : bytes32) : bool :=
  match lookup st h with Some (VBool b) => b | _ => false end.

(** Modelled from the spec: handles are never reused; the next one is the
    position past the end of the store. *)
Definition next_handle (st : state) : bytes32 :=
  Z.of_nat (S (length (store st))).

Definition alloc (c : cval) (st : state) : bytes32 * state :=
  (next_handle st, {| store := store st ++ [c]; acl := acl st |}).

(** Modelled from the spec: an [externalEuint32] together with its
    [inputProof]: the 32-bit value the client sealed, and whether the
    co-processor accepts the proof. *)
Record ExternalInput := mk_input {
  sealed_value : Z;
  proof_ok : bool
}.

Definition plain_of (i : ExternalInput) : Z := wrap32 (sealed_value i).

(** Modelled from the spec: [FHE.fromExternal], the spec's [encrypt]; [None]
    when the proof is refused ([InvalidProof]). *)
Definition fromExternal (i : ExternalInput) (st : state) : option (bytes32 * state) :=
  if proof_ok i then Some (alloc (VU32 (plain_of i)) st) else None.

(** Modelled from the spec: [FHE.gt a b], the spec's [greaterThan]; an
    encrypted boolean, true iff [a > b]. *)
Definition gt (a b : bytes32) (st : state) : bytes32 * state :=
  alloc (VBool (decrypt32 st b <? decrypt32 st a)) st.

(** Modelled from the spec: [FHE.select c a b], the spec's [select]; a
    ciphertext of the plaintext of [a] if [c] holds, else of that of [b]. *)
Definition select (c a b : bytes32) (st : state) : bytes32 * state :=
  alloc (VU32 (if decryptBool st c then decrypt32 st a else decrypt32 st b)) st.

(** Modelled from the spec: [FHE.allow h who], the spec's [grant];
    idempotent, and grants are never removed. *)
Definition allow (h : bytes32) (who : address) (st : state) : state :=
  {| store := store st; acl := acl st ∪ {[ (h, who) ]} |}.

(** Modelled from the spec: [isGranted], the membership test of the oracle. *)
Definition isAllowed (st : state) (h : bytes32) (who : address) : bool :=
  bool_decide ((h, who) ∈ acl st).

End FHE.

(** ** The contract *)

Module ParkourGame.

Record Character := mk_Character {
  tokenId : uint256;
  owner : address;
  char_exists : bool
}.

Record PlayerScore := mk_PlayerScore {
  encryptedScore : bytes32;
  timestamp : uint256;
  exists_ : bool
}.

Inductive Event :=
| CharacterMinted (owner : address) (tokenId : uint256)
| ScoreSubmitted (player : address) (timestamp : uint256)
| LeaderboardUpdated (player : address) (rank : uint256).

Record Storage := mk_Storage {
  _tokenCounter : uint256;
  characters : gmap Z Character;
  ownerTokens : gmap Z (list Z);
  playerScores : gmap Z PlayerScore;
  _players : list address;
  _maxEncryptedScore : bytes32;
  _topPlayer : address;
  _hasTopPlayer : bool
}.

(** The contract's storage, the co-processor it talks to and the event
    log of the chain. *)
Record World := mk_World {
  storage : Storage;
  fhe : FHE.state;
  events : list Event
}.

Definition init_storage : Storage :=
  {| _tokenCounter := 0; characters := ∅; ownerTokens := ∅;
     playerScores := ∅; _players := []; _maxEncryptedScore := 0;
     _topPlayer := 0; _hasTopPlayer := false |}.

Definition init : World :=
  {| storage := init_storage; fhe := FHE.empty; events := [] |}.

(** A Solidity mapping yields the zero value at a key never written. *)
Definition zero_PlayerScore : PlayerScore :=
  {| encryptedScore := 0; timestamp := 0; exists_ := false |}.

Definition tokens_of (s : Storage) (a : address) : list Z :=
  default [] (ownerTokens s !! a).

Definition score_of (s : Storage) (a : address) : PlayerScore :=
  default zero_PlayerScore (playerScores s !! a).

(** *** Transactions: state and revert *)

Inductive RevertReason :=
| RequireFailed (reason : string)
| InvalidProof
| Panic (code : Z).

Definition NotEligible : RevertReason :=
  RequireFailed "Player must own a character NFT".

Inductive Result (A : Type) :=
| Ok (a : A)
| Revert (e : RevertReason).
Arguments Ok {A} a.
Arguments Revert {A} e.

Definition Tx (A : Type) : Type := World -> Result (A * World).

Definition ret {A} (a : A) : Tx A := fun w => Ok (a, w).

Definition bind {A B} (m : Tx A) (k : A -> Tx B) : Tx B :=
  fun w => match m w with
           | Ok (a, w') => k a w'
           | Revert e => Revert e
           end.

Definition revert {A} (e : RevertReason) : Tx A := fun _ => Revert e.

Definition require (b : bool) (reason : string) : Tx unit :=
  if b then ret tt else revert (RequireFailed reason).

Definition sload {A} (f : Storage -> A) : Tx A :=
  fun w => Ok (f (storage w), w).

Definition sstore (f : Storage -> Storage) : Tx unit :=
  fun w => Ok (tt, {| storage := f (storage w); fhe := fhe w; events := events w |}).

Definition emit (e : Event) : Tx unit :=
  fun w => Ok (tt, {| storage := storage w; fhe := fhe w; events := events w ++ [e] |}).

(** Calls into the co-processor. *)
Definition fhe_call {A} (op : FHE.state -> A * FHE.state) : Tx A :=
  fun w => let '(a, f) := op (fhe w) in
           Ok (a, {| storage := storage w; fhe := f; events := events w |}).

Definition fhe_fromExternal (i : FHE.ExternalInput) : Tx bytes32 :=
  fun w => match FHE.fromExternal i (fhe w) with
           | Some (h, f) => Ok (h, {| storage := storage w; fhe := f; events := events w |})
           | None => Revert InvalidProof
           end.

Definition fhe_allow (h : bytes32) (who : address) : Tx unit :=
  fhe_call (fun f => (tt, FHE.allow h who f)).

Declare Scope tx_scope.
Delimit Scope tx_scope with tx.
Notation "x <- c ;; k" := (bind c (fun x => k))
  (at level 100, c at next level, right associativity) : tx_scope.
Notation "c ;; k" := (bind c (fun _ => k))
  (at level 100, right associativity) : tx_scope.

(** Checked 256-bit arithmetic (Solidity 0.8): overflow is [Panic(0x11)]. *)
Definition checked_add (a b : Z) : Result Z :=
  if a + b <=? MAX_UINT256 then Ok (a + b) else Revert (Panic 17).

Definition lift {A} (r : Result A) : Tx A :=
  fun w => match r with Ok a => Ok (a, w) | Revert e => Revert e end.

(** *** Storage writes *)

Definition set_tokenCounter (n : Z) (s : Storage) : Storage :=
  {| _tokenCounter := n; characters := characters s; ownerTokens := ownerTokens s;
     playerScores := playerScores s; _players := _players s;
     _maxEncryptedScore := _maxEncryptedScore s; _topPlayer := _topPlayer s;
     _hasTopPlayer := _hasTopPlayer s |}.

Definition set_character (k : Z) (c : Character) (s : Storage) : Storage :=
  {| _tokenCounter := _tokenCounter s; characters := <[k := c]> (characters s);
     ownerTokens := ownerTokens s;
     playerScores := playerScores s; _players := _players s;
     _maxEncryptedScore := _maxEncryptedScore s; _topPlayer := _topPlayer s;
     _hasTopPlayer := _hasTopPlayer s |}.

Definition push_ownerToken (a : address) (t : Z) (s : Storage) : Storage :=
  {| _tokenCounter := _tokenCounter s; characters := characters s;
     ownerTokens := <[a := tokens_of s a ++ [t]]> (ownerTokens s);
     playerScores := playerScores s; _players := _players s;
     _maxEncryptedScore := _maxEncryptedScore s; _topPlayer := _topPlayer s;
     _hasTopPlayer := _hasTopPlayer s |}.

Definition set_playerScore (a : address) (p : PlayerScore) (s : Storage) : Storage :=
  {| _tokenCounter := _tokenCounter s; characters := characters s;
     ownerTokens := ownerTokens s;
     playerScores := <[a := p]> (playerScores s); _players := _players s;
     _maxEncryptedScore := _maxEncryptedScore s; _topPlayer := _topPlayer s;
     _hasTopPlayer := _hasTopPlayer s |}.

Definition push_player (a : address) (s : Storage) : Storage :=
  {| _tokenCounter := _tokenCounter s; characters := characters s;
     ownerTokens := ownerTokens s;
     playerScores := playerScores s; _players := _players s ++ [a];
     _maxEncryptedScore := _maxEncryptedScore s; _topPlayer := _topPlayer s;
     _hasTopPlayer := _hasTopPlayer s |}.

Definition set_maxEncryptedScore (h : bytes32) (s : Storage) : Storage :=
  {| _tokenCounter := _tokenCounter s; characters := characters s;
     ownerTokens := ownerTokens s;
     playerScores := playerScores s; _players := _players s;
     _maxEncryptedScore := h; _topPlayer := _topPlayer s;
     _hasTopPlayer := _hasTopPlayer s |}.

Definition set_topPlayer (a : address) (s : Storage) : Storage :=
  {| _tokenCounter := _tokenCounter s; characters := characters s;
     ownerTokens := ownerTokens s;
     playerScores := playerScores s; _players := _players s;
     _maxEncryptedScore := _maxEncryptedScore s; _topPlayer := a;
     _hasTopPlayer := _hasTopPlayer s |}.

Definition set_hasTopPlayer (b : bool) (s : Storage) : Storage :=
  {| _tokenCounter := _tokenCounter s; characters := characters s;
     ownerTokens := ownerTokens s;
     playerScores := playerScores s; _players := _players s;
     _maxEncryptedScore := _maxEncryptedScore s; _topPlayer := _topPlayer s;
     _hasTopPlayer := b |}.

Definition set_encryptedScore (a : address) (h : bytes32) (s : Storage) : Storage :=
  set_playerScore a
    {| encryptedScore := h; timestamp := timestamp (score_of s a);
       exists_ := exists_ (score_of s a) |} s.

Definition set_timestamp (a : address) (t : Z) (s : Storage) : Storage :=
  set_playerScore a
    {| encryptedScore := encryptedScore (score_of s a); timestamp := t;
       exists_ := exists_ (score_of s a) |} s.

Section Contract.

(** [address(this)], [msg.sender] and [block.timestamp] of the call. *)
Variable this : address.
Variable msg_sender : address.
Variable block_timestamp : uint256.

Open Scope tx_scope.

Definition mintCharacter : Tx uint256 :=
  counter <- sload _tokenCounter ;;
  tokenId <- lift (checked_add counter 1) ;;
  sstore (set_tokenCounter tokenId) ;;
  sstore (set_character tokenId
            {| tokenId := tokenId; owner := msg_sender; char_exists := true |}) ;;
  sstore (push_ownerToken msg_sender tokenId) ;;
  emit (CharacterMinted msg_sender tokenId) ;;
  ret tokenId.

Definition submitScore (input : FHE.ExternalInput) : Tx unit :=
  tokens <- sload (fun s => tokens_of s msg_sender) ;;
  require (0 <? Z.of_nat (length tokens)) "Player must own a character NFT" ;;
  encryptedEuint32 <- fhe_fromExternal input ;;
  known <- sload (fun s => exists_ (score_of s msg_sender)) ;;
  (if negb known then
     sstore (push_player msg_sender) ;;
     sstore (set_playerScore msg_sender
               {| encryptedScore := encryptedEuint32;
                  timestamp := block_timestamp;
                  exists_ := true |}) ;;
     hasTop <- sload _hasTopPlayer ;;
     if negb hasTop then
       sstore (set_maxEncryptedScore encryptedEuint32) ;;
       sstore (set_topPlayer msg_sender) ;;
       sstore (set_hasTopPlayer true)
     else
       maxScore <- sload _maxEncryptedScore ;;
       isNewHigher <- fhe_call (FHE.gt encryptedEuint32 maxScore) ;;
       newMax <- fhe_call (FHE.select isNewHigher encryptedEuint32 maxScore) ;;
       sstore (set_maxEncryptedScore newMax)
   else
     currentScore <- sload (fun s => encryptedScore (score_of s msg_sender)) ;;
     isNewHigher <- fhe_call (FHE.gt encryptedEuint32 currentScore) ;;
     newScore <- fhe_call (FHE.select isNewHigher encryptedEuint32 currentScore) ;;
     sstore (set_encryptedScore msg_sender newScore) ;;
     maxScore <- sload _maxEncryptedScore ;;
     isNewMax <- fhe_call (FHE.gt encryptedEuint32 maxScore) ;;
     newMax <- fhe_call (FHE.select isNewMax encryptedEuint32 maxScore) ;;
     sstore (set_maxEncryptedScore newMax) ;;
     sstore (set_timestamp msg_sender block_timestamp)) ;;
  score <- sload (fun s => encryptedScore (score_of s msg_sender)) ;;
  fhe_allow score this ;;
  fhe_allow score msg_sender ;;
  maxScore <- sload _maxEncryptedScore ;;
  fhe_allow maxScore this ;;
  emit (ScoreSubmitted msg_sender block_timestamp).

End Contract.

(** *** Views *)

Definition rbind {A B} (r : Result A) (k : A -> Result B) : Result B :=
  match r with Ok a => k a | Revert e => Revert e end.

Declare Scope res_scope.
Delimit Scope res_scope with res.
Notation "x <- c ;; k" := (rbind c (fun x => k))
  (at level 100, c at next level, right associativity) : res_scope.

(** [for (uint256 i = i0; i < i0 + n; i++) body]. *)
Fixpoint for_loop {Acc : Type} (n : nat) (i : Z) (body : Z -> Acc -> Result Acc)
    (s : Acc) : Result Acc :=
  match n with
  | O => Ok s
  | S n' => rbind (body i s) (for_loop n' (i + 1) body)
  end.

(** Array accesses are bounds-checked: out of range is [Panic(0x32)]. *)
Definition array_get {A} (l : list A) (i : Z) : Result A :=
  match l !! Z.to_nat i with
  | Some x => Ok x
  | None => Revert (Panic 50)
  end.

Definition array_set {A} (l : list A) (i : Z) (x : A) : Result (list A) :=
  if (Z.to_nat i <? length l)%nat then Ok (<[Z.to_nat i := x]> l) else Revert (Panic 50).

Definition new_array {A} (zero : A) (n : Z) : list A := replicate (Z.to_nat n) zero.

Definition hasCharacter (s : Storage) (player : address) : bool * uint256 :=
  match tokens_of s player with
  | t :: _ => (true, t)
  | [] => (false, 0)
  end.

Definition getPlayerCharacters (s : Storage) (player : address) : list uint256 :=
  tokens_of s player.

Definition getPlayerScore (s : Storage) (player : address) : bytes32 * uint256 * bool :=
  let score := score_of s player in
  (encryptedScore score, timestamp score, exists_ score).

Definition getTopPlayer (s : Storage) : address * bytes32 :=
  if negb (_hasTopPlayer s) || (Z.of_nat (length (_players s)) =? 0)
  then (0, 0)
  else (_topPlayer s, 0).

Definition getMaxEncryptedScore (s : Storage) : bytes32 := _maxEncryptedScore s.

Definition getPlayerCount (s : Storage) : uint256 := Z.of_nat (length (_players s)).

Definition getAllPlayers (s : Storage) : list address := _players s.

Open Scope res_scope.

Definition getLeaderboard (s : Storage) : Result (list address * list uint256) :=
  let playerCount := Z.of_nat (length (_players s)) in
  validCount <-
    for_loop (Z.to_nat playerCount) 0
      (fun i validCount =>
         player <- array_get (_players s) i ;;
         if exists_ (score_of s player) then checked_add validCount 1
         else Ok validCount) 0 ;;
  let players := new_array 0 validCount in
  let timestamps := new_array 0 validCount in
  filled <-
    for_loop (Z.to_nat playerCount) 0
      (fun i '(players, timestamps, index) =>
         player <- array_get (_players s) i ;;
         let score := score_of s player in
         if exists_ score then
           players <- array_set players index player ;;
           timestamps <- array_set timestamps index (timestamp score) ;;
           index <- checked_add index 1 ;;
           Ok (players, timestamps, index)
         else Ok (players, timestamps, index))
      (players, timestamps, 0) ;;
  Ok (fst filled).

Definition getLeaderboardRange (s : Storage) (startIndex count : uint256)
  : Result (list address * list bytes32 * list uint256) :=
  let playerCount := Z.of_nat (length (_players s)) in
  if playerCount <=? startIndex then Ok ([], [], [])
  else
    endIndex <- checked_add startIndex count ;;
    let endIndex := if playerCount <? endIndex then playerCount else endIndex in
    let actualCount := endIndex - startIndex in
    for_loop (Z.to_nat actualCount) 0
      (fun i '(players, encryptedScores, timestamps) =>
         player <- array_get (_players s) (startIndex + i) ;;
         players <- array_set players i player ;;
         encryptedScores <- array_set encryptedScores i
                              (encryptedScore (score_of s player)) ;;
         timestamps <- array_set timestamps i (timestamp (score_of s player)) ;;
         Ok (players, encryptedScores, timestamps))
      (new_array 0 actualCount, new_array 0 actualCount, new_array 0 actualCount).

Close Scope res_scope.

(** *** Calls and traces *)

Inductive Call :=
| CallMint (sender : address)
| CallSubmit (sender : address) (block_timestamp : uint256) (input : FHE.ExternalInput).

Inductive Receipt :=
| Success
| Reverted (e : RevertReason).

(** A transaction that reverts leaves the world as it was. *)
Definition transact {A} (tx : Tx A) (w : World) : World * Receipt :=
  match tx w with
  | Ok (_, w') => (w', Success)
  | Revert e => (w, Reverted e)
  end.

Definition exec (this : address) (w : World) (c : Call) : World * Receipt :=
  match c with
  | CallMint a => transact (mintCharacter a) w
  | CallSubmit a t i => transact (submitScore this a t i) w
  end.

Definition run (this : address) (w : World) (cs : list Call) : World :=
  fold_left (fun w c => fst (exec this w c)) cs w.

(** The submissions of a trace that the ledger accepted, in order, with
    the plaintext each one sealed. *)
Record Submission := mk_Submission {
  sub_sender : address;
  sub_time : uint256;
  sub_value : Z
}.

Definition accepted_of (this : address) (w : World) (c : Call) : list Submission :=
  match c with
  | CallSubmit a t i =>
      match snd (exec this w c) with
      | Success => [ {| sub_sender := a; sub_time := t; sub_value := FHE.plain_of i |} ]
      | Reverted _ => []
      end
  | CallMint _ => []
  end.

Fixpoint history (this : address) (w : World) (cs : list Call) : list Submission :=
  match cs with
  | [] => []
  | c :: cs' => accepted_of this w c ++ history this (fst (exec this w c)) cs'
  end.

Definition by_sender (p : address) (h : list Submission) : list Submission :=
  filter (fun s => sub_sender s = p) h.

(** [m] is the greatest element of [l]. *)
Definition is_max (m : Z) (l : list Z) : Prop :=
  m ∈ l /\ Forall (fun v => v <= m) l.

(** What a holder of the right grants reads from the ledger. *)
Definition decrypt_score (w : World) (p : address) : Z :=
  FHE.decrypt32 (fhe w) (encryptedScore (score_of (storage w) p)).

Definition decrypt_max (w : World) : Z :=
  FHE.decrypt32 (fhe w) (_maxEncryptedScore (storage w)).

End ParkourGame.

(** ** The client hook *)

Module UseParkourGame.

(** The outcome of awaiting a promise: it resolves, or it rejects and
    [await] throws an error with a message. *)
Inductive Fallible (A : Type) :=
| Resolved (a : A)
| Rejected (message : string).
Arguments Resolved {A} a.
Arguments Rejected {A} message.

Record Signer := mk_Signer { signer_address : address }.

Inductive FhevmInstance := fhevm_instance.
Inductive ContractRunner := contract_runner.

(** [FhevmDecryptionSignature]: the authorization session. *)
Record DecryptionSignature := mk_DecryptionSignature {
  privateKey : string;
  publicKey : string;
  signature : string;
  contractAddresses : list address;
  userAddress : address;
  startTimestamp : Z;
  durationDays : Z
}.

Record LeaderboardRow := mk_LeaderboardRow {
  rank : Z;
  row_address : address;
  encryptedScoreHandle : bytes32;
  row_timestamp : Z
}.

(** The state the hook keeps between renders: [useState] cells and
    [useRef] cells. *)
Record Hook := mk_Hook {
  playerScore : option string;
  isSubmitting : bool;
  isDecrypting : bool;
  isLoadingLeaderboard : bool;
  leaderboard : list LeaderboardRow;
  message : string;
  isSubmittingRef : bool;
  isDecryptingRef : bool
}.

Definition initial : Hook :=
  {| playerScore := None; isSubmitting := false; isDecrypting := false;
     isLoadingLeaderboard := false; leaderboard := []; message := "";
     isSubmittingRef := false; isDecryptingRef := false |}.

(** What a callback closes over at the render that created it. *)
Record Render := mk_Render {
  instance : option FhevmInstance;
  chainId : option Z;
  ethersSigner : option Signer;
  ethersReadonlyProvider : option ContractRunner;
  parkourGame_address : option address;
  hasCharacter : bool
}.

(** What the refs show when a staleness check looks at them:
    [parkourGameRef.current?.address], [sameChain.current] and
    [sameSigner.current]. *)
Record Ambient := mk_Ambient {
  ref_address : option address;
  sameChain : option Z -> bool;
  sameSigner : Signer -> bool
}.

(** The handle of a ciphertext is read as the [bytes32] it prints;
    [ethers.ZeroHash] prints the all-zero one. *)
Definition ZeroHash : bytes32 := 0.

Inductive Site :=
| BeforeOracle | AfterOracle
| BeforeSend | AfterReceipt
| AfterList | AfterScores.

(** What a run does to the outside, in order. *)
Inductive Effect :=
| GetAddress
| GetPlayerScore (player : address)
| LoadOrSign (contract : address) (signer : Signer)
| IsStale (site : Site) (stale : bool)
| UserDecrypt (handle : bytes32) (contract : address) (sig : DecryptionSignature)
| Encrypt (contract user : address) (score : Z)
| SendSubmitScore (handle : bytes32) (inputProof : string)
| WaitReceipt
| GetLeaderboard.

Record Cell := mk_Cell { hook : Hook; log : list Effect }.

Inductive Outcome (A : Type) :=
| Value (a : A)
| Returned
| Thrown (message : string).
Arguments Value {A} a.
Arguments Returned {A}.
Arguments Thrown {A} message.

Definition Async (A : Type) : Type := Cell -> Outcome A * Cell.

Definition pure {A} (a : A) : Async A := fun c => (Value a, c).

Definition bind {A B} (m : Async A) (k : A -> Async B) : Async B :=
  fun c => match m c with
           | (Value a, c') => k a c'
           | (Returned, c') => (Returned, c')
           | (Thrown e, c') => (Thrown e, c')
           end.

Definition return_ {A} : Async A := fun c => (Returned, c).
Definition throw {A} (e : string) : Async A := fun c => (Thrown e, c).

Definition perform (e : Effect) : Async unit :=
  fun c => (Value tt, {| hook := hook c; log := log c ++ [e] |}).

Definition update (f : Hook -> Hook) : Async unit :=
  fun c => (Value tt, {| hook := f (hook c); log := log c |}).

Declare Scope async_scope.
Delimit Scope async_scope with async.
Notation "x <- c ;; k" := (bind c (fun x => k))
  (at level 100, c at next level, right associativity) : async_scope.
Notation "c ;; k" := (bind c (fun _ => k))
  (at level 100, right associativity) : async_scope.
Open Scope async_scope.

Definition await {A} (e : Effect) (r : Fallible A) : Async A :=
  perform e ;;
  match r with
  | Resolved a => pure a
  | Rejected m => throw m
  end.

(** [try { body } catch (error) { handler(error.message) } finally { final }]. *)
Definition try_catch_finally (body : Async unit) (handler : string -> Async unit)
    (final : Async unit) : Cell -> Cell :=
  fun c =>
    let '(o, c1) := body c in
    let c2 := match o with
              | Thrown m => snd (handler m c1)
              | _ => c1
              end in
    snd (final c2).

(** *** State setters *)

Definition with_playerScore (v : option string) (h : Hook) : Hook :=
  {| playerScore := v; isSubmitting := isSubmitting h; isDecrypting := isDecrypting h;
     isLoadingLeaderboard := isLoadingLeaderboard h; leaderboard := leaderboard h;
     message := message h; isSubmittingRef := isSubmittingRef h;
     isDecryptingRef := isDecryptingRef h |}.

Definition with_isSubmitting (v : bool) (h : Hook) : Hook :=
  {| playerScore := playerScore h; isSubmitting := v; isDecrypting := isDecrypting h;
     isLoadingLeaderboard := isLoadingLeaderboard h; leaderboard := leaderboard h;
     message := message h; isSubmittingRef := isSubmittingRef h;
     isDecryptingRef := isDecryptingRef h |}.

Definition with_isDecrypting (v : bool) (h : Hook) : Hook :=
  {| playerScore := playerScore h; isSubmitting := isSubmitting h; isDecrypting := v;
     isLoadingLeaderboard := isLoadingLeaderboard h; leaderboard := leaderboard h;
     message := message h; isSubmittingRef := isSubmittingRef h;
     isDecryptingRef := isDecryptingRef h |}.

Definition with_isLoadingLeaderboard (v : bool) (h : Hook) : Hook :=
  {| playerScore := playerScore h; isSubmitting := isSubmitting h;
     isDecrypting := isDecrypting h;
     isLoadingLeaderboard := v; leaderboard := leaderboard h;
     message := message h; isSubmittingRef := isSubmittingRef h;
     isDecryptingRef := isDecryptingRef h |}.

Definition with_leaderboard (v : list LeaderboardRow) (h : Hook) : Hook :=
  {| playerScore := playerScore h; isSubmitting := isSubmitting h;
     isDecrypting := isDecrypting h;
     isLoadingLeaderboard := isLoadingLeaderboard h; leaderboard := v;
     message := message h; isSubmittingRef := isSubmittingRef h;
     isDecryptingRef := isDecryptingRef h |}.

Definition with_message (v : string) (h : Hook) : Hook :=
  {| playerScore := playerScore h; isSubmitting := isSubmitting h;
     isDecrypting := isDecrypting h;
     isLoadingLeaderboard := isLoadingLeaderboard h; leaderboard := leaderboard h;
     message := v; isSubmittingRef := isSubmittingRef h;
     isDecryptingRef := isDecryptingRef h |}.

Definition with_isSubmittingRef (v : bool) (h : Hook) : Hook :=
  {| playerScore := playerScore h; isSubmitting := isSubmitting h;
     isDecrypting := isDecrypting h;
     isLoadingLeaderboard := isLoadingLeaderboard h; leaderboard := leaderboard h;
     message := message h; isSubmittingRef := v;
     isDecryptingRef := isDecryptingRef h |}.

Definition with_isDecryptingRef (v : bool) (h : Hook) : Hook :=
  {| playerScore := playerScore h; isSubmitting := isSubmitting h;
     isDecrypting := isDecrypting h;
     isLoadingLeaderboard := isLoadingLeaderboard h; leaderboard := leaderboard h;
     message := message h; isSubmittingRef := isSubmittingRef h;
     isDecryptingRef := v |}.

Definition setPlayerScore (v : string) : Async unit := update (with_playerScore (Some v)).
Definition setIsSubmitting (v : bool) : Async unit := update (with_isSubmitting v).
Definition setIsDecrypting (v : bool) : Async unit := update (with_isDecrypting v).
Definition setIsLoadingLeaderboard (v : bool) : Async unit :=
  update (with_isLoadingLeaderboard v).
Definition setLeaderboard (v : list LeaderboardRow) : Async unit :=
  update (with_leaderboard v).
Definition setMessage (v : string) : Async unit := update (with_message v).

(** *** Staleness *)

Definition same_address (a : address) (b : option address) : bool :=
  match b with Some b' => a =? b' | None => false end.

(** The closure [isStale] of [submitScore] and [decryptScore], over the
    values captured when the request started. *)
Definition isStale (thisParkourGameAddress : address) (thisChainId : option Z)
    (thisEthersSigner : Signer) (now : Ambient) : bool :=
  negb (same_address thisParkourGameAddress (ref_address now))
  || negb (sameChain now thisChainId)
  || negb (sameSigner now thisEthersSigner).

(** The closure [isStale] of [fetchLeaderboard]. *)
Definition isStale_fetch (thisParkourGameAddress : address) (thisChainId : option Z)
    (now : Ambient) : bool :=
  negb (same_address thisParkourGameAddress (ref_address now))
  || negb (sameChain now thisChainId).

Definition check (site : Site) (stale : bool) : Async bool :=
  perform (IsStale site stale) ;; pure stale.

(** *** decryptScore *)

(** The answers the awaited calls of one decryption give, and what the
    refs show at each of the two staleness checks. *)
Record DecryptEnv := mk_DecryptEnv {
  de_getAddress : Fallible address;
  de_getPlayerScore : address -> Fallible (bytes32 * Z * bool);
  de_loadOrSign : Fallible (option DecryptionSignature);
  de_before : Ambient;
  de_userDecrypt : bytes32 -> DecryptionSignature -> Fallible (list (bytes32 * Z));
  de_after : Ambient
}.

(** The request as captured when it starts. *)
Record Request := mk_Request {
  thisChainId : option Z;
  thisParkourGameAddress : address;
  thisEthersSigner : Signer
}.

(** [res[handleString]], then [.toString()] on it. *)
Definition property (res : list (bytes32 * Z)) (h : bytes32) : Async Z :=
  match list_find (fun kv => fst kv = h) res with
  | Some (_, (_, v)) => pure v
  | None => throw "Cannot read properties of undefined (reading 'toString')"
  end.

(** The body [run] of [decryptScore]. *)
Definition decryptScore_run (q : Request) (env : DecryptEnv) : Cell -> Cell :=
  let isStale := isStale (thisParkourGameAddress q) (thisChainId q) (thisEthersSigner q) in
  try_catch_finally
    (userAddress <- await GetAddress (de_getAddress env) ;;
     result <- await (GetPlayerScore userAddress) (de_getPlayerScore env userAddress) ;;
     let encryptedScoreHandle := fst (fst result) in
     let exists_ := snd result in
     if negb exists_ then
       setMessage "No score found for this player" ;; return_
     else
     let handleString := encryptedScoreHandle in
     if handleString =? ZeroHash then
       setPlayerScore "0" ;; setMessage "Score: 0" ;; return_
     else
     sig <- await (LoadOrSign (thisParkourGameAddress q) (thisEthersSigner q))
                  (de_loadOrSign env) ;;
     match sig with
     | None => setMessage "Unable to build FHEVM decryption signature" ;; return_
     | Some sig =>
         stale <- check BeforeOracle (isStale (de_before env)) ;;
         if stale then setMessage "Ignore decryption" ;; return_
         else
         setMessage "Calling FHEVM userDecrypt..." ;;
         res <- await (UserDecrypt handleString (thisParkourGameAddress q) sig)
                      (de_userDecrypt env handleString sig) ;;
         setMessage "Decryption completed!" ;;
         stale <- check AfterOracle (isStale (de_after env)) ;;
         if stale then setMessage "Ignore decryption" ;; return_
         else
         decryptedValue <- property res handleString ;;
         setPlayerScore (pretty decryptedValue) ;;
         setMessage ("Your score: " +:+ pretty decryptedValue)
     end)
    (fun error_message => setMessage ("Decryption failed: " +:+ error_message))
    (update (with_isDecryptingRef false) ;; setIsDecrypting false).

(** The part of [decryptScore] that runs at the call: the guard, then
    the flags and the captured request. [None]: the call did nothing. *)
Definition decryptScore_begin (r : Render) (h : Hook) : Hook * option Request :=
  match isDecryptingRef h, parkourGame_address r, instance r, ethersSigner r with
  | false, Some addr, Some _, Some signer =>
      (with_message "Decrypting score..."
         (with_isDecrypting true (with_isDecryptingRef true h)),
       Some {| thisChainId := chainId r; thisParkourGameAddress := addr;
               thisEthersSigner := signer |})
  | _, _, _, _ => (h, None)
  end.

(** A call whose awaited answers are all at hand. *)
Definition decryptScore (r : Render) (env : DecryptEnv) (h : Hook) : Cell :=
  match decryptScore_begin r h with
  | (h', Some q) => decryptScore_run q env {| hook := h'; log := [] |}
  | (h', None) => {| hook := h'; log := [] |}
  end.

Definition is_oracle_call (e : Effect) : bool :=
  match e with UserDecrypt _ _ _ => true | _ => false end.

(** The calls to the decryption oracle in a log. *)
Definition oracle_calls (l : list Effect) : list Effect :=
  filter (fun e => is_oracle_call e = true) l.

(** *** submitScore *)

Record SubmitEnv := mk_SubmitEnv {
  se_encrypt : Fallible (bytes32 * string);
  se_before : Ambient;
  se_send : Fallible string;
  se_wait : Fallible (option (option Z));
  se_after : Ambient
}.

(** [receipt?.status] in a template: [wait] gives a receipt or [null],
    and the status of a receipt is a number or [null]. *)
Definition status_text (receipt : option (option Z)) : string :=
  match receipt with
  | Some (Some n) => pretty n
  | Some None => "null"
  | None => "undefined"
  end.

(** The body [run] of [submitScore]. *)
Definition submitScore_run (q : Request) (score : Z) (env : SubmitEnv) : Cell -> Cell :=
  let isStale := isStale (thisParkourGameAddress q) (thisChainId q) (thisEthersSigner q) in
  try_catch_finally
    (enc <- await (Encrypt (thisParkourGameAddress q)
                     (signer_address (thisEthersSigner q)) score)
                  (se_encrypt env) ;;
     stale <- check BeforeSend (isStale (se_before env)) ;;
     if stale then setMessage "Ignore score submission" ;; return_
     else
     setMessage "Submitting encrypted score to contract..." ;;
     tx_hash <- await (SendSubmitScore (fst enc) (snd enc)) (se_send env) ;;
     setMessage ("Transaction sent: " +:+ tx_hash) ;;
     receipt <- await WaitReceipt (se_wait env) ;;
     setMessage ("Score submitted successfully! Status: " +:+ status_text receipt) ;;
     stale <- check AfterReceipt (isStale (se_after env)) ;;
     if stale then return_ else pure tt)
    (fun error_message => setMessage ("Submit score failed: " +:+ error_message))
    (update (with_isSubmittingRef false) ;; setIsSubmitting false).

Definition submitScore_begin (r : Render) (score : Z) (h : Hook) : Hook * option Request :=
  match isSubmittingRef h, parkourGame_address r, instance r, ethersSigner r with
  | false, Some addr, Some _, Some signer =>
      if negb (hasCharacter r) then
        (with_message "You need to mint a character first!" h, None)
      else
        (with_message ("Encrypting and submitting score " +:+ pretty score +:+ "...")
           (with_isSubmitting true (with_isSubmittingRef true h)),
         Some {| thisChainId := chainId r; thisParkourGameAddress := addr;
                 thisEthersSigner := signer |})
  | _, _, _, _ => (h, None)
  end.

(** *** One caller, many calls *)

(** The hook of one component, with the runs that were started and have
    not settled yet. *)
Record Session := mk_Session {
  current : Hook;
  decryptions : list Request;
  submissions : list (Request * Z)
}.

Definition start : Session :=
  {| current := initial; decryptions := []; submissions := [] |}.

Inductive Action :=
| CallDecryptScore (r : Render)
| CallSubmitScore (r : Render) (score : Z)
| SettleDecrypt (env : DecryptEnv)
| SettleSubmit (env : SubmitEnv).

Definition step (s : Session) (a : Action) : Session :=
  match a with
  | CallDecryptScore r =>
      let '(h, q) := decryptScore_begin r (current s) in
      {| current := h; decryptions := decryptions s ++ option_list q;
         submissions := submissions s |}
  | CallSubmitScore r score =>
      let '(h, q) := submitScore_begin r score (current s) in
      {| current := h; decryptions := decryptions s;
         submissions := submissions s ++ option_list ((fun q => (q, score)) <$> q) |}
  | SettleDecrypt env =>
      match decryptions s with
      | q :: rest =>
          {| current := hook (decryptScore_run q env {| hook := current s; log := [] |});
             decryptions := rest; submissions := submissions s |}
      | [] => s
      end
  | SettleSubmit env =>
      match submissions s with
      | (q, score) :: rest =>
          {| current := hook (submitScore_run q score env
                                {| hook := current s; log := [] |});
             decryptions := decryptions s; submissions := rest |}
      | [] => s
      end
  end.

Definition play (s : Session) (l : list Action) : Session := fold_left step l s.

(** *** fetchLeaderboard *)

Record FetchEnv := mk_FetchEnv {
  fe_getLeaderboard : Fallible (list address * list Z);
  fe_afterList : Ambient;
  fe_getPlayerScore : address -> Fallible (bytes32 * Z * bool);
  fe_afterScores : Ambient
}.

Record ScoreRow := mk_ScoreRow {
  player : address;
  encryptedScore : bytes32;
  timestamp : Z;
  exists_ : bool
}.

Record Entry := mk_Entry {
  entry_address : address;
  entry_handle : bytes32;
  entry_timestamp : Z
}.

(** [Promise.all(players.map(...))]: every call is made; the first
    rejection is thrown. *)
Fixpoint await_all (env : FetchEnv) (players : list address) : Async (list ScoreRow) :=
  match players with
  | [] => pure []
  | p :: rest =>
      perform (GetPlayerScore p) ;;
      fun c =>
        match fe_getPlayerScore env p, await_all env rest c with
        | Resolved r, (Value rows, c') =>
            (Value ({| player := p; encryptedScore := fst (fst r);
                       timestamp := snd (fst r); exists_ := snd r |} :: rows), c')
        | Rejected m, (_, c') => (Thrown m, c')
        | Resolved _, (o, c') => (match o with Thrown m => Thrown m | _ => Returned end, c')
        end
  end.

(** The comparator handed to [entries.sort]. *)
Definition compare_entries (a b : Entry) : Z :=
  if entry_timestamp b <? entry_timestamp a then -1
  else if entry_timestamp a <? entry_timestamp b then 1
  else 0.

(** [Array.prototype.sort] is a stable sort; on a comparator that orders
    by a key every stable sort gives the same array, here by insertion. *)
Fixpoint sort_insert {A} (cmp : A -> A -> Z) (x : A) (l : list A) : list A :=
  match l with
  | [] => [x]
  | y :: l' => if 0 <? cmp x y then y :: sort_insert cmp x l' else x :: l
  end.

Definition array_sort {A} (cmp : A -> A -> Z) (l : list A) : list A :=
  foldr (sort_insert cmp) [] l.

Definition to_entry (ps : ScoreRow) : option Entry :=
  let handleString := encryptedScore ps in
  if handleString =? ZeroHash then None
  else Some {| entry_address := player ps; entry_handle := handleString;
               entry_timestamp := timestamp ps |}.

Definition ranked (entries : list Entry) : list LeaderboardRow :=
  imap (fun index entry =>
          {| rank := Z.of_nat index + 1; row_address := entry_address entry;
             encryptedScoreHandle := entry_handle entry;
             row_timestamp := entry_timestamp entry |}) entries.

(** The body [run] of [fetchLeaderboard]. *)
Definition fetchLeaderboard_run (thisChainId : option Z) (thisParkourGameAddress : address)
    (env : FetchEnv) : Cell -> Cell :=
  let isStale := isStale_fetch thisParkourGameAddress thisChainId in
  try_catch_finally
    (result <- await GetLeaderboard (fe_getLeaderboard env) ;;
     let players := fst result in
     if (length players =? 0)%nat then
       setLeaderboard [] ;; setMessage "No players in leaderboard yet" ;; return_
     else
     stale <- check AfterList (isStale (fe_afterList env)) ;;
     if stale then setMessage "Ignore leaderboard fetch" ;; return_
     else
     setMessage ("Fetching " +:+ pretty (length players) +:+ " player scores...") ;;
     playerScores <- await_all env players ;;
     let validScores := filter (fun ps => exists_ ps = true) playerScores in
     if (length validScores =? 0)%nat then
       setLeaderboard [] ;; setMessage "No valid scores found" ;; return_
     else
     stale <- check AfterScores (isStale (fe_afterScores env)) ;;
     if stale then setMessage "Ignore leaderboard fetch" ;; return_
     else
     setMessage "Building leaderboard with encrypted scores..." ;;
     let entries := omap to_entry validScores in
     if (length entries =? 0)%nat then
       setLeaderboard [] ;; setMessage "No valid scores found" ;; return_
     else
     let entries := array_sort compare_entries entries in
     let rankedEntries := ranked entries in
     setLeaderboard rankedEntries ;;
     setMessage ("Leaderboard loaded: " +:+ pretty (length rankedEntries) +:+ " players"))
    (fun error_message => setMessage ("Failed to load leaderboard: " +:+ error_message))
    (setIsLoadingLeaderboard false).

Definition fetchLeaderboard (r : Render) (env : FetchEnv) (h : Hook) : Cell :=
  match parkourGame_address r, ethersReadonlyProvider r with
  | Some addr, Some _ =>
      fetchLeaderboard_run (chainId r) addr env
        {| hook := with_message "Loading leaderboard..."
                     (with_isLoadingLeaderboard true h);
           log := [] |}
  | _, _ => {| hook := h; log := [] |}
  end.

(** The ledger as the hook reads it: the views of the contract at one
    state of the world. *)
Definition reading (w : ParkourGame.World) (before after : Ambient) : FetchEnv :=
  {| fe_getLeaderboard :=
       match ParkourGame.getLeaderboard (ParkourGame.storage w) with
       | ParkourGame.Ok r => Resolved r
       | ParkourGame.Revert _ => Rejected "execution reverted"
       end;
     fe_afterList := before;
     fe_getPlayerScore :=
       fun p => Resolved (ParkourGame.getPlayerScore (ParkourGame.storage w) p);
     fe_afterScores := after |}.

End UseParkourGame.

(** * Specifications *)

(** ** The ledger against the submissions it accepted *)

Module LedgerSpec.
Import ParkourGame.

(** A transaction returns, in a world where [Q] holds. *)
Definition returns {A} (m : Tx A) (Q : A -> World -> Prop) (w : World) : Prop :=
  match m w with
  | Ok (a, w') => Q a w'
  | Revert _ => False
  end.

(** What an accepted submission leaves behind. *)
Record submitted (this a t : Z) (i : FHE.ExternalInput) (w w' : World) : Prop := {
  sub_score : exists_ (score_of (storage w') a) = true
              /\ timestamp (score_of (storage w') a) = t;
  sub_others : forall p, p <> a -> score_of (storage w') p = score_of (storage w) p;
  sub_players : _players (storage w') =
                if exists_ (score_of (storage w) a) then _players (storage w)
                else _players (storage w) ++ [a];
  sub_hasTop : _hasTopPlayer (storage w') = true;
  sub_topPlayer : _topPlayer (storage w') =
                  if _hasTopPlayer (storage w) then _topPlayer (storage w) else a;
  sub_tokens : ownerTokens (storage w') = ownerTokens (storage w);
  sub_value_score :
    FHE.lookup (fhe w') (encryptedScore (score_of (storage w') a)) =
    Some (FHE.VU32 (if exists_ (score_of (storage w) a)
                    then Z.max (decrypt_score w a) (FHE.plain_of i)
                    else FHE.plain_of i));
  sub_value_max :
    FHE.lookup (fhe w') (_maxEncryptedScore (storage w')) =
    Some (FHE.VU32 (if _hasTopPlayer (storage w)
                    then Z.max (decrypt_max w) (FHE.plain_of i)
                    else FHE.plain_of i));
  sub_store : forall h v, FHE.lookup (fhe w) h = Some v -> FHE.lookup (fhe w') h = Some v;
  sub_acl : FHE.acl (fhe w') =
            FHE.acl (fhe w)
            ∪ {[ (encryptedScore (score_of (storage w') a), this) ]}
            ∪ {[ (encryptedScore (score_of (storage w') a), a) ]}
            ∪ {[ (_maxEncryptedScore (storage w'), this) ]};
  sub_events : events w' = events w ++ [ScoreSubmitted a t]
}.

Definition values (h : list Submission) : list Z := map sub_value h.

(** The record of [p] stands for the submissions [subs] of [p]. *)
Record score_ok (this : Z) (w : World) (p : Z) (subs : list Submission) : Prop := {
  so_exists : exists_ (score_of (storage w) p) = true;
  so_value : exists v,
    FHE.lookup (fhe w) (encryptedScore (score_of (storage w) p)) = Some (FHE.VU32 v)
    /\ is_max v (values subs);
  so_time : sub_time <$> last subs = Some (timestamp (score_of (storage w) p));
  so_grant_this : (encryptedScore (score_of (storage w) p), this) ∈ FHE.acl (fhe w);
  so_grant_owner : (encryptedScore (score_of (storage w) p), p) ∈ FHE.acl (fhe w)
}.

(** The max state stands for all the submissions [hist]. *)
Record max_ok (this : Z) (w : World) (hist : list Submission) : Prop := {
  mo_hasTop : _hasTopPlayer (storage w) = true;
  mo_top : sub_sender <$> head hist = Some (_topPlayer (storage w));
  mo_value : exists m,
    FHE.lookup (fhe w) (_maxEncryptedScore (storage w)) = Some (FHE.VU32 m)
    /\ is_max m (values hist);
  mo_grant : (_maxEncryptedScore (storage w), this) ∈ FHE.acl (fhe w)
}.

Record Repr (this : Z) (w : World) (hist : list Submission) : Prop := {
  repr_none : forall p, by_sender p hist = [] -> exists_ (score_of (storage w) p) = false;
  repr_some : forall p, by_sender p hist <> [] -> score_ok this w p (by_sender p hist);
  repr_empty : hist = [] -> _hasTopPlayer (storage w) = false;
  repr_max : hist <> [] -> max_ok this w hist;
  repr_players : forall p, p ∈ _players (storage w) <-> exists_ (score_of (storage w) p) = true;
  repr_nodup : NoDup (_players (storage w))
}.

(** A submission the ledger will take: the sender owns a character and
    the proof is good. *)
Definition eligible_submit (w : World) (c : Call) : Prop :=
  match c with
  | CallSubmit a _ i => tokens_of (storage w) a <> [] /\ FHE.proof_ok i = true
  | CallMint _ => False
  end.

Definition submission_of (c : Call) : list Submission :=
  match c with
  | CallSubmit a t i => [ {| sub_sender := a; sub_time := t; sub_value := FHE.plain_of i |} ]
  | CallMint _ => []
  end.

End LedgerSpec.

(** ** The loops of the views *)

Module ViewSpec.
Import ParkourGame.

(** A loop over the indices of an array, read as a fold over the array. *)
Fixpoint fold_res {Acc A} (f : A -> Acc -> Result Acc) (l : list A) (s : Acc)
  : Result Acc :=
  match l with
  | [] => Ok s
  | x :: l' => rbind (f x s) (fold_res f l')
  end.

(** The player of the list has a record. *)
Definition has_score (s : Storage) (p : Z) : Prop := exists_ (score_of s p) = true.

#[global] Instance has_score_dec (s : Storage) (p : Z) : Decision (has_score s p) :=
  decide (exists_ (score_of s p) = true).

Definition count_step (s : Storage) (player : Z) (validCount : Z) : Result Z :=
  if exists_ (score_of s player) then checked_add validCount 1 else Ok validCount.

Definition fill_step (s : Storage) (player : Z) (acc : list Z * list Z * Z)
  : Result (list Z * list Z * Z) :=
  let '(players, timestamps, index) := acc in
  if exists_ (score_of s player) then
    rbind (array_set players index player) (fun players =>
    rbind (array_set timestamps index (timestamp (score_of s player))) (fun timestamps =>
    rbind (checked_add index 1) (fun index => Ok (players, timestamps, index))))
  else Ok (players, timestamps, index).

Definition range_step (s : Storage) (startIndex i : Z) (acc : list Z * list Z * list Z)
  : Result (list Z * list Z * list Z) :=
  let '(players, encryptedScores, timestamps) := acc in
  rbind (array_get (_players s) (startIndex + i)) (fun player =>
  rbind (array_set players i player) (fun players =>
  rbind (array_set encryptedScores i (encryptedScore (score_of s player)))
    (fun encryptedScores =>
  rbind (array_set timestamps i (timestamp (score_of s player))) (fun timestamps =>
  Ok (players, encryptedScores, timestamps))))).

(** [count] entries of [l] from position [start]. *)
Definition slice {A} (start count : Z) (l : list A) : list A :=
  take (Z.to_nat count) (drop (Z.to_nat start) l).

End ViewSpec.

(** ** The hook *)

Module HookSpec.
Import UseParkourGame.

(** A flag is up exactly while its run is outstanding, and there is at
    most one such run. *)
Definition guarded (s : Session) : Prop :=
  (decryptions s = [] /\ isDecryptingRef (current s) = false
   \/ exists q, decryptions s = [q] /\ isDecryptingRef (current s) = true)
  /\ (submissions s = [] /\ isSubmittingRef (current s) = false
      \/ exists q, submissions s = [q] /\ isSubmittingRef (current s) = true).

(** The more recent entry comes first. *)
Definition newer_first (a b : Entry) : Prop := entry_timestamp b <= entry_timestamp a.

(** What the hook reads of a player, and the entry it makes of it. *)
Definition row_of (s : ParkourGame.Storage) (p : Z) : ScoreRow :=
  {| player := p;
     encryptedScore := ParkourGame.encryptedScore (ParkourGame.score_of s p);
     timestamp := ParkourGame.timestamp (ParkourGame.score_of s p);
     exists_ := ParkourGame.exists_ (ParkourGame.score_of s p) |}.

Definition entry_of (s : ParkourGame.Storage) (p : Z) : Entry :=
  {| entry_address := p;
     entry_handle := ParkourGame.encryptedScore (ParkourGame.score_of s p);
     entry_timestamp := ParkourGame.timestamp (ParkourGame.score_of s p) |}.

(** A row without its rank. *)
Definition unrank (row : LeaderboardRow) : Entry :=
  {| entry_address := row_address row; entry_handle := encryptedScoreHandle row;
     entry_timestamp := row_timestamp row |}.

End HookSpec.

(** ** A component and its surroundings, for the examples *)

Module Examples.
Import UseParkourGame.

(** A component connected to contract [99] on chain [1] as signer [10]. *)
Definition signer10 : Signer := {| signer_address := 10 |}.

Definition render : Render :=
  {| instance := Some fhevm_instance; chainId := Some 1;
     ethersSigner := Some signer10;
     ethersReadonlyProvider := Some contract_runner;
     parkourGame_address := Some 99; hasCharacter := true |}.

Definition unchanged : Ambient :=
  {| ref_address := Some 99;
     sameChain := fun c => bool_decide (c = Some 1);
     sameSigner := fun s => signer_address s =? 10 |}.

(** The wallet moved to another chain. *)
Definition switched : Ambient :=
  {| ref_address := None;
     sameChain := fun c => bool_decide (c = Some 5);
     sameSigner := fun s => signer_address s =? 10 |}.

Definition session : DecryptionSignature :=
  {| privateKey := "sk"; publicKey := "pk"; signature := "sig";
     contractAddresses := [99]; userAddress := 10;
     startTimestamp := 1000; durationDays := 365 |}.

(** The player's record holds handle [h]; the oracle reads it as [v]. *)
Definition answers (h : bytes32) (known : bool) (v : Z) (before after : Ambient)
  : DecryptEnv :=
  {| de_getAddress := Resolved 10;
     de_getPlayerScore := fun _ => Resolved (h, 100, known);
     de_loadOrSign := Resolved (Some session);
     de_before := before;
     de_userDecrypt := fun h' _ => Resolved [(h', v)];
     de_after := after |}.
End Examples.

(** ** The registry against the mints it accepted *)

Module RegistrySpec.
Import ParkourGame.

(** The senders of the mints of a trace that went through, in order. *)
Definition minted_of (this : address) (w : World) (c : Call) : list address :=
  match c with
  | CallMint a =>
      match snd (exec this w c) with
      | Success => [a]
      | Reverted _ => []
      end
  | CallSubmit _ _ _ => []
  end.

Fixpoint mint_history (this : address) (w : World) (cs : list Call) : list address :=
  match cs with
  | [] => []
  | c :: cs' => minted_of this w c ++ mint_history this (fst (exec this w c)) cs'
  end.

(** The ids of the tokens minted by [a]: the positions of [a] in the
    list of mints, counted from [first]. *)
Fixpoint tokens_minted_by (a : address) (first : Z) (ms : list address) : list Z :=
  match ms with
  | [] => []
  | b :: ms' =>
      if decide (b = a) then first :: tokens_minted_by a (first + 1) ms'
      else tokens_minted_by a (first + 1) ms'
  end.

(** The minter of token [t]. *)
Definition minter_of (ms : list address) (t : Z) : option address :=
  if 0 <? t then ms !! Z.to_nat (t - 1) else None.

(** The registry stands for the mints [ms]. *)
Record RegRepr (w : World) (ms : list address) : Prop := {
  reg_counter : _tokenCounter (storage w) = Z.of_nat (length ms);
  reg_tokens : forall a, tokens_of (storage w) a = tokens_minted_by a 1 ms;
  reg_characters : forall t,
    characters (storage w) !! t
    = (fun a => {| tokenId := t; owner := a; char_exists := true |}) <$> minter_of ms t
}.

(** What a submission leaves alone: the registry. *)
Record submitted_frame (a : Z) (w w' : World) : Prop := {
  sf_counter : _tokenCounter (storage w') = _tokenCounter (storage w);
  sf_characters : characters (storage w') = characters (storage w);
  sf_tokens : ownerTokens (storage w') = ownerTokens (storage w)
}.

(** The players of a list of senders, each at its first occurrence. *)
Definition first_seen (senders : list address) : list address :=
  fold_left (fun seen a => if decide (a ∈ seen) then seen else seen ++ [a]) senders [].

Definition score_event (e : Event) : option (address * uint256) :=
  match e with
  | ScoreSubmitted p t => Some (p, t)
  | _ => None
  end.

Definition mint_event (e : Event) : option (address * uint256) :=
  match e with
  | CharacterMinted a t => Some (a, t)
  | _ => None
  end.

(** What the contract hands to [FHE.allow] for a principal: for each
    accepted submission of a trace, its sender and the handle the record
    of the sender held when the call returned. *)
Definition granted_of (this : address) (w : World) (c : Call) : list (address * bytes32) :=
  match c with
  | CallSubmit a _ _ =>
      match exec this w c with
      | (w', Success) => [(a, encryptedScore (score_of (storage w') a))]
      | (_, Reverted _) => []
      end
  | CallMint _ => []
  end.

Fixpoint own_grants (this : address) (w : World) (cs : list Call)
  : list (address * bytes32) :=
  match cs with
  | [] => []
  | c :: cs' => granted_of this w c ++ own_grants this (fst (exec this w c)) cs'
  end.

(** What the contract hands to [FHE.allowThis] as the max: for each
    accepted submission, the max handle when the call returned. *)
Definition maxed_of (this : address) (w : World) (c : Call) : list bytes32 :=
  match c with
  | CallSubmit _ _ _ =>
      match exec this w c with
      | (w', Success) => [_maxEncryptedScore (storage w')]
      | (_, Reverted _) => []
      end
  | CallMint _ => []
  end.

Fixpoint max_grants (this : address) (w : World) (cs : list Call) : list bytes32 :=
  match cs with
  | [] => []
  | c :: cs' => maxed_of this w c ++ max_grants this (fst (exec this w c)) cs'
  end.

(** The grant set stands for the handles [own] given to their senders
    and the max handles [maxes]: a principal holds a grant on a handle
    exactly when the handle was given to it as its own, or it is the
    contract and the handle was given to a sender or was a max. *)
Record GrantRepr (this : Z) (w : World) (hist : list Submission)
    (own : list (address * bytes32)) (maxes : list bytes32) : Prop := {
  gr_acl : forall h q,
    (h, q) ∈ FHE.acl (fhe w)
    <-> (q, h) ∈ own \/ (q = this /\ (h ∈ map snd own \/ h ∈ maxes));
  gr_own : forall p,
    exists_ (score_of (storage w) p) = true ->
    (p, encryptedScore (score_of (storage w) p)) ∈ own;
  gr_max : hist <> [] -> _maxEncryptedScore (storage w) ∈ maxes;
  gr_senders : map fst own = map sub_sender hist
}.

(** The events a trace should leave: one for each mint, with the token
    ids counted from 1, and one for each accepted submission. *)
Definition minted_events (ms : list address) : list (address * uint256) :=
  imap (fun i a => (a, Z.of_nat i + 1)) ms.

Definition submitted_events (hist : list Submission) : list (address * uint256) :=
  map (fun s => (sub_sender s, sub_time s)) hist.

(** [msg.sender] of a call. *)
Definition sender_of (c : Call) : address :=
  match c with
  | CallMint a => a
  | CallSubmit a _ _ => a
  end.

(** A principal that never submitted reads as the zero value of the
    mapping. *)
Record RecordsRepr (w : World) (hist : list Submission) : Prop := {
  rr_none : forall p, by_sender p hist = [] -> score_of (storage w) p = zero_PlayerScore
}.

(** The log stands for the mints [ms] and the submissions [hist]. *)
Record EventsRepr (w : World) (hist : list Submission) (ms : list address) : Prop := {
  er_mints : omap mint_event (events w) = minted_events ms;
  er_scores : omap score_event (events w) = submitted_events hist;
  er_no_rank : forall p r, LeaderboardUpdated p r ∉ events w;
  er_length : length (events w) = (length ms + length hist)%nat
}.

End RegistrySpec.

(** ** The pipelines against the ledger *)

Module PipelineSpec.
Import UseParkourGame.

Definition is_send (e : Effect) : bool :=
  match e with SendSubmitScore _ _ => true | _ => false end.

(** The transactions sent in a log. *)
Definition sends (l : list Effect) : list Effect :=
  filter (fun e => is_send e = true) l.

Definition is_read (e : Effect) : bool :=
  match e with GetLeaderboard | GetPlayerScore _ => true | _ => false end.

(** The reads of the contract in a log. *)
Definition reads (l : list Effect) : list Effect :=
  filter (fun e => is_read e = true) l.

(** Modelled from the spec: the decryption oracle, [userDecrypt]; it
    answers with the plaintext of every handle asked for, and fails with
    [DecryptionDenied] if the calling identity lacks a grant for one of
    them. *)
Definition userDecrypt (st : FHE.state) (user : address) (handles : list bytes32)
  : Fallible (list (bytes32 * Z)) :=
  if forallb (fun h => FHE.isAllowed st h user) handles
  then Resolved (map (fun h => (h, FHE.decrypt32 st h)) handles)
  else Rejected "DecryptionDenied".

(** The ledger and the oracle as a decryption reads them at one state of
    the world: the contract is read through [runner], the
    [ethersReadonlyProvider] of the render, and a contract without a
    runner rejects the read; the signer has address [user] and the
    authorization ceremony gave [sig]. *)
Definition decrypt_reading (w : ParkourGame.World) (runner : option ContractRunner)
    (user : address) (sig : option DecryptionSignature) (before after : Ambient)
  : DecryptEnv :=
  {| de_getAddress := Resolved user;
     de_getPlayerScore :=
       fun p =>
         match runner with
         | Some _ => Resolved (ParkourGame.getPlayerScore (ParkourGame.storage w) p)
         | None => Rejected "contract runner does not support calling"
         end;
     de_loadOrSign := Resolved sig;
     de_before := before;
     de_userDecrypt :=
       fun h sig => userDecrypt (ParkourGame.fhe w) (userAddress sig) [h];
     de_after := after |}.

(** The row the hook makes of the answer to [getPlayerScore p]. *)
Definition answered (env : FetchEnv) (p : address) : option ScoreRow :=
  match fe_getPlayerScore env p with
  | Resolved r => Some {| player := p; encryptedScore := fst (fst r);
                          timestamp := snd (fst r); exists_ := snd r |}
  | Rejected _ => None
  end.

End PipelineSpec.

(** ** The deployment the frontend talks to *)

Module Deployments.

(** An entry of the table [ParkourGameAddresses]; a field that is
    [undefined] is [None]. *)
Record AddressEntry := mk_AddressEntry {
  entry_address : option string;
  entry_chainId : option Z;
  entry_chainName : option string
}.

Inductive ABI := ParkourGameABI_abi.

(** [ParkourGameInfoType]. *)
Record ParkourGameInfo := mk_ParkourGameInfo {
  abi : ABI;
  address : option string;
  chainId : option Z;
  chainName : option string
}.

(** [ethers.ZeroAddress]. *)
Definition ZeroAddress : string := "0x0000000000000000000000000000000000000000".

(** Truthiness of a string that may be [undefined]: the defined,
    non-empty ones. *)
Definition truthy (s : option string) : bool :=
  match s with
  | Some s' => negb (String.eqb s' EmptyString)
  | None => false
  end.

(** [s === v] for a string [s] that may be [undefined]. *)
Definition is_string (s : option string) (v : string) : bool :=
  match s with
  | Some s' => String.eqb s' v
  | None => false
  end.

Definition is_undefined {A} (x : option A) : bool :=
  match x with Some _ => false | None => true end.

(** The table as generated for this repository. *)
Definition ParkourGameAddresses : gmap string AddressEntry :=
  {[ "31337" := {| entry_address := None; entry_chainId := Some 31337;
                   entry_chainName := Some "Localhost" |};
     "11155111" := {| entry_address := Some "0xE282329C84fe2fAeA688D0f40C00210A35df00bB";
                      entry_chainId := Some 11155111;
                      entry_chainName := Some "Sepolia" |} ]}.

(** An address the frontend takes for a deployment. *)
Definition valid_address (a : string) : Prop :=
  a <> EmptyString /\ a <> ZeroAddress.

(** [Number.MAX_SAFE_INTEGER]. *)
Definition MAX_SAFE_INTEGER : Z := 2 ^ 53 - 1.

(** The chain ids the lookup is modelled for: the integers a JavaScript
    number holds exactly. *)
Definition safe_integer (n : Z) : Prop := Z.abs n <= MAX_SAFE_INTEGER.

(** [chainId.toString()] on a safe integer: its decimal digits. Beyond
    the safe integers a number prints the shortest digits that identify
    it, in exponent form from 10^21; the model does not cover them. *)
Definition Number_toString (n : Z) : string := pretty n.

(** The warning of the memo [parkourGame]. *)
Definition not_found (n : Z) (name : option string) : string :=
  "ParkourGame deployment not found for chainId=" +:+ Number_toString n +:+
  (match name with
   | Some name =>
       if negb (String.eqb name EmptyString) then " (" +:+ name +:+ ")"
       else EmptyString
   | None => EmptyString
   end) +:+ ".".

(** [getParkourGameByChainId], over the table it reads. *)
Definition getParkourGameByChainId (table : gmap string AddressEntry)
    (chainId : option Z) : ParkourGameInfo :=
  let only_abi := {| abi := ParkourGameABI_abi; address := None; chainId := None;
                     chainName := None |} in
  match chainId with
  | None => only_abi
  | Some n =>
      if n =? 0 then only_abi
      else
        match table !! Number_toString n with
        | Some entry =>
            if negb (truthy (entry_address entry))
               || is_string (entry_address entry) ZeroAddress
               || is_undefined (entry_address entry)
            then {| abi := ParkourGameABI_abi; address := None; chainId := Some n;
                    chainName := entry_chainName entry |}
            else if truthy (entry_address entry)
                    && negb (is_string (entry_address entry) ZeroAddress)
            then {| abi := ParkourGameABI_abi; address := entry_address entry;
                    chainId := Some (default n (entry_chainId entry));
                    chainName := entry_chainName entry |}
            else only_abi
        | None => only_abi
        end
  end.

(** The memo [isDeployed]; [None] is [undefined]. *)
Definition isDeployed (parkourGame : ParkourGameInfo) (chainId : option Z) : option bool :=
  if is_undefined chainId || is_undefined (Deployments.chainId parkourGame) then None
  else Some (truthy (address parkourGame)
             && negb (is_string (address parkourGame) ZeroAddress)).

(** The message the memo [parkourGame] leaves, from the message before. *)
Definition parkourGame_message (chainId : option Z) (c : ParkourGameInfo)
    (message : string) : string :=
  match chainId with
  | Some n =>
      if bool_decide (Deployments.chainId c = Some n) && negb (truthy (address c)) then
        not_found n (chainName c)
      else if truthy (address c) then EmptyString else message
  | None => if truthy (address c) then EmptyString else message
  end.

End Deployments.

(** ** The character of the player, as the hook keeps it *)

Module CharacterHook.
Import UseParkourGame.

(** The [useState] cells about the character, and the message. *)
Record State := mk_State {
  hasCharacter : bool;
  characterTokenId : option Z;
  isMinting : bool;
  message : string
}.

(** What [checkCharacter] and [mintCharacter] close over at the render
    that created them. *)
Record Closure := mk_Closure {
  parkourGame_address : option address;
  ethersReadonlyProvider : option ContractRunner;
  ethersSigner : option Signer;
  seen_isMinting : bool
}.

Inductive Effect :=
| GetAddress
| HasCharacter (player : address)
| SendMintCharacter
| WaitReceipt.

Record Cell := mk_Cell { state : State; log : list Effect }.

Definition perform (e : Effect) (c : Cell) : Cell :=
  {| state := state c; log := log c ++ [e] |}.

Definition setHasCharacter (v : bool) (c : Cell) : Cell :=
  {| state := {| hasCharacter := v; characterTokenId := characterTokenId (state c);
                 isMinting := isMinting (state c); message := message (state c) |};
     log := log c |}.

Definition setCharacterTokenId (v : option Z) (c : Cell) : Cell :=
  {| state := {| hasCharacter := hasCharacter (state c); characterTokenId := v;
                 isMinting := isMinting (state c); message := message (state c) |};
     log := log c |}.

Definition setIsMinting (v : bool) (c : Cell) : Cell :=
  {| state := {| hasCharacter := hasCharacter (state c);
                 characterTokenId := characterTokenId (state c);
                 isMinting := v; message := message (state c) |};
     log := log c |}.

Definition setMessage (v : string) (c : Cell) : Cell :=
  {| state := {| hasCharacter := hasCharacter (state c);
                 characterTokenId := characterTokenId (state c);
                 isMinting := isMinting (state c); message := v |};
     log := log c |}.

(** The answers the awaited calls of one check give. *)
Record CheckEnv := mk_CheckEnv {
  ce_getAddress : Fallible address;
  ce_hasCharacter : address -> Fallible (bool * Z)
}.

(** [checkCharacter]: it catches what it awaits, so it always returns. *)
Definition checkCharacter (r : Closure) (env : CheckEnv) (c : Cell) : Cell :=
  match parkourGame_address r, ethersReadonlyProvider r, ethersSigner r with
  | Some _, Some _, Some _ =>
      let c := perform GetAddress c in
      match ce_getAddress env with
      | Resolved userAddress =>
          let c := perform (HasCharacter userAddress) c in
          match ce_hasCharacter env userAddress with
          | Resolved (hasChar, tokenId) =>
              setCharacterTokenId (if tokenId =? 0 then None else Some tokenId)
                (setHasCharacter hasChar c)
          | Rejected _ => setHasCharacter false c
          end
      | Rejected _ => setHasCharacter false c
      end
  | _, _, _ => setHasCharacter false c
  end.

Record MintEnv := mk_MintEnv {
  me_send : Fallible string;
  me_wait : Fallible unit;
  me_check : CheckEnv
}.

(** [mintCharacter]: the body of the [try] gives the cell it reached and
    the message of the error it threw, if any. *)
Definition mintCharacter (r : Closure) (env : MintEnv) (c : Cell) : Cell :=
  match seen_isMinting r, parkourGame_address r, ethersSigner r with
  | false, Some _, Some _ =>
      let c := setMessage "Minting character..." (setIsMinting true c) in
      let '(c, thrown) :=
        let c := perform SendMintCharacter c in
        match me_send env with
        | Resolved hash =>
            let c := setMessage ("Transaction sent: " +:+ hash) c in
            let c := perform WaitReceipt c in
            match me_wait env with
            | Resolved _ =>
                let c := setMessage "Character minted successfully!" c in
                (checkCharacter r (me_check env) c, None)
            | Rejected error_message => (c, Some error_message)
            end
        | Rejected error_message => (c, Some error_message)
        end in
      let c := match thrown with
               | Some error_message => setMessage ("Mint failed: " +:+ error_message) c
               | None => c
               end in
      setIsMinting false c
  | _, _, _ => c
  end.

(** The registry as the hook reads it at one state of the world, for a
    signer of address [user]. *)
Definition check_reading (w : ParkourGame.World) (user : address) : CheckEnv :=
  {| ce_getAddress := Resolved user;
     ce_hasCharacter :=
       fun p => Resolved (ParkourGame.hasCharacter (ParkourGame.storage w) p) |}.

(** The chain as a mint of the hook meets it: the transaction is the
    call of the contract by [user], rejected when the call reverts, and
    the check that follows reads the world the call left. *)
Definition mint_reading (this : address) (w : ParkourGame.World) (user : address)
    (hash : string) : MintEnv :=
  let '(w', receipt) := ParkourGame.exec this w (ParkourGame.CallMint user) in
  {| me_send := match receipt with
                | ParkourGame.Success => Resolved hash
                | ParkourGame.Reverted _ => Rejected "execution reverted"
                end;
     me_wait := Resolved tt;
     me_check := check_reading w' user |}.

(** The render of [useParkourGame] that follows a check: its callbacks
    close over the [hasCharacter] the check left. *)
Definition render_after (r : Closure) (inst : option FhevmInstance) (chain : option Z)
    (st : State) : Render :=
  {| instance := inst; chainId := chain; UseParkourGame.ethersSigner := ethersSigner r;
     UseParkourGame.ethersReadonlyProvider := ethersReadonlyProvider r;
     UseParkourGame.parkourGame_address := parkourGame_address r;
     UseParkourGame.hasCharacter := hasCharacter st |}.

End CharacterHook.

(** ** Wallet discovery *)

Module Eip6963.

Record Eip6963ProviderInfo := mk_Eip6963ProviderInfo {
  uuid : string;
  name : string;
  icon : string;
  rdns : string
}.

(** The [provider] of a detail is an object; it is kept by its identity. *)
Record Eip6963ProviderDetail := mk_Eip6963ProviderDetail {
  info : Eip6963ProviderInfo;
  provider : Z
}.

Definition uuid_of (p : Eip6963ProviderDetail) : string := uuid (info p).

(** The update [handleAnnounceProvider] hands to [setProviders]. *)
Definition handleAnnounceProvider (detail : Eip6963ProviderDetail)
    (prev : list Eip6963ProviderDetail) : list Eip6963ProviderDetail :=
  let exists_ := existsb (fun p => String.eqb (uuid (info p)) (uuid (info detail))) prev in
  if exists_ then prev else prev ++ [detail].

(** The providers after the announcements [events], from the initial
    empty list. *)
Definition providers_after (events : list Eip6963ProviderDetail)
  : list Eip6963ProviderDetail :=
  fold_left (fun prev detail => handleAnnounceProvider detail prev) events [].

End Eip6963.

(** ** The generator of the table of deployments *)

Module Genabi.

Definition NETWORK_CHAIN_IDS : list (string * Z) :=
  [("hardhat", 31337); ("anvil", 31337); ("localhost", 31337); ("sepolia", 11155111)].

Definition NETWORK_NAMES : list (string * string) :=
  [("hardhat", "Localhost"); ("anvil", "Localhost"); ("localhost", "Localhost");
   ("sepolia", "Sepolia")].

(** What [readDeployment] keeps of a deployment file; a field the file
    lacks is [undefined]. *)
Record DeploymentInfo := mk_DeploymentInfo {
  address : option string;
  abi : list string;
  transactionHash : option string
}.

Record AddressEntry := mk_AddressEntry {
  entry_address : option string;
  entry_chainId : Z;
  entry_chainName : option string
}.

(** [object[key]] on an object kept as the list of its entries, in the
    order the keys were set. *)
Fixpoint get {A} (object : list (string * A)) (key : string) : option A :=
  match object with
  | [] => None
  | (k, v) :: rest => if String.eqb k key then Some v else get rest key
  end.

Definition truthy (s : option string) : bool :=
  match s with
  | Some s' => negb (String.eqb s' EmptyString)
  | None => false
  end.

(** The body shared by the two loops: the entry of a chain id is set
    once, by the first network that reaches it. *)
Definition add_entry (deployments : gmap string DeploymentInfo) (network : string)
    (chainId : Z) (addresses : list (string * AddressEntry))
  : list (string * AddressEntry) :=
  let chainIdStr := pretty chainId in
  match get addresses chainIdStr with
  | Some _ => addresses
  | None =>
      let deployment := deployments !! network in
      addresses ++ [(chainIdStr,
                     {| entry_address := deployment ≫= address;
                        entry_chainId := chainId;
                        entry_chainName := get NETWORK_NAMES network |})]
  end.

Definition networkPriority : list string := ["localhost"; "hardhat"; "anvil"; "sepolia"].

(** The object [addresses] after the two loops of [generateAddressesFile]. *)
Definition addresses_of (deployments : gmap string DeploymentInfo)
  : list (string * AddressEntry) :=
  let addresses :=
    fold_left
      (fun addresses network =>
         match get NETWORK_CHAIN_IDS network with
         | Some chainId =>
             if chainId =? 0 then addresses
             else add_entry deployments network chainId addresses
         | None => addresses
         end)
      networkPriority [] in
  fold_left
    (fun addresses entry => add_entry deployments (fst entry) (snd entry) addresses)
    NETWORK_CHAIN_IDS addresses.

Definition quote : string := String (Ascii.ascii_of_nat 34) EmptyString.
Definition newline : string := String (Ascii.ascii_of_nat 10) EmptyString.

Definition or_unknown (name : option string) : string :=
  if truthy name then default EmptyString name else "Unknown".

(** One entry of the table, as the template prints it. *)
Definition print_entry (entry : string * AddressEntry) : string :=
  let '(chainId, entry) := entry in
  "  " +:+ quote +:+ chainId +:+ quote +:+ ": {" +:+ newline +:+
  "    // " +:+ or_unknown (entry_chainName entry) +:+ " deployment" +:+ newline +:+
  "    address: " +:+
    (if truthy (entry_address entry)
     then quote +:+ default EmptyString (entry_address entry) +:+ quote
     else "undefined") +:+
    ", // " +:+
    (if truthy (entry_address entry) then EmptyString else "Not deployed yet") +:+ newline +:+
  "    chainId: " +:+ pretty (entry_chainId entry) +:+ "," +:+ newline +:+
  "    chainName: " +:+ quote +:+ or_unknown (entry_chainName entry) +:+ quote +:+ "," +:+
    newline +:+
  "  },".

(** [generateAddressesFile]: the text of [ParkourGameAddresses.ts]. The
    keys of [addresses] are chain ids, which an object lists in
    ascending order. *)
Definition generateAddressesFile (deployments : gmap string DeploymentInfo) : string :=
  "// Auto-generated file - do not edit manually" +:+ newline +:+
  "// This file is generated from deployment information" +:+ newline +:+
  "export const ParkourGameAddresses: Record<" +:+ newline +:+
  "  string," +:+ newline +:+
  "  { address?: `0x${string}`; chainId: number; chainName?: string }" +:+ newline +:+
  "> = {" +:+ newline +:+
  String.concat newline (map print_entry (addresses_of deployments)) +:+ newline +:+
  "};" +:+ newline.

(** The text of [ParkourGameAddresses.ts] in this repository. *)
Definition ParkourGameAddresses_ts : string :=
  String.concat newline
    [ "// Auto-generated file - do not edit manually";
      "// This file is generated from deployment information";
      "export const ParkourGameAddresses: Record<";
      "  string,";
      "  { address?: `0x${string}`; chainId: number; chainName?: string }";
      "> = {";
      "  " +:+ quote +:+ "31337" +:+ quote +:+ ": {";
      "    // Localhost deployment";
      "    address: undefined, // Not deployed yet";
      "    chainId: 31337,";
      "    chainName: " +:+ quote +:+ "Localhost" +:+ quote +:+ ",";
      "  },";
      "  " +:+ quote +:+ "11155111" +:+ quote +:+ ": {";
      "    // Sepolia deployment";
      "    address: " +:+ quote +:+ "0xE282329C84fe2fAeA688D0f40C00210A35df00bB" +:+ quote +:+
        ", // ";
      "    chainId: 11155111,";
      "    chainName: " +:+ quote +:+ "Sepolia" +:+ quote +:+ ",";
      "  },";
      "};";
      EmptyString ].

(** The table a generated file holds, as the frontend reads it. *)
Definition table_of (addresses : list (string * AddressEntry))
  : gmap string Deployments.AddressEntry :=
  list_to_map
    (map (fun entry =>
            (fst entry,
             {| Deployments.entry_address :=
                  if truthy (entry_address (snd entry)) then entry_address (snd entry)
                  else None;
                Deployments.entry_chainId := Some (entry_chainId (snd entry));
                Deployments.entry_chainName := Some (or_unknown (entry_chainName (snd entry))) |}))
       addresses).

End Genabi.

(** * Properties *)

(** ** The co-processor: handles issued stay what they are *)

Module FHEFacts.
Import FHE.

Lemma lookup_pos st h c : lookup st h = Some c -> 0 < h.
Proof. unfold lookup. destruct (Z.leb_spec h 0); [discriminate | lia]. Qed.

Lemma lookup_lt st h c : lookup st h = Some c -> h < next_handle st.
Proof.
  unfold lookup, next_handle. destruct (Z.leb_spec h 0) as [|Hh]; [discriminate |].
  intros Hl%lookup_lt_Some. lia.
Qed.

Lemma lookup_alloc_old st c h v :
  lookup st h = Some v -> lookup (snd (alloc c st)) h = Some v.
Proof.
  unfold lookup, alloc. simpl. destruct (h <=? 0); [discriminate |].
  intros H. by rewrite lookup_app_l_Some with (x := v).
Qed.

Lemma lookup_alloc_new st c : lookup (snd (alloc c st)) (fst (alloc c st)) = Some c.
Proof.
  unfold lookup, alloc, next_handle. simpl.
  destruct (Z.leb_spec (Z.of_nat (S (length (store st)))) 0); [lia |].
  replace (Z.to_nat (Z.of_nat (S (length (store st))) - 1)) with (length (store st)) by lia.
  by rewrite list_lookup_middle.
Qed.

Lemma lookup_allow st h who k : lookup (allow h who st) k = lookup st k.
Proof. reflexivity. Qed.

Lemma decrypt32_lookup st h v : lookup st h = Some (VU32 v) -> decrypt32 st h = v.
Proof. unfold decrypt32. by intros ->. Qed.

Lemma decryptBool_lookup st h b : lookup st h = Some (VBool b) -> decryptBool st h = b.
Proof. unfold decryptBool. by intros ->. Qed.

(** [select (gt a b) a b] holds the greater of the two plaintexts. *)
Lemma select_gt_max st a b x y :
  lookup st a = Some (VU32 x) -> lookup st b = Some (VU32 y) ->
  let '(c, st1) := gt a b st in
  let '(r, st2) := select c a b st1 in
  lookup st2 r = Some (VU32 (Z.max y x))
  /\ acl st2 = acl st
  /\ (forall h v, lookup st h = Some v -> lookup st2 h = Some v).
Proof.
  intros Ha Hb. unfold gt, select.
  destruct (alloc (VBool (decrypt32 st b <? decrypt32 st a)) st) as [c st1] eqn:E1.
  destruct (alloc _ st1) as [r st2] eqn:E2.
  assert (Hc : lookup st1 c = Some (VBool (y <? x))).
  { pose proof (lookup_alloc_new st (VBool (decrypt32 st b <? decrypt32 st a))) as H.
    rewrite E1 in H. simpl in H.
    by rewrite (decrypt32_lookup _ _ _ Ha), (decrypt32_lookup _ _ _ Hb) in H. }
  assert (Hold : forall h v, lookup st h = Some v -> lookup st1 h = Some v).
  { intros h v H. pose proof (lookup_alloc_old st (VBool (decrypt32 st b <? decrypt32 st a)) h v H) as H'.
    by rewrite E1 in H'. }
  pose proof (lookup_alloc_new st1
    (VU32 (if decryptBool st1 c then decrypt32 st1 a else decrypt32 st1 b))) as Hr.
  rewrite E2 in Hr. simpl in Hr.
  rewrite (decryptBool_lookup _ _ _ Hc) in Hr.
  rewrite (decrypt32_lookup _ _ _ (Hold _ _ Ha)) in Hr.
  rewrite (decrypt32_lookup _ _ _ (Hold _ _ Hb)) in Hr.
  split; [| split].
  - rewrite Hr. f_equal. f_equal. destruct (Z.ltb_spec y x); lia.
  - inversion E1; subst. inversion E2; subst. reflexivity.
  - intros h v H. pose proof (lookup_alloc_old st1
      (VU32 (if decryptBool st1 c then decrypt32 st1 a else decrypt32 st1 b)) h v (Hold _ _ H)) as H'.
    by rewrite E2 in H'.
Qed.

End FHEFacts.

(** ** The ledger: what one call does *)

Module LedgerFacts.
Import ParkourGame LedgerSpec.

Lemma returns_Ok {A} (m : Tx A) Q w :
  returns m Q w -> exists a w', m w = Ok (a, w') /\ Q a w'.
Proof. unfold returns. destruct (m w) as [[a w']|]; [eauto | done]. Qed.

Lemma returns_bind {A B} (m : Tx A) (k : A -> Tx B) Q w :
  returns m (fun a w' => returns (k a) Q w') w -> returns (bind m k) Q w.
Proof. unfold returns, bind. by destruct (m w) as [[a w']|]. Qed.

Lemma returns_ret {A} (a : A) (Q : A -> World -> Prop) w : Q a w -> returns (ret a) Q w.
Proof. done. Qed.

Lemma returns_sload {A} (f : Storage -> A) (Q : A -> World -> Prop) w :
  Q (f (storage w)) w -> returns (sload f) Q w.
Proof. done. Qed.

Lemma returns_sstore f (Q : unit -> World -> Prop) w :
  Q tt {| storage := f (storage w); fhe := fhe w; events := events w |} ->
  returns (sstore f) Q w.
Proof. done. Qed.

Lemma returns_emit e (Q : unit -> World -> Prop) w :
  Q tt {| storage := storage w; fhe := fhe w; events := events w ++ [e] |} ->
  returns (emit e) Q w.
Proof. done. Qed.

Lemma returns_fhe_call {A} (op : FHE.state -> A * FHE.state) (Q : A -> World -> Prop) w :
  (forall a f, op (fhe w) = (a, f) ->
     Q a {| storage := storage w; fhe := f; events := events w |}) ->
  returns (fhe_call op) Q w.
Proof.
  intros H. unfold returns, fhe_call. destruct (op (fhe w)) as [a f] eqn:E. by apply H.
Qed.

Lemma returns_fhe_allow h who (Q : unit -> World -> Prop) w :
  Q tt {| storage := storage w; fhe := FHE.allow h who (fhe w); events := events w |} ->
  returns (fhe_allow h who) Q w.
Proof. done. Qed.

Lemma returns_fromExternal i (Q : bytes32 -> World -> Prop) w :
  FHE.proof_ok i = true ->
  (forall h f, FHE.alloc (FHE.VU32 (FHE.plain_of i)) (fhe w) = (h, f) ->
     Q h {| storage := storage w; fhe := f; events := events w |}) ->
  returns (fhe_fromExternal i) Q w.
Proof.
  intros Hp H. unfold returns, fhe_fromExternal, FHE.fromExternal. rewrite Hp.
  destruct (FHE.alloc _ _) as [h f] eqn:E. by apply H.
Qed.

Lemma returns_require b reason (Q : unit -> World -> Prop) w :
  b = true -> Q tt w -> returns (require b reason) Q w.
Proof. by intros ->. Qed.

Ltac tx_step :=
  lazymatch goal with
  | |- returns (bind _ _) _ _ => apply returns_bind
  | |- returns (sload _) _ _ => apply returns_sload
  | |- returns (sstore _) _ _ => apply returns_sstore
  | |- returns (emit _) _ _ => apply returns_emit
  | |- returns (fhe_allow _ _) _ _ => apply returns_fhe_allow
  | |- returns (ret _) _ _ => apply returns_ret
  end;
  cbn [storage fhe events].

Ltac tx_call c f E :=
  repeat tx_step; apply returns_fhe_call; intros c f E; cbn [storage fhe events] in *.

Lemma submitScore_not_eligible this a t i w :
  tokens_of (storage w) a = [] -> submitScore this a t i w = Revert NotEligible.
Proof.
  intros H. unfold submitScore, bind, sload, require. simpl. by rewrite H.
Qed.

Lemma submitScore_invalid_proof this a t i w :
  tokens_of (storage w) a <> [] -> FHE.proof_ok i = false ->
  submitScore this a t i w = Revert InvalidProof.
Proof.
  intros H Hp. unfold submitScore, bind, sload, require, fhe_fromExternal, FHE.fromExternal.
  simpl. destruct (tokens_of (storage w) a); [done |]. simpl. by rewrite Hp.
Qed.

Lemma score_of_set_playerScore a p ps s :
  score_of (set_playerScore a ps s) p = if decide (a = p) then ps else score_of s p.
Proof.
  unfold score_of, set_playerScore. simpl. rewrite lookup_insert.
  by destruct (decide (a = p)).
Qed.

Lemma score_of_other_fields s p :
  (forall h, score_of (set_maxEncryptedScore h s) p = score_of s p)
  /\ (forall b, score_of (set_topPlayer b s) p = score_of s p)
  /\ (forall b, score_of (set_hasTopPlayer b s) p = score_of s p)
  /\ (forall b, score_of (push_player b s) p = score_of s p).
Proof. done. Qed.

Ltac score_simpl :=
  unfold set_timestamp, set_encryptedScore;
  repeat first
    [ rewrite score_of_set_playerScore
    | rewrite (proj1 (score_of_other_fields _ _))
    | rewrite (proj1 (proj2 (score_of_other_fields _ _)))
    | rewrite (proj1 (proj2 (proj2 (score_of_other_fields _ _))))
    | rewrite (proj2 (proj2 (proj2 (score_of_other_fields _ _))))
    | rewrite decide_True by congruence
    | rewrite decide_False by congruence
    | progress cbn [encryptedScore timestamp exists_] ].

Lemma submitScore_effects this a t i w :
  tokens_of (storage w) a <> [] -> FHE.proof_ok i = true ->
  (exists_ (score_of (storage w) a) = true ->
     exists x, FHE.lookup (fhe w) (encryptedScore (score_of (storage w) a)) = Some (FHE.VU32 x)) ->
  (_hasTopPlayer (storage w) = true ->
     exists m, FHE.lookup (fhe w) (_maxEncryptedScore (storage w)) = Some (FHE.VU32 m)) ->
  (exists_ (score_of (storage w) a) = true -> _hasTopPlayer (storage w) = true) ->
  returns (submitScore this a t i) (fun _ w' => submitted this a t i w w') w.
Proof.
  intros Htok Hproof Hscore Hmax Htop.
  unfold submitScore. tx_step. tx_step. tx_step.
  apply returns_require; [destruct (tokens_of (storage w) a); [done | reflexivity] |].
  tx_step. apply returns_fromExternal; [done |]. intros e f1 E1. cbn [storage fhe events].
  assert (He : FHE.lookup f1 e = Some (FHE.VU32 (FHE.plain_of i))).
  { pose proof (FHEFacts.lookup_alloc_new (fhe w) (FHE.VU32 (FHE.plain_of i))) as H.
    by rewrite E1 in H. }
  assert (Hold : forall h v, FHE.lookup (fhe w) h = Some v -> FHE.lookup f1 h = Some v).
  { intros h v H.
    pose proof (FHEFacts.lookup_alloc_old (fhe w) (FHE.VU32 (FHE.plain_of i)) h v H) as H'.
    by rewrite E1 in H'. }
  assert (Hacl1 : FHE.acl f1 = FHE.acl (fhe w)) by (by inversion E1).
  tx_step. tx_step. tx_step.
  destruct (exists_ (score_of (storage w) a)) eqn:Ex; cbn [negb].
  - (* the player has a score *)
    destruct (Hscore eq_refl) as [x Hx]. destruct (Hmax (Htop eq_refl)) as [m Hm].
    tx_call c1 f2 G1. tx_call r1 f3 S1.
    pose proof (FHEFacts.select_gt_max f1 e _ _ _ He (Hold _ _ Hx)) as P1.
    rewrite G1, S1 in P1. destruct P1 as (Hr1 & Hacl3 & Hold3).
    tx_call c2 f4 G2. tx_call r2 f5 S2.
    pose proof (FHEFacts.select_gt_max f3 e _ _ _ (Hold3 _ _ He) (Hold3 _ _ (Hold _ _ Hm))) as P2.
    cbn [_maxEncryptedScore set_encryptedScore set_playerScore] in G2, S2.
    rewrite G2, S2 in P2. destruct P2 as (Hr2 & Hacl5 & Hold5).
    repeat tx_step.
    split; cbn [storage fhe events]; rewrite ?FHEFacts.lookup_allow, ?Ex.
    all: try (score_simpl; simpl; rewrite ?(Htop eq_refl); done).
    + intros p Hp. score_simpl. done.
    + score_simpl. rewrite (Hold5 _ _ Hr1). unfold decrypt_score.
      by rewrite (FHEFacts.decrypt32_lookup _ _ _ Hx).
    + simpl. rewrite Hr2, (Htop eq_refl).
      unfold decrypt_max. by rewrite (FHEFacts.decrypt32_lookup _ _ _ Hm).
    + intros h v H. rewrite !FHEFacts.lookup_allow. auto.
    + score_simpl. simpl. by rewrite Hacl5, Hacl3, Hacl1.
  - (* first score of the player *)
    repeat tx_step. cbn [_hasTopPlayer push_player set_playerScore].
    destruct (_hasTopPlayer (storage w)) eqn:Et; cbn [negb].
    + destruct (Hmax eq_refl) as [m Hm].
      tx_call c2 f2 G2. tx_call r2 f3 S2.
      pose proof (FHEFacts.select_gt_max f1 e _ _ _ He (Hold _ _ Hm)) as P2.
      cbn [_maxEncryptedScore push_player set_playerScore] in G2, S2.
      rewrite G2, S2 in P2. destruct P2 as (Hr2 & Hacl3 & Hold3).
      repeat tx_step.
      split; cbn [storage fhe events]; rewrite ?FHEFacts.lookup_allow, ?Ex, ?Et.
      all: try (score_simpl; simpl; done).
      * intros p Hp. score_simpl. done.
      * score_simpl. auto.
      * simpl. rewrite Hr2. unfold decrypt_max.
        by rewrite (FHEFacts.decrypt32_lookup _ _ _ Hm).
      * intros h v H. rewrite !FHEFacts.lookup_allow. auto.
      * score_simpl. simpl. by rewrite Hacl3, Hacl1.
    + repeat tx_step.
      split; cbn [storage fhe events]; rewrite ?FHEFacts.lookup_allow, ?Ex, ?Et.
      all: try (score_simpl; simpl; done).
      * intros p Hp. score_simpl. done.
      * score_simpl. simpl. by rewrite Hacl1.
Qed.

(** Minting touches the registry only. *)
Lemma mint_preserves a w :
  let w' := fst (transact (mintCharacter a) w) in
  playerScores (storage w') = playerScores (storage w)
  /\ _players (storage w') = _players (storage w)
  /\ _maxEncryptedScore (storage w') = _maxEncryptedScore (storage w)
  /\ _topPlayer (storage w') = _topPlayer (storage w)
  /\ _hasTopPlayer (storage w') = _hasTopPlayer (storage w)
  /\ fhe w' = fhe w.
Proof.
  unfold transact, mintCharacter, bind, sload, lift, checked_add. simpl.
  destruct (_ <=? _); simpl; done.
Qed.

Lemma is_max_singleton v : is_max v [v].
Proof. split; [set_solver | by repeat constructor]. Qed.

Lemma is_max_snoc m l v : is_max m l -> is_max (Z.max m v) (l ++ [v]).
Proof.
  intros [Hin Hall]. split.
  - destruct (Z.max_spec m v) as [[_ ->]|[_ ->]]; set_solver.
  - apply Forall_app. split.
    + eapply Forall_impl; [exact Hall |]. simpl. lia.
    + repeat constructor. lia.
Qed.

Lemma is_max_unique m m' l : is_max m l -> is_max m' l -> m = m'.
Proof.
  intros [Hin Hall] [Hin' Hall']. rewrite Forall_forall in Hall, Hall'.
  specialize (Hall _ Hin'). specialize (Hall' _ Hin). lia.
Qed.

Lemma is_max_Permutation m l l' : l ≡ₚ l' -> is_max m l -> is_max m l'.
Proof. intros HP [Hin Hall]. split; by rewrite <- HP. Qed.

Lemma by_sender_snoc p h s :
  by_sender p (h ++ [s]) =
  if decide (sub_sender s = p) then by_sender p h ++ [s] else by_sender p h.
Proof.
  unfold by_sender. rewrite filter_app, filter_cons, filter_nil.
  destruct (decide (sub_sender s = p)); [done | by rewrite app_nil_r].
Qed.

End LedgerFacts.

(** ** The ledger against the submissions it accepted *)

Module LedgerInvariant.
Import ParkourGame LedgerSpec LedgerFacts.

Lemma Repr_init this : Repr this init [].
Proof.
  split; try done.
  - intros p. simpl. split; [set_solver | done].
  - constructor.
Qed.

Lemma Repr_exists this w hist p :
  Repr this w hist -> exists_ (score_of (storage w) p) = true -> by_sender p hist <> [].
Proof.
  intros R He Hn. rewrite (repr_none _ _ _ R p Hn) in He. done.
Qed.

Lemma by_sender_nonempty p hist : by_sender p hist <> [] -> hist <> [].
Proof. by intros H ->. Qed.

Lemma Repr_hasTop this w hist :
  Repr this w hist -> _hasTopPlayer (storage w) = true -> hist <> [].
Proof.
  intros R He Hn. rewrite (repr_empty _ _ _ R Hn) in He. done.
Qed.

Lemma values_snoc h s : values (h ++ [s]) = values h ++ [sub_value s].
Proof. unfold values. by rewrite map_app. Qed.

(** An accepted submission extends the history by itself. *)
Lemma Repr_submit this w hist a t i w' :
  Repr this w hist -> submitted this a t i w w' ->
  Repr this w'
    (hist ++ [ {| sub_sender := a; sub_time := t; sub_value := FHE.plain_of i |} ]).
Proof.
  intros R S.
  set (sub := {| sub_sender := a; sub_time := t; sub_value := FHE.plain_of i |}).
  assert (Hacl : FHE.acl (fhe w) ⊆ FHE.acl (fhe w')).
  { rewrite (sub_acl _ _ _ _ _ _ S). set_solver. }
  split.
  - (* no submission, no record *)
    intros p Hp. rewrite by_sender_snoc in Hp. simpl in Hp.
    destruct (decide (a = p)) as [->|Hne].
    + by destruct (by_sender p hist).
    + rewrite (sub_others _ _ _ _ _ _ S) by congruence. by apply (repr_none _ _ _ R).
  - (* the records *)
    intros p Hp. rewrite by_sender_snoc in *. simpl in *.
    destruct (decide (a = p)) as [<-|Hne].
    + destruct (sub_score _ _ _ _ _ _ S) as [Hex Hts].
      split; [done | | | |].
      * rewrite (sub_value_score _ _ _ _ _ _ S), values_snoc.
        destruct (exists_ (score_of (storage w) a)) eqn:Ex.
        -- destruct (repr_some _ _ _ R a (Repr_exists _ _ _ _ R Ex)) as [_ (m & Hm & Hmax) _ _ _].
           exists (Z.max m (FHE.plain_of i)). split.
           ++ unfold decrypt_score. by rewrite (FHEFacts.decrypt32_lookup _ _ _ Hm).
           ++ by apply is_max_snoc.
        -- assert (Hn : by_sender a hist = []).
           { destruct (by_sender a hist) eqn:E; [done |].
             assert (Hs : by_sender a hist <> []) by (by rewrite E).
             destruct (repr_some _ _ _ R a Hs) as [Hex' _ _ _ _]. congruence. }
           rewrite Hn. exists (FHE.plain_of i). split; [done |]. apply is_max_singleton.
      * rewrite last_snoc. simpl. by rewrite Hts.
      * rewrite (sub_acl _ _ _ _ _ _ S). set_solver.
      * rewrite (sub_acl _ _ _ _ _ _ S). set_solver.
    + destruct (repr_some _ _ _ R p Hp) as [Hex (v & Hv & Hmax) Hts Hg1 Hg2].
      split; rewrite (sub_others _ _ _ _ _ _ S); try done; try congruence.
      * exists v. split; [| done]. by apply (sub_store _ _ _ _ _ _ S).
      * by apply Hacl.
      * by apply Hacl.
  - intros H. by destruct hist.
  - (* the max state *)
    intros _. split.
    + apply (sub_hasTop _ _ _ _ _ _ S).
    + rewrite (sub_topPlayer _ _ _ _ _ _ S). destruct hist as [|s0 hist'].
      * by rewrite (repr_empty _ _ _ R eq_refl).
      * destruct (repr_max _ _ _ R) as [Ht Htop _ _]; [done |]. by rewrite Ht.
    + rewrite (sub_value_max _ _ _ _ _ _ S), values_snoc. destruct hist as [|s0 hist'].
      * rewrite (repr_empty _ _ _ R eq_refl). exists (FHE.plain_of i).
        split; [done |]. apply is_max_singleton.
      * destruct (repr_max _ _ _ R) as [Ht _ (m & Hm & Hmax) _]; [done |]. rewrite Ht.
        exists (Z.max m (FHE.plain_of i)). split.
        -- unfold decrypt_max. by rewrite (FHEFacts.decrypt32_lookup _ _ _ Hm).
        -- by apply is_max_snoc.
    + rewrite (sub_acl _ _ _ _ _ _ S). set_solver.
  - (* the list of players *)
    intros p. rewrite (sub_players _ _ _ _ _ _ S).
    destruct (sub_score _ _ _ _ _ _ S) as [Hex _].
    destruct (decide (p = a)) as [->|Hne].
    + rewrite Hex. split; [done |]. intros _.
      destruct (exists_ (score_of (storage w) a)) eqn:Ex.
      * by apply (repr_players _ _ _ R).
      * set_solver.
    + rewrite (sub_others _ _ _ _ _ _ S) by done. rewrite <- (repr_players _ _ _ R).
      destruct (exists_ (score_of (storage w) a)); [done |].
      rewrite elem_of_app, list_elem_of_singleton. tauto.
  - rewrite (sub_players _ _ _ _ _ _ S).
    destruct (exists_ (score_of (storage w) a)) eqn:Ex.
    + apply (repr_nodup _ _ _ R).
    + apply NoDup_app. split; [apply (repr_nodup _ _ _ R) |]. split.
      * intros x Hx Hxa. apply list_elem_of_singleton in Hxa. subst x.
        apply (repr_players _ _ _ R) in Hx. congruence.
      * apply NoDup_singleton.
Qed.

(** An eligible sender with a good proof is accepted. *)
Lemma submit_accepted this w hist a t i :
  Repr this w hist ->
  tokens_of (storage w) a <> [] -> FHE.proof_ok i = true ->
  exists w', submitScore this a t i w = Ok (tt, w') /\ submitted this a t i w w'.
Proof.
  intros R Htok Hp.
  assert (H : returns (submitScore this a t i) (fun _ w' => submitted this a t i w w') w).
  { apply submitScore_effects; try done.
    - intros Ex. destruct (repr_some _ _ _ R a (Repr_exists _ _ _ _ R Ex))
        as [_ (v & Hv & _) _ _ _]. eauto.
    - intros Ht. destruct (repr_max _ _ _ R (Repr_hasTop _ _ _ R Ht))
        as [_ _ (m & Hm & _) _]. eauto.
    - intros Ex. apply (repr_max _ _ _ R).
      eapply by_sender_nonempty, Repr_exists; eauto. }
  apply returns_Ok in H as ([] & w' & Hw & S). eauto.
Qed.

(** The invariant reads the score fields and the co-processor only. *)
Lemma Repr_same this w w' hist :
  playerScores (storage w') = playerScores (storage w) ->
  _players (storage w') = _players (storage w) ->
  _maxEncryptedScore (storage w') = _maxEncryptedScore (storage w) ->
  _topPlayer (storage w') = _topPlayer (storage w) ->
  _hasTopPlayer (storage w') = _hasTopPlayer (storage w) ->
  fhe w' = fhe w ->
  Repr this w hist -> Repr this w' hist.
Proof.
  intros E1 E2 E3 E4 E5 E6 [r1 r2 r3 r4 r5 r6].
  assert (Es : forall p, score_of (storage w') p = score_of (storage w) p).
  { intros p. unfold score_of. by rewrite E1. }
  split; intros; rewrite ?Es, ?E2, ?E5; auto.
  - destruct (r2 p) as [a1 a2 a3 a4 a5]; [done |].
    split; rewrite ?Es, ?E6; done.
  - destruct r4 as [a1 a2 a3 a4]; [done |].
    split; rewrite ?E3, ?E4, ?E5, ?E6; done.
Qed.

Lemma exec_submit_cases this w hist a t i :
  Repr this w hist ->
  (exec this w (CallSubmit a t i) = (w, Reverted NotEligible)
   /\ tokens_of (storage w) a = [])
  \/ (exec this w (CallSubmit a t i) = (w, Reverted InvalidProof)
      /\ tokens_of (storage w) a <> [] /\ FHE.proof_ok i = false)
  \/ (exists w', exec this w (CallSubmit a t i) = (w', Success)
      /\ tokens_of (storage w) a <> [] /\ FHE.proof_ok i = true
      /\ submitted this a t i w w').
Proof.
  intros R. unfold exec, transact.
  destruct (tokens_of (storage w) a) as [|tk tks] eqn:Et.
  - left. by rewrite submitScore_not_eligible.
  - right. destruct (FHE.proof_ok i) eqn:Ep.
    + right. destruct (submit_accepted this w hist a t i R) as (w' & Hw & S);
        [by rewrite Et | done |].
      exists w'. rewrite Hw. split; [done | split; [done | split; [done | exact S]]].
    + left. rewrite submitScore_invalid_proof; [done | by rewrite Et | done].
Qed.

Lemma Repr_exec this w hist c :
  Repr this w hist ->
  Repr this (fst (exec this w c)) (hist ++ accepted_of this w c).
Proof.
  intros R. destruct c as [a | a t i].
  - simpl. rewrite app_nil_r.
    destruct (mint_preserves a w) as (E1 & E2 & E3 & E4 & E5 & E6).
    by apply (Repr_same this w).
  - unfold accepted_of.
    destruct (exec_submit_cases this w hist a t i R)
      as [[-> _] | [[-> _] | (w' & -> & _ & _ & S)]]; simpl.
    + by rewrite app_nil_r.
    + by rewrite app_nil_r.
    + by apply (Repr_submit this w).
Qed.

Lemma run_cons this w c cs : run this w (c :: cs) = run this (fst (exec this w c)) cs.
Proof. reflexivity. Qed.

Lemma run_app this w cs cs' : run this w (cs ++ cs') = run this (run this w cs) cs'.
Proof. unfold run. apply fold_left_app. Qed.

Lemma history_app this w cs cs' :
  history this w (cs ++ cs') = history this w cs ++ history this (run this w cs) cs'.
Proof.
  revert w. induction cs as [|c cs IH]; intros w; [done |].
  rewrite run_cons, <- app_comm_cons. cbn [history]. by rewrite IH, app_assoc.
Qed.

Lemma Repr_run this w hist cs :
  Repr this w hist -> Repr this (run this w cs) (hist ++ history this w cs).
Proof.
  revert w hist. induction cs as [|c cs IH]; intros w hist R.
  - simpl. by rewrite app_nil_r.
  - rewrite run_cons. cbn [history]. rewrite app_assoc. apply IH. by apply Repr_exec.
Qed.

(** Every world the contract can reach stands for its history. *)
Lemma Repr_reachable this cs : Repr this (run this init cs) (history this init cs).
Proof. apply (Repr_run this init []). apply Repr_init. Qed.

End LedgerInvariant.

(** ** The score ledger and the max aggregator *)

Module LedgerOrder.
Import ParkourGame LedgerSpec LedgerFacts LedgerInvariant.

Lemma eligible_submit_tokens w w' c :
  ownerTokens (storage w') = ownerTokens (storage w) ->
  eligible_submit w c -> eligible_submit w' c.
Proof. destruct c; [done |]. unfold eligible_submit, tokens_of. by intros ->. Qed.

Lemma history_eligible this w hist subs :
  Repr this w hist -> Forall (eligible_submit w) subs ->
  history this w subs = concat (map submission_of subs).
Proof.
  revert w hist. induction subs as [|c subs IH]; intros w hist R Hall; [done |].
  inversion Hall as [|? ? Hc Hrest]; subst.
  destruct c as [|a t i]; [done |]. destruct Hc as [Htok Hp].
  cbn [history map concat].
  destruct (exec_submit_cases this w hist a t i R)
    as [[_ ?] | [[_ [_ ?]] | (w' & Hw & _ & _ & S)]]; [done | congruence |].
  unfold accepted_of. rewrite Hw. cbn [fst snd submission_of]. f_equal.
  apply (IH w' (hist ++ [ {| sub_sender := a; sub_time := t; sub_value := FHE.plain_of i |} ])).
  - by apply (Repr_submit this w).
  - eapply Forall_impl; [exact Hrest |]. intros c.
    apply eligible_submit_tokens. apply (sub_tokens _ _ _ _ _ _ S).
Qed.

End LedgerOrder.

Import ParkourGame.

(** C1. After any trace of calls, the record of a principal who got at
    least one submission accepted exists, its ciphertext decrypts to the
    greatest plaintext that principal ever submitted, and its timestamp
    is that of the principal's latest submission, whether or not that one
    raised the score. *)
Theorem stored_score_is_max_and_timestamp_is_latest (this : Z) (cs : list Call) (p : Z) :
  let w := run this init cs in
  let subs := by_sender p (history this init cs) in
  subs <> [] ->
  exists_ (score_of (storage w) p) = true
  /\ is_max (decrypt_score w p) (map sub_value subs)
  /\ sub_time <$> last subs = Some (timestamp (score_of (storage w) p)).
Proof.
  intros w subs Hne. subst w subs.
  destruct (LedgerSpec.repr_some _ _ _ (LedgerInvariant.Repr_reachable this cs) p Hne)
    as [Hex (v & Hv & Hmax) Hts _ _].
  split; [done |]. split; [| done].
  unfold decrypt_score. by rewrite (FHEFacts.decrypt32_lookup _ _ _ Hv).
Qed.

(** The scenario of the spec: 50 at time 100, then 30 at time 200. *)
Lemma stored_score_is_max_and_timestamp_is_latest_witness :
  let cs := [CallMint 10; CallSubmit 10 100 (FHE.mk_input 50 true);
             CallSubmit 10 200 (FHE.mk_input 30 true)] in
  let w := run 99 init cs in
  by_sender 10 (history 99 init cs) <> []
  /\ exists_ (score_of (storage w) 10) = true
  /\ is_max (decrypt_score w 10) (map sub_value (by_sender 10 (history 99 init cs)))
  /\ sub_time <$> last (by_sender 10 (history 99 init cs))
     = Some (timestamp (score_of (storage w) 10)).
Proof.
  intros cs w.
  assert (H : by_sender 10 (history 99 init cs) <> []) by (vm_compute; discriminate).
  split; [exact H |].
  exact (stored_score_is_max_and_timestamp_is_latest 99 cs 10 H).
Defined.

(** C2. After any trace followed by submissions the ledger takes, the max
    state decrypts to the greatest of all plaintexts ever submitted, and
    submitting in any other order decrypts to the same value. *)
Theorem max_state_is_global_max_in_any_order (this : Z) (cs subs subs' : list Call) :
  let w0 := run this init cs in
  Forall (LedgerSpec.eligible_submit w0) subs ->
  subs ≡ₚ subs' ->
  history this init (cs ++ subs) <> [] ->
  is_max (decrypt_max (run this w0 subs)) (map sub_value (history this init (cs ++ subs)))
  /\ decrypt_max (run this w0 subs') = decrypt_max (run this w0 subs).
Proof.
  intros w0 Hall Hperm Hne.
  assert (Hall' : Forall (LedgerSpec.eligible_submit w0) subs') by (by rewrite <- Hperm).
  pose proof (LedgerInvariant.Repr_reachable this cs) as R0.
  pose proof (LedgerInvariant.Repr_reachable this (cs ++ subs)) as R.
  pose proof (LedgerInvariant.Repr_reachable this (cs ++ subs')) as R'.
  rewrite LedgerInvariant.run_app in R, R'.
  assert (Hh : history this init (cs ++ subs') ≡ₚ history this init (cs ++ subs)).
  { rewrite !LedgerInvariant.history_app.
    rewrite (LedgerOrder.history_eligible this _ _ subs R0 Hall).
    rewrite (LedgerOrder.history_eligible this _ _ subs' R0 Hall').
    by rewrite Hperm. }
  assert (Hne' : history this init (cs ++ subs') <> []).
  { intros E. rewrite E in Hh. by apply Permutation_nil_l in Hh. }
  destruct (LedgerSpec.repr_max _ _ _ R Hne) as [_ _ (m & Hm & Hmax) _].
  destruct (LedgerSpec.repr_max _ _ _ R' Hne') as [_ _ (m' & Hm' & Hmax') _].
  subst w0. unfold decrypt_max.
  rewrite (FHEFacts.decrypt32_lookup _ _ _ Hm), (FHEFacts.decrypt32_lookup _ _ _ Hm').
  split; [done |].
  eapply LedgerFacts.is_max_unique; [exact Hmax' |].
  eapply LedgerFacts.is_max_Permutation; [| exact Hmax].
  unfold LedgerSpec.values in *. by rewrite Hh.
Qed.

(** Two principals, three submissions, taken in the reverse order. *)
Lemma max_state_is_global_max_in_any_order_witness :
  let cs := [CallMint 10; CallMint 11] in
  let subs := [CallSubmit 10 100 (FHE.mk_input 50 true);
               CallSubmit 10 200 (FHE.mk_input 30 true);
               CallSubmit 11 150 (FHE.mk_input 80 true)] in
  let w0 := run 99 init cs in
  is_max (decrypt_max (run 99 w0 subs)) (map sub_value (history 99 init (cs ++ subs)))
  /\ decrypt_max (run 99 w0 (reverse subs)) = decrypt_max (run 99 w0 subs).
Proof.
  intros cs subs w0.
  apply (max_state_is_global_max_in_any_order 99 cs subs (reverse subs)).
  - repeat constructor; vm_compute; discriminate.
  - symmetry. apply reverse_Permutation.
  - vm_compute. discriminate.
Defined.

(** C3. A principal who owns no character cannot submit: the call fails
    with the ledger's eligibility error at its first statement, and the
    world after the call is the world before it: no record created, the
    players list, the max state and the grants untouched. *)
Theorem submit_without_character_is_rejected (this : Z) (w : World) (a t : Z)
    (i : FHE.ExternalInput) :
  tokens_of (storage w) a = [] ->
  submitScore this a t i w = Revert NotEligible
  /\ exec this w (CallSubmit a t i) = (w, Reverted NotEligible).
Proof.
  intros H. pose proof (LedgerFacts.submitScore_not_eligible this a t i w H) as E.
  split; [done |]. unfold exec, transact. by rewrite E.
Qed.

Lemma submit_without_character_is_rejected_witness :
  let w := run 99 init [CallMint 10; CallSubmit 10 100 (FHE.mk_input 50 true)] in
  tokens_of (storage w) 12 = []
  /\ submitScore 99 12 7 (FHE.mk_input 3 true) w = Revert NotEligible
  /\ exec 99 w (CallSubmit 12 7 (FHE.mk_input 3 true)) = (w, Reverted NotEligible).
Proof.
  intros w.
  assert (H : tokens_of (storage w) 12 = []) by (vm_compute; reflexivity).
  split; [exact H |].
  exact (submit_without_character_is_rejected 99 w 12 7 (FHE.mk_input 3 true) H).
Defined.

(** C8. After every successful submission, whatever came before, the
    co-processor holds a grant on the sender's stored ciphertext for the
    contract itself and for the sender, and a grant on the max ciphertext
    for the contract itself; and every record of the ledger then carries
    the grants for the contract and for its owner. *)
Theorem grants_after_successful_submit (this : Z) (cs : list Call) (a t : Z)
    (i : FHE.ExternalInput) (w' : World) :
  exec this (run this init cs) (CallSubmit a t i) = (w', Success) ->
  FHE.isAllowed (fhe w') (encryptedScore (score_of (storage w') a)) this = true
  /\ FHE.isAllowed (fhe w') (encryptedScore (score_of (storage w') a)) a = true
  /\ FHE.isAllowed (fhe w') (_maxEncryptedScore (storage w')) this = true
  /\ forall p, exists_ (score_of (storage w') p) = true ->
       FHE.isAllowed (fhe w') (encryptedScore (score_of (storage w') p)) this = true
       /\ FHE.isAllowed (fhe w') (encryptedScore (score_of (storage w') p)) p = true.
Proof.
  intros Hexec.
  pose proof (LedgerInvariant.Repr_reachable this cs) as R.
  pose proof (LedgerInvariant.Repr_exec this _ _ (CallSubmit a t i) R) as R'.
  rewrite Hexec in R'. cbn [fst] in R'.
  destruct (LedgerInvariant.exec_submit_cases this _ _ a t i R)
    as [[E _] | [[E _] | (w1 & E & _ & _ & S)]]; rewrite E in Hexec; try discriminate.
  injection Hexec as <-.
  unfold FHE.isAllowed. rewrite !bool_decide_eq_true.
  rewrite (LedgerSpec.sub_acl _ _ _ _ _ _ S).
  split; [set_solver |]. split; [set_solver |]. split; [set_solver |].
  intros p Hp. rewrite !bool_decide_eq_true.
  rewrite <- (LedgerSpec.sub_acl _ _ _ _ _ _ S).
  destruct (LedgerSpec.repr_some _ _ _ R' p (LedgerInvariant.Repr_exists _ _ _ _ R' Hp))
    as [_ _ _ G1 G2].
  done.
Qed.

Lemma grants_after_successful_submit_witness :
  let cs := [CallMint 10; CallMint 11; CallSubmit 10 100 (FHE.mk_input 50 true)] in
  let w' := fst (exec 99 (run 99 init cs) (CallSubmit 11 150 (FHE.mk_input 80 true))) in
  FHE.isAllowed (fhe w') (encryptedScore (score_of (storage w') 11)) 99 = true
  /\ FHE.isAllowed (fhe w') (encryptedScore (score_of (storage w') 11)) 11 = true
  /\ FHE.isAllowed (fhe w') (_maxEncryptedScore (storage w')) 99 = true
  /\ forall p, exists_ (score_of (storage w') p) = true ->
       FHE.isAllowed (fhe w') (encryptedScore (score_of (storage w') p)) 99 = true
       /\ FHE.isAllowed (fhe w') (encryptedScore (score_of (storage w') p)) p = true.
Proof.
  intros cs w'.
  apply (grants_after_successful_submit 99 cs 11 150 (FHE.mk_input 80 true) w').
  vm_compute. reflexivity.
Defined.

(** C10. [getTopPlayer] answers the zero address and the zero handle
    while nobody has submitted. Afterwards it answers the sender of the
    first accepted submission of the trace, whatever was submitted later,
    and the handle it returns is still the zero one, which is not the
    handle of the max ciphertext. *)
Theorem getTopPlayer_is_first_submitter (this : Z) (cs : list Call) :
  let s := storage (run this init cs) in
  match history this init cs with
  | [] => getTopPlayer s = (0, 0)
  | first :: _ =>
      getTopPlayer s = (sub_sender first, 0)
      /\ _topPlayer s = sub_sender first
      /\ getMaxEncryptedScore s <> snd (getTopPlayer s)
  end.
Proof.
  intros s. subst s.
  pose proof (LedgerInvariant.Repr_reachable this cs) as R.
  destruct (history this init cs) as [|first rest] eqn:Eh.
  - unfold getTopPlayer. by rewrite (LedgerSpec.repr_empty _ _ _ R eq_refl).
  - destruct (LedgerSpec.repr_max _ _ _ R) as [Ht Htop (m & Hm & _) _]; [done |].
    simpl in Htop. injection Htop as Htop.
    assert (Hin : sub_sender first ∈ _players (storage (run this init cs))).
    { apply (LedgerSpec.repr_players _ _ _ R).
      assert (Hs : by_sender (sub_sender first) (first :: rest) <> []).
      { unfold by_sender. rewrite filter_cons, decide_True by done. done. }
      by destruct (LedgerSpec.repr_some _ _ _ R _ Hs). }
    assert (Hg : getTopPlayer (storage (run this init cs)) = (sub_sender first, 0)).
    { unfold getTopPlayer. rewrite Ht, Htop.
      destruct (_players (storage (run this init cs))); [by apply elem_of_nil in Hin | done]. }
    split; [done |]. split; [done |]. rewrite Hg. simpl.
    apply FHEFacts.lookup_pos in Hm. unfold getMaxEncryptedScore. lia.
Qed.

(** The second player submits the higher score: the top player read is
    still the first submitter. *)
Lemma getTopPlayer_is_first_submitter_witness :
  let cs := [CallMint 10; CallMint 11;
             CallSubmit 10 100 (FHE.mk_input 50 true);
             CallSubmit 12 120 (FHE.mk_input 99 true);
             CallSubmit 11 150 (FHE.mk_input 80 true)] in
  let s := storage (run 99 init cs) in
  map sub_sender (history 99 init cs) = [10; 11]
  /\ getTopPlayer s = (10, 0)
  /\ _topPlayer s = 10
  /\ getMaxEncryptedScore s <> snd (getTopPlayer s).
Proof.
  intros cs s.
  assert (Eh : history 99 init cs
               = [ {| sub_sender := 10; sub_time := 100; sub_value := 50 |};
                   {| sub_sender := 11; sub_time := 150; sub_value := 80 |} ])
    by (vm_compute; reflexivity).
  pose proof (getTopPlayer_is_first_submitter 99 cs) as H.
  cbv zeta in H. rewrite Eh in H. cbn [sub_sender] in H.
  split; [by rewrite Eh | exact H].
Defined.

(** ** The decryption request pipeline *)

Module PipelineFacts.
Import UseParkourGame HookSpec.

(** Splits a run of the pipeline along the answers it was given. *)
Ltac plain x :=
  lazymatch x with
  | context [match _ with _ => _ end] => fail
  | _ => idtac
  end.

Ltac answers :=
  repeat match goal with
         | x : (_ * _)%type |- _ => destruct x
         | |- context [match ?x with _ => _ end] => plain x; destruct x eqn:?; simpl in *
         end.

Lemma decryptScore_begin_started r h h' q :
  decryptScore_begin r h = (h', Some q) ->
  isDecryptingRef h = false
  /\ h' = with_message "Decrypting score..."
            (with_isDecrypting true (with_isDecryptingRef true h)).
Proof.
  unfold decryptScore_begin.
  destruct (isDecryptingRef h), (parkourGame_address r), (instance r), (ethersSigner r);
    intros E; inversion E; done.
Qed.

Lemma decryptScore_run_refs q env c :
  isDecryptingRef (hook (decryptScore_run q env c)) = false
  /\ isSubmittingRef (hook (decryptScore_run q env c)) = isSubmittingRef (hook c).
Proof.
  destruct env as [ga gps los before ud after], c as [h l].
  unfold decryptScore_run, try_catch_finally, await, check, property, bind, perform,
    setMessage, setPlayerScore, setIsDecrypting, update, pure, return_, throw.
  simpl. answers. all: done.
Qed.

Lemma submitScore_run_refs q score env c :
  isSubmittingRef (hook (submitScore_run q score env c)) = false
  /\ isDecryptingRef (hook (submitScore_run q score env c)) = isDecryptingRef (hook c).
Proof.
  destruct env as [enc before send wait after], c as [h l].
  unfold submitScore_run, try_catch_finally, await, check, bind, perform,
    setMessage, setIsSubmitting, update, pure, return_, throw.
  simpl. answers. all: done.
Qed.

Lemma guarded_start : guarded start.
Proof. split; by left. Qed.

Lemma guarded_step s a : guarded s -> guarded (step s a).
Proof.
  intros [Hd Hs]. destruct s as [h ds ss]. simpl in *. destruct a as [r | r score | env | env].
  - (* decryptScore is called *)
    unfold step, decryptScore_begin. simpl.
    destruct (isDecryptingRef h) eqn:Ed.
    { split; simpl; rewrite ?app_nil_r; [by rewrite Ed | done]. }
    destruct (parkourGame_address r), (instance r), (ethersSigner r);
      split; simpl; rewrite ?app_nil_r, ?Ed; try done.
    destruct Hd as [[-> _] | (q & _ & ?)]; [| done]. right. eauto.
  - (* submitScore is called *)
    unfold step, submitScore_begin. simpl.
    destruct (isSubmittingRef h) eqn:Es.
    { split; simpl; rewrite ?app_nil_r; [done | by rewrite Es]. }
    destruct (parkourGame_address r), (instance r), (ethersSigner r), (hasCharacter r);
      split; simpl; rewrite ?app_nil_r, ?Es; try done.
    destruct Hs as [[-> _] | (q & _ & ?)]; [| done]. right. eauto.
  - (* a decryption settles *)
    unfold step. simpl. destruct ds as [|q rest]; [done |].
    destruct Hd as [[? _] | (q' & E & _)]; [done |]. injection E as <- ->.
    destruct (decryptScore_run_refs q env {| hook := h; log := [] |}) as [E1 E2].
    split; simpl; [by left | by rewrite E2].
  - (* a submission settles *)
    unfold step. simpl. destruct ss as [|[q score] rest]; [done |].
    destruct Hs as [[? _] | (q' & E & _)]; [done |]. injection E as <- ->.
    destruct (submitScore_run_refs q score env {| hook := h; log := [] |}) as [E1 E2].
    split; simpl; [by rewrite E2 | by left].
Qed.

Lemma guarded_play s l : guarded s -> guarded (play s l).
Proof.
  revert s. induction l as [|a l IH]; intros s G; [done |].
  apply IH. by apply guarded_step.
Qed.

End PipelineFacts.

Import UseParkourGame.

(** C4. In every decryption request, each staleness check evaluates the
    closure over the contract address, the chain and the signer captured
    when the request started. If the check made before the oracle call
    finds the request stale, the oracle is never called, the player score
    is left as it was and the message says the decryption is ignored; if
    the check made after the oracle call finds it stale, the answer of
    the oracle is dropped: the player score is left as it was and the
    message says the decryption is ignored, not that it failed. *)
Theorem stale_decryption_is_ignored (r : Render) (env : DecryptEnv) (h : Hook) :
  let c := decryptScore r env h in
  (forall site b, IsStale site b ∈ log c ->
     exists q, snd (decryptScore_begin r h) = Some q
       /\ b = isStale (thisParkourGameAddress q) (thisChainId q) (thisEthersSigner q)
                (match site with BeforeOracle => de_before env | _ => de_after env end))
  /\ (IsStale BeforeOracle true ∈ log c ->
      oracle_calls (log c) = []
      /\ playerScore (hook c) = playerScore h
      /\ message (hook c) = "Ignore decryption")
  /\ (IsStale AfterOracle true ∈ log c ->
      length (oracle_calls (log c)) = 1%nat
      /\ playerScore (hook c) = playerScore h
      /\ message (hook c) = "Ignore decryption").
Proof.
  intros c. subst c. unfold decryptScore, decryptScore_begin.
  destruct (isDecryptingRef h), (parkourGame_address r), (instance r), (ethersSigner r);
    try (split; [intros at_site found Hin | split; intros Hin];
         simpl in Hin; by apply elem_of_nil in Hin).
  destruct env as [ga gps los before ud after].
  unfold decryptScore_run, try_catch_finally, await, check, property, bind, perform,
    setMessage, setPlayerScore, setIsDecrypting, update, pure, return_, throw.
  simpl. PipelineFacts.answers.
  all: split; [intros at_site found Hin | split; intros Hin];
    repeat (apply elem_of_cons in Hin as [Hin | Hin]; [try discriminate |]);
    try (by apply elem_of_nil in Hin); try done.
  all: injection Hin as -> ->; eexists; split; [reflexivity |]; simpl; congruence.
Qed.

(** The request goes stale before the oracle call, or while it is out. *)
Lemma stale_decryption_is_ignored_witness :
  let early := decryptScore Examples.render
                 (Examples.answers 4 true 50 Examples.switched Examples.switched)
                 initial in
  let late := decryptScore Examples.render
                (Examples.answers 4 true 50 Examples.unchanged Examples.switched)
                initial in
  (oracle_calls (log early) = []
   /\ playerScore (hook early) = None
   /\ message (hook early) = "Ignore decryption")
  /\ (length (oracle_calls (log late)) = 1%nat
      /\ playerScore (hook late) = None
      /\ message (hook late) = "Ignore decryption").
Proof.
  intros early late. split.
  - apply (proj1 (proj2 (stale_decryption_is_ignored Examples.render
                    (Examples.answers 4 true 50 Examples.switched Examples.switched)
                    initial))).
    vm_compute. repeat constructor.
  - apply (proj2 (proj2 (stale_decryption_is_ignored Examples.render
                    (Examples.answers 4 true 50 Examples.unchanged Examples.switched)
                    initial))).
    vm_compute. repeat constructor.
Defined.

(** C7, as stated, fails: the player has no record, the handle read is the
    all-zero one, and the pipeline reports that no score was found; the
    plaintext is not set to 0. *)
Lemma zero_handle_without_record_counterexample :
  let env := Examples.answers ZeroHash false 50 Examples.unchanged Examples.unchanged in
  let c := decryptScore Examples.render env initial in
  de_getPlayerScore env 10 = Resolved (ZeroHash, 100, false)
  /\ playerScore (hook c) <> Some "0"
  /\ message (hook c) = "No score found for this player".
Proof. vm_compute. split; [reflexivity |]. split; [discriminate | reflexivity]. Qed.

(** C7, amended. When a started request reads the all-zero handle, the
    oracle is not called and no authorization is asked for; if the record
    read exists, the plaintext shown becomes 0, and if it does not, the
    plaintext is left as it was and the message says that no score was
    found. *)
Theorem zero_handle_short_circuits (r : Render) (env : DecryptEnv) (h h' : Hook)
    (q : Request) (user ts : Z) (known : bool) :
  decryptScore_begin r h = (h', Some q) ->
  de_getAddress env = Resolved user ->
  de_getPlayerScore env user = Resolved (ZeroHash, ts, known) ->
  let c := decryptScore r env h in
  log c = [GetAddress; GetPlayerScore user]
  /\ oracle_calls (log c) = []
  /\ if known
     then playerScore (hook c) = Some "0" /\ message (hook c) = "Score: 0"
     else playerScore (hook c) = playerScore h
          /\ message (hook c) = "No score found for this player".
Proof.
  intros Hb Ha Hs c. subst c. unfold decryptScore. rewrite Hb.
  apply PipelineFacts.decryptScore_begin_started in Hb as [_ ->].
  destruct env as [ga gps los before ud after]. simpl in Ha, Hs.
  unfold decryptScore_run, try_catch_finally, await, check, property, bind, perform,
    setMessage, setPlayerScore, setIsDecrypting, update, pure, return_, throw.
  simpl. rewrite Ha. simpl. rewrite Hs. simpl. by destruct known.
Qed.

Lemma zero_handle_short_circuits_witness :
  let env := Examples.answers ZeroHash true 50 Examples.unchanged Examples.unchanged in
  let c := decryptScore Examples.render env initial in
  log c = [GetAddress; GetPlayerScore 10]
  /\ oracle_calls (log c) = []
  /\ playerScore (hook c) = Some "0" /\ message (hook c) = "Score: 0".
Proof.
  intros env c.
  exact (zero_handle_short_circuits Examples.render env initial _ _ 10 100 true
           eq_refl eq_refl eq_refl).
Defined.

(** C9. However the calls and the settlements of one component
    interleave, at most one decryption and at most one submission are
    outstanding; a call to [decryptScore] while a decryption is
    outstanding, or to [submitScore] while a submission is, changes
    nothing: no run is added, no state or message is set. *)
Theorem at_most_one_outstanding (l : list Action) (r : Render) (score : Z) :
  let s := play start l in
  (length (decryptions s) <= 1)%nat
  /\ (length (submissions s) <= 1)%nat
  /\ (decryptions s <> [] -> step s (CallDecryptScore r) = s)
  /\ (submissions s <> [] -> step s (CallSubmitScore r score) = s).
Proof.
  intros s. destruct (PipelineFacts.guarded_play start l PipelineFacts.guarded_start)
    as [Hd Hs]. fold s in Hd, Hs. clearbody s. destruct s as [h ds ss]. simpl in *.
  split; [| split; [| split]].
  - destruct Hd as [[-> _] | (q & -> & _)]; simpl; lia.
  - destruct Hs as [[-> _] | (q & -> & _)]; simpl; lia.
  - intros Hne. destruct Hd as [[-> _] | (q & -> & Hr)]; [done |].
    unfold step, decryptScore_begin. simpl. by rewrite Hr.
  - intros Hne. destruct Hs as [[-> _] | (q & -> & Hr)]; [done |].
    unfold step, submitScore_begin. simpl. by rewrite Hr.
Qed.

(** A second call of each kind while the first is outstanding. *)
Lemma at_most_one_outstanding_witness :
  let l := [CallDecryptScore Examples.render; CallSubmitScore Examples.render 7;
            CallDecryptScore Examples.render] in
  let s := play start l in
  decryptions s <> [] /\ submissions s <> []
  /\ step s (CallDecryptScore Examples.render) = s
  /\ step s (CallSubmitScore Examples.render 8) = s.
Proof.
  intros l s.
  assert (Hd : decryptions s <> []) by (vm_compute; discriminate).
  assert (Hs : submissions s <> []) by (vm_compute; discriminate).
  destruct (at_most_one_outstanding l Examples.render 8) as (_ & _ & H1 & H2).
  split; [exact Hd |]. split; [exact Hs |].
  split; [exact (H1 Hd) | exact (H2 Hs)].
Defined.

(** ** The views of the leaderboard *)

Module ViewFacts.
Import ParkourGame ViewSpec.

Lemma for_loop_get {Acc A} (l : list A) (f : A -> Acc -> Result Acc) body n k s :
  (forall i acc, body i acc = rbind (array_get l i) (fun x => f x acc)) ->
  (k + n = length l)%nat ->
  for_loop n (Z.of_nat k) body s = fold_res f (drop k l) s.
Proof.
  intros Hbody. revert k s. induction n as [|n IH]; intros k s Hk.
  - rewrite drop_ge by lia. done.
  - destruct (lookup_lt_is_Some_2 l k) as [x Hx]; [lia |].
    rewrite (drop_S _ _ _ Hx). cbn [for_loop fold_res]. rewrite Hbody.
    unfold array_get. rewrite Nat2Z.id, Hx. cbn [rbind].
    destruct (f x s) as [s'|e]; [| done]. cbn [rbind].
    replace (Z.of_nat k + 1) with (Z.of_nat (S k)) by lia. apply IH. lia.
Qed.

Lemma for_loop_ext {Acc} (body body' : Z -> Acc -> Result Acc) n i s :
  (forall j acc, body j acc = body' j acc) ->
  for_loop n i body s = for_loop n i body' s.
Proof.
  intros H. revert i s. induction n as [|n IH]; intros i s; [done |].
  cbn [for_loop]. rewrite H. destruct (body' i s); [apply IH | done].
Qed.

Section Leaderboard.
Variable s : Storage.

Lemma count_loop l c :
  c + Z.of_nat (length (filter (has_score s) l)) <= MAX_UINT256 ->
  fold_res (count_step s) l c = Ok (c + Z.of_nat (length (filter (has_score s) l))).
Proof.
  revert c. induction l as [|p l IH]; intros c Hc.
  - simpl. f_equal. lia.
  - rewrite filter_cons in *. cbn [fold_res]. unfold count_step at 1.
    destruct (decide (has_score s p)) as [Hp|Hp]; unfold has_score in Hp.
    + rewrite Hp. cbn [length] in *.
      unfold checked_add. destruct (Z.leb_spec (c + 1) MAX_UINT256); [| lia].
      cbn [rbind]. rewrite IH by lia. f_equal. lia.
    + apply not_true_is_false in Hp. rewrite Hp. cbn [rbind]. by apply IH.
Qed.

Lemma array_set_next {A} (F : list A) (zero x : A) (r : nat) :
  array_set (F ++ replicate (S r) zero) (Z.of_nat (length F)) x
  = Ok ((F ++ [x]) ++ replicate r zero).
Proof.
  unfold array_set. rewrite Nat2Z.id, length_app, length_replicate.
  destruct (Nat.ltb_spec (length F) (length F + S r)); [| lia].
  f_equal. rewrite <- (Nat.add_0_r (length F)) at 1. rewrite insert_app_r.
  by rewrite <- app_assoc.
Qed.

Lemma fill_loop l F T :
  length T = length F ->
  Z.of_nat (length F + length (filter (has_score s) l)) <= MAX_UINT256 ->
  fold_res (fill_step s) l
    (F ++ replicate (length (filter (has_score s) l)) 0,
     T ++ replicate (length (filter (has_score s) l)) 0,
     Z.of_nat (length F))
  = Ok (F ++ filter (has_score s) l,
        T ++ map (fun p => timestamp (score_of s p)) (filter (has_score s) l),
        Z.of_nat (length F + length (filter (has_score s) l))).
Proof.
  revert F T. induction l as [|p l IH]; intros F T HT Hc.
  - simpl. rewrite !app_nil_r, Nat.add_0_r. done.
  - rewrite filter_cons in *. cbn [fold_res]. unfold fill_step at 1.
    destruct (decide (has_score s p)) as [Hp|Hp]; unfold has_score in Hp.
    + rewrite Hp. cbn [length map] in *.
      rewrite array_set_next. cbn [rbind].
      rewrite <- HT, array_set_next. cbn [rbind].
      unfold checked_add.
      destruct (Z.leb_spec (Z.of_nat (length T) + 1) MAX_UINT256); [| lia].
      cbn [rbind].
      replace (Z.of_nat (length T) + 1) with (Z.of_nat (length (F ++ [p])))
        by (rewrite length_app; simpl; lia).
      rewrite IH.
      * rewrite <- !app_assoc. simpl. do 3 f_equal. rewrite length_app. simpl. lia.
      * rewrite !length_app. simpl. lia.
      * rewrite length_app. simpl. lia.
    + apply not_true_is_false in Hp. rewrite Hp. cbn [rbind]. by apply IH.
Qed.

(** The loops of [getLeaderboard] keep the players that have a score,
    in the order of the players list, with their timestamps. *)
Lemma getLeaderboard_filter :
  Z.of_nat (length (_players s)) <= MAX_UINT256 ->
  getLeaderboard s
  = Ok (filter (has_score s) (_players s),
        map (fun p => timestamp (score_of s p)) (filter (has_score s) (_players s))).
Proof.
  intros Hlen. unfold getLeaderboard.
  assert (Hf : (length (filter (has_score s) (_players s)) <= length (_players s))%nat)
    by apply length_filter.
  rewrite Nat2Z.id.
  rewrite (for_loop_get (_players s) (count_step s) _ _ 0%nat); [| done | lia].
  rewrite drop_0, count_loop by lia. cbn [rbind]. unfold new_array.
  rewrite Z.add_0_l, Nat2Z.id.
  rewrite (for_loop_get (_players s) (fill_step s) _ _ 0%nat);
    [| by intros i [[ps ts] idx] | lia].
  rewrite drop_0.
  pose proof (fill_loop (_players s) [] [] eq_refl) as H.
  cbn [app length Nat.add] in H. change (Z.of_nat 0) with 0 in H.
  rewrite H by lia. done.
Qed.

End Leaderboard.

Section Range.
Variable s : Storage.

Lemma range_loop (start : nat) m P E T :
  length E = length P -> length T = length P ->
  (start + length P + m <= length (_players s))%nat ->
  for_loop m (Z.of_nat (length P)) (range_step s (Z.of_nat start))
    (P ++ replicate m 0, E ++ replicate m 0, T ++ replicate m 0)
  = let Q := take m (drop (start + length P) (_players s)) in
    Ok (P ++ Q,
        E ++ map (fun p => encryptedScore (score_of s p)) Q,
        T ++ map (fun p => timestamp (score_of s p)) Q).
Proof.
  revert P E T. induction m as [|m IH]; intros P E T HE HT Hlen.
  - simpl. by rewrite !app_nil_r.
  - destruct (lookup_lt_is_Some_2 (_players s) (start + length P)) as [x Hx]; [lia |].
    rewrite (drop_S _ _ _ Hx). cbn [for_loop take map]. unfold range_step at 1.
    unfold array_get.
    replace (Z.to_nat (Z.of_nat start + Z.of_nat (length P)))
      with (start + length P)%nat by lia.
    rewrite Hx. cbn [rbind].
    rewrite array_set_next. cbn [rbind].
    rewrite <- HE, array_set_next. cbn [rbind].
    rewrite HE, <- HT, array_set_next. cbn [rbind].
    replace (Z.of_nat (length T) + 1) with (Z.of_nat (length (P ++ [x])))
      by (rewrite length_app; simpl; lia).
    rewrite IH.
    + cbn zeta. rewrite !length_app. cbn [length].
      replace (start + (length P + 1))%nat with (S (start + length P)) by lia.
      rewrite HT. by rewrite <- !app_assoc.
    + rewrite !length_app. simpl. lia.
    + rewrite !length_app. simpl. lia.
    + rewrite length_app. simpl. lia.
Qed.

(** The range view is a slice of the players list, each player with
    the fields of its record. *)
Lemma getLeaderboardRange_slice (startIndex count : Z) :
  0 <= startIndex -> 0 <= count -> startIndex + count <= MAX_UINT256 ->
  getLeaderboardRange s startIndex count
  = let Q := slice startIndex count (_players s) in
    Ok (Q,
        map (fun p => encryptedScore (score_of s p)) Q,
        map (fun p => timestamp (score_of s p)) Q).
Proof.
  intros Hs Hc Hsum. unfold getLeaderboardRange, slice.
  destruct (Z.leb_spec (Z.of_nat (length (_players s))) startIndex) as [Hge|Hlt].
  - rewrite drop_ge by lia. by rewrite take_nil.
  - unfold checked_add. destruct (Z.leb_spec (startIndex + count) MAX_UINT256); [| lia].
    cbn [rbind].
    set (endIndex := if Z.of_nat (length (_players s)) <? startIndex + count
                     then Z.of_nat (length (_players s)) else startIndex + count).
    set (n := Z.to_nat (endIndex - startIndex)).
    assert (Hn : (Z.to_nat startIndex + n <= length (_players s))%nat).
    { subst n endIndex. destruct (Z.ltb_spec (Z.of_nat (length (_players s)))
                                    (startIndex + count)); lia. }
    pose proof (range_loop (Z.to_nat startIndex) n [] [] [] eq_refl eq_refl) as HL.
    cbn [app length] in HL. rewrite Nat.add_0_r, Z2Nat.id in HL by lia.
    unfold new_array. fold n.
    change (Z.of_nat 0) with 0 in HL.
    erewrite (for_loop_ext _ (range_step s startIndex)); [rewrite HL by lia |].
    + cbn zeta. replace (take n (drop (Z.to_nat startIndex) (_players s)))
        with (take (Z.to_nat count) (drop (Z.to_nat startIndex) (_players s))); [done |].
      subst n endIndex.
      destruct (Z.ltb_spec (Z.of_nat (length (_players s))) (startIndex + count)).
      * rewrite !take_ge; [done | rewrite length_drop; lia | rewrite length_drop; lia].
      * f_equal. lia.
    + by intros i [[ps es] ts].
Qed.

End Range.

End ViewFacts.

(** ** Sorting the leaderboard *)

Module SortFacts.
Import UseParkourGame HookSpec.

Section Sort.
Context {A : Type} (cmp : A -> A -> Z).

Lemma sort_insert_Permutation x l : sort_insert cmp x l ≡ₚ x :: l.
Proof.
  induction l as [|y l IH]; [done |]. simpl.
  destruct (0 <? cmp x y); [| done]. rewrite IH. apply Permutation_swap.
Qed.

Lemma array_sort_Permutation l : array_sort cmp l ≡ₚ l.
Proof.
  induction l as [|x l IH]; [done |]. unfold array_sort in *. simpl.
  by rewrite sort_insert_Permutation, IH.
Qed.

(** Elements that the comparator never separates keep their order. *)
Lemma filter_sort_insert (P : A -> Prop) `{!forall x, Decision (P x)} x l :
  (forall y, 0 < cmp x y -> P x -> P y -> False) ->
  filter P (sort_insert cmp x l) = filter P (x :: l).
Proof.
  intros Hsep. induction l as [|y l IH]; [done |]. simpl.
  destruct (Z.ltb_spec 0 (cmp x y)) as [Hlt|]; [| done].
  rewrite filter_cons, IH, !filter_cons.
  destruct (decide (P y)), (decide (P x)); try done.
  exfalso. eauto.
Qed.

Lemma filter_array_sort (P : A -> Prop) `{!forall x, Decision (P x)} l :
  (forall x y, 0 < cmp x y -> P x -> P y -> False) ->
  filter P (array_sort cmp l) = filter P l.
Proof.
  intros Hsep. induction l as [|x l IH]; [done |]. unfold array_sort in *. simpl.
  rewrite filter_sort_insert by eauto. by rewrite !filter_cons, IH.
Qed.

Lemma array_sort_map {B} (f : A -> B) (cmp' : B -> B -> Z) l :
  (forall a b, cmp' (f a) (f b) = cmp a b) ->
  map f (array_sort cmp l) = array_sort cmp' (map f l).
Proof.
  intros Hcmp. induction l as [|x l IH]; [done |]. unfold array_sort in *. simpl.
  rewrite <- IH. generalize (foldr (sort_insert cmp) [] l). intros k.
  induction k as [|y k IHk]; [done |]. simpl. rewrite Hcmp.
  destruct (0 <? cmp x y); simpl; [by rewrite IHk | done].
Qed.

End Sort.

Lemma sublist_filter_mono {A} (P : A -> Prop) `{!forall x, Decision (P x)} (l1 l2 : list A) :
  l1 `sublist_of` l2 -> filter P l1 `sublist_of` filter P l2.
Proof.
  induction 1 as [|x l1 l2 _ IH|x l1 l2 _ IH]; [done | |]; rewrite !filter_cons.
  - destruct (decide (P x)); [by constructor | done].
  - destruct (decide (P x)); [by constructor | done].
Qed.

Lemma StronglySorted_pair {A} (R : A -> A -> Prop) (l : list A) x y :
  StronglySorted R l -> [x; y] `sublist_of` l -> R x y.
Proof.
  induction 1 as [|z l Hs IH Hall]; intros Hsub; [by inversion Hsub |].
  inversion Hsub as [|? ? ? Hsub'|? ? ? Hsub']; subst; [| by apply IH].
  rewrite Forall_forall in Hall. apply Hall.
  eapply elem_of_sublist; [| exact Hsub']. set_solver.
Qed.

Lemma compare_entries_spec a b :
  0 < compare_entries a b <-> entry_timestamp a < entry_timestamp b.
Proof.
  unfold compare_entries.
  destruct (Z.ltb_spec (entry_timestamp b) (entry_timestamp a)),
           (Z.ltb_spec (entry_timestamp a) (entry_timestamp b)); lia.
Qed.

Lemma sort_insert_sorted x l :
  StronglySorted newer_first l -> StronglySorted newer_first (sort_insert compare_entries x l).
Proof.
  induction 1 as [|y l Hs IH Hall]; [by repeat constructor |]. simpl.
  destruct (Z.ltb_spec 0 (compare_entries x y)) as [Hlt|Hge].
  - apply compare_entries_spec in Hlt. constructor; [done |].
    rewrite (sort_insert_Permutation compare_entries x l).
    constructor; [unfold newer_first; lia | done].
  - assert (Hxy : newer_first x y).
    { unfold newer_first. destruct (Z.le_gt_cases (entry_timestamp y) (entry_timestamp x));
        [done |]. assert (0 < compare_entries x y) by (apply compare_entries_spec; lia). lia. }
    constructor; [by constructor |]. constructor; [done |].
    eapply Forall_impl; [exact Hall |]. unfold newer_first in *. intros z. simpl. lia.
Qed.

Lemma array_sort_sorted l : StronglySorted newer_first (array_sort compare_entries l).
Proof.
  induction l as [|x l IH]; [constructor |]. unfold array_sort in *. simpl.
  by apply sort_insert_sorted.
Qed.

(** Entries of one timestamp come out in the order they went in. *)
Lemma array_sort_stable t l :
  filter (fun e => entry_timestamp e = t) (array_sort compare_entries l)
  = filter (fun e => entry_timestamp e = t) l.
Proof.
  apply filter_array_sort. intros x y Hlt%compare_entries_spec Hx Hy. lia.
Qed.

Lemma array_sort_stable_pair l x y :
  [x; y] `sublist_of` array_sort compare_entries l ->
  entry_timestamp x = entry_timestamp y ->
  [x; y] `sublist_of` l.
Proof.
  intros Hsub Heq.
  apply (sublist_filter_mono (fun e => entry_timestamp e = entry_timestamp y)) in Hsub.
  rewrite array_sort_stable in Hsub.
  rewrite !filter_cons, filter_nil, !decide_True in Hsub by done.
  etrans; [exact Hsub | apply sublist_filter].
Qed.

End SortFacts.

(** ** The projection of the ledger *)

Module ProjectionFacts.
Import UseParkourGame HookSpec.

Lemma filter_all {A} (P : A -> Prop) `{!forall x, Decision (P x)} (l : list A) :
  Forall P l -> filter P l = l.
Proof.
  induction 1 as [|x l Hx _ IH]; [done |]. by rewrite filter_cons, decide_True, IH.
Qed.

Lemma await_all_resolved env s ps c :
  (forall p, fe_getPlayerScore env p = Resolved (ParkourGame.getPlayerScore s p)) ->
  await_all env ps c
  = (Value (map (row_of s) ps),
     {| hook := hook c; log := log c ++ map GetPlayerScore ps |}).
Proof.
  intros Henv. revert c. induction ps as [|p ps IH]; intros c.
  - simpl. unfold pure. destruct c. simpl. by rewrite app_nil_r.
  - cbn [await_all]. unfold bind at 1, perform at 1. rewrite IH, Henv. simpl.
    by rewrite <- app_assoc.
Qed.

Lemma omap_to_entry s ps :
  Forall (fun p => ParkourGame.encryptedScore (ParkourGame.score_of s p) <> 0) ps ->
  omap to_entry (map (row_of s) ps) = map (entry_of s) ps.
Proof.
  induction 1 as [|p ps Hp _ IH]; [done |]. simpl. unfold to_entry at 1. simpl.
  destruct (Z.eqb_spec (ParkourGame.encryptedScore (ParkourGame.score_of s p)) ZeroHash);
    [done |]. f_equal. exact IH.
Qed.

Lemma bind_bind {A B C} (m : Async A) (k : A -> Async B) (k' : B -> Async C) c :
  bind (bind m k) k' c = bind m (fun a => bind (k a) k') c.
Proof. unfold bind. by destruct (m c) as [[a| |e] c']. Qed.

Lemma bind_perform {B} e (k : unit -> Async B) c :
  bind (perform e) k c = k tt {| hook := hook c; log := log c ++ [e] |}.
Proof. done. Qed.

Lemma bind_pure {A B} (a : A) (k : A -> Async B) c : bind (pure a) k c = k a c.
Proof. done. Qed.

Lemma bind_update {B} f (k : unit -> Async B) c :
  bind (update f) k c = k tt {| hook := f (hook c); log := log c |}.
Proof. done. Qed.

Lemma bind_await_all {B} env s ps (k : list ScoreRow -> Async B) c :
  (forall p, fe_getPlayerScore env p = Resolved (ParkourGame.getPlayerScore s p)) ->
  bind (await_all env ps) k c
  = k (map (row_of s) ps) {| hook := hook c; log := log c ++ map GetPlayerScore ps |}.
Proof. intros Henv. unfold bind. by rewrite (await_all_resolved env s). Qed.

Ltac async_step :=
  rewrite ?bind_bind, ?bind_perform, ?bind_pure, ?bind_update; cbn [fst snd hook log].

(** On a world the contract can reach, with nothing stale, the hook
    shows the players of the ledger, sorted and ranked. *)
Lemma fetchLeaderboard_reading this w hist r addr pr before after h :
  LedgerSpec.Repr this w hist ->
  parkourGame_address r = Some addr -> ethersReadonlyProvider r = Some pr ->
  isStale_fetch addr (chainId r) before = false ->
  isStale_fetch addr (chainId r) after = false ->
  Z.of_nat (length (ParkourGame._players (ParkourGame.storage w))) <= MAX_UINT256 ->
  leaderboard (hook (fetchLeaderboard r (reading w before after) h))
  = ranked (array_sort compare_entries
              (map (entry_of (ParkourGame.storage w))
                 (ParkourGame._players (ParkourGame.storage w)))).
Proof.
  intros R Ha Hp Hb Hb' Hlen.
  set (s := ParkourGame.storage w) in *. set (ps := ParkourGame._players s) in *.
  assert (Hall : Forall (ViewSpec.has_score s) ps).
  { apply Forall_forall. intros p Hin. by apply (LedgerSpec.repr_players _ _ _ R). }
  assert (Hnz : Forall (fun p => ParkourGame.encryptedScore (ParkourGame.score_of s p) <> 0) ps).
  { apply Forall_forall. intros p Hin.
    apply (LedgerSpec.repr_players _ _ _ R) in Hin.
    destruct (LedgerSpec.repr_some _ _ _ R p (LedgerInvariant.Repr_exists _ _ _ _ R Hin))
      as [_ (v & Hv & _) _ _ _].
    apply FHEFacts.lookup_pos in Hv. fold s in Hv. lia. }
  unfold fetchLeaderboard. rewrite Ha, Hp.
  unfold fetchLeaderboard_run, reading. cbn [fe_getLeaderboard fe_afterList fe_getPlayerScore fe_afterScores].
  fold s. rewrite (ViewFacts.getLeaderboard_filter s Hlen). fold ps.
  rewrite (filter_all _ _ Hall).
  unfold try_catch_finally, await, check, setLeaderboard, setMessage,
    setIsLoadingLeaderboard.
  async_step.
  destruct (Nat.eqb_spec (length ps) 0) as [Hz|Hz].
  { destruct ps; [| done]. reflexivity. }
  async_step. rewrite Hb. async_step.
  rewrite (bind_await_all _ s) by done.
  assert (Hrows : filter (fun row : ScoreRow => exists_ row = true) (map (row_of s) ps)
                  = map (row_of s) ps).
  { apply filter_all. apply Forall_forall. intros row Hin.
    apply list_elem_of_In, in_map_iff in Hin as (p & <- & Hin).
    rewrite Forall_forall in Hall. apply Hall. by apply list_elem_of_In. }
  rewrite !Hrows, !(omap_to_entry s ps Hnz), !length_map.
  destruct (Nat.eqb_spec (length ps) 0) as [|_]; [done |].
  async_step. rewrite Hb'. async_step. reflexivity.
Qed.

Lemma unrank_ranked l : map unrank (ranked l) = l.
Proof.
  unfold ranked. change (map unrank) with (fmap (M := list) unrank).
  rewrite fmap_imap. rewrite <- (list_fmap_id l) at 2. rewrite <- imap_const.
  apply imap_ext. intros i [a hd t] _. reflexivity.
Qed.

Lemma ranked_pair l x y :
  [x; y] `sublist_of` ranked l -> [unrank x; unrank y] `sublist_of` l.
Proof.
  intros H. apply (fmap_sublist unrank) in H.
  change (fmap (M := list) unrank (ranked l)) with (map unrank (ranked l)) in H.
  by rewrite unrank_ranked in H.
Qed.

Lemma ranked_rank l i row : ranked l !! i = Some row -> rank row = Z.of_nat i + 1.
Proof.
  unfold ranked. rewrite list_lookup_imap. destruct (l !! i); [| done].
  simpl. by intros [= <-].
Qed.

Lemma entry_address_of s ps : map entry_address (map (entry_of s) ps) = ps.
Proof. induction ps as [|p ps IH]; [done |]. simpl. by rewrite IH. Qed.

End ProjectionFacts.

(** C5. On every world the contract can reach, a fetch of the leaderboard
    that goes through (contract and provider known, nothing stale) shows
    exactly the players whose record exists, each once and with the
    fields of its record, the more recent submission first, players of
    one timestamp in the order of the ledger's list, ranked from 1; the
    order is computed from addresses and timestamps alone. *)
Theorem leaderboard_is_existing_records_most_recent_first
    (this : Z) (cs : list ParkourGame.Call) (r : Render) (addr : Z) (pr : ContractRunner)
    (before after : Ambient) (h : Hook) :
  let w := ParkourGame.run this ParkourGame.init cs in
  let s := ParkourGame.storage w in
  let rows := leaderboard (hook (fetchLeaderboard r (reading w before after) h)) in
  parkourGame_address r = Some addr -> ethersReadonlyProvider r = Some pr ->
  isStale_fetch addr (chainId r) before = false ->
  isStale_fetch addr (chainId r) after = false ->
  ParkourGame.getPlayerCount s <= MAX_UINT256 ->
  (forall p, p ∈ map row_address rows <-> ParkourGame.exists_ (ParkourGame.score_of s p) = true)
  /\ NoDup (map row_address rows)
  /\ Forall (fun row =>
               row_timestamp row
               = ParkourGame.timestamp (ParkourGame.score_of s (row_address row))
               /\ encryptedScoreHandle row
                  = ParkourGame.encryptedScore (ParkourGame.score_of s (row_address row)))
       rows
  /\ (forall x y, [x; y] `sublist_of` rows -> row_timestamp y <= row_timestamp x)
  /\ (forall x y, [x; y] `sublist_of` rows -> row_timestamp x = row_timestamp y ->
        [row_address x; row_address y] `sublist_of` ParkourGame._players s)
  /\ (forall i row, rows !! i = Some row -> rank row = Z.of_nat i + 1)
  /\ map (fun row => (row_address row, row_timestamp row)) rows
     = array_sort (fun a b => if snd b <? snd a then -1 else if snd a <? snd b then 1 else 0)
         (map (fun p => (p, ParkourGame.timestamp (ParkourGame.score_of s p)))
            (ParkourGame._players s)).
Proof.
  intros w s rows Ha Hp Hb Hb' Hlen.
  pose proof (LedgerInvariant.Repr_reachable this cs) as R. fold w in R.
  assert (Hrows : rows = ranked (array_sort compare_entries
                                   (map (HookSpec.entry_of s) (ParkourGame._players s)))).
  { subst rows s.
    by apply (ProjectionFacts.fetchLeaderboard_reading this w _ r addr pr before after h R). }
  set (ps := ParkourGame._players s) in *.
  set (E := map (HookSpec.entry_of s) ps) in *.
  set (E' := array_sort compare_entries E) in *.
  clearbody rows. subst rows.
  assert (HE' : E' ≡ₚ E) by apply SortFacts.array_sort_Permutation.
  assert (Haddr : map row_address (ranked E') = map entry_address E').
  { rewrite <- (ProjectionFacts.unrank_ranked E') at 2. by rewrite map_map. }
  assert (Hperm : map row_address (ranked E') ≡ₚ ps).
  { rewrite Haddr. change (map entry_address E') with (entry_address <$> E').
    rewrite HE'. apply reflexive_eq. apply ProjectionFacts.entry_address_of. }
  split; [| split; [| split; [| split; [| split; [| split]]]]].
  - intros p. rewrite Hperm. apply (LedgerSpec.repr_players _ _ _ R).
  - rewrite Hperm. apply (LedgerSpec.repr_nodup _ _ _ R).
  - apply Forall_forall. intros row Hin.
    assert (HinE : HookSpec.unrank row ∈ E).
    { rewrite <- HE', <- (ProjectionFacts.unrank_ranked E').
      apply list_elem_of_In, in_map, list_elem_of_In, Hin. }
    apply list_elem_of_In, in_map_iff in HinE as (p & Hrow & _).
    destruct row as [rk a hd t]. unfold HookSpec.unrank, HookSpec.entry_of in Hrow.
    simpl in *. by injection Hrow as <- <- <-.
  - intros x y Hsub. apply ProjectionFacts.ranked_pair in Hsub.
    apply (SortFacts.StronglySorted_pair _ _ _ _ (SortFacts.array_sort_sorted E) Hsub).
  - intros x y Hsub Heq. apply ProjectionFacts.ranked_pair in Hsub.
    apply SortFacts.array_sort_stable_pair in Hsub; [| done].
    apply (fmap_sublist entry_address) in Hsub.
    change (entry_address <$> E) with (map entry_address E) in Hsub.
    unfold E in Hsub. by rewrite ProjectionFacts.entry_address_of in Hsub.
  - apply ProjectionFacts.ranked_rank.
  - rewrite <- (ProjectionFacts.unrank_ranked E') at 1.
    transitivity (map (fun e => (entry_address e, entry_timestamp e)) E').
    { rewrite (ProjectionFacts.unrank_ranked E'). rewrite <- (ProjectionFacts.unrank_ranked E') at 2.
      by rewrite map_map. }
    unfold E'.
    rewrite (SortFacts.array_sort_map compare_entries
               (fun e => (entry_address e, entry_timestamp e))
               (fun a b => if snd b <? snd a then -1 else if snd a <? snd b then 1 else 0))
      by done.
    unfold E. by rewrite map_map.
Qed.

(** Three players; [10] and [13] last submitted at the same time. *)
Lemma leaderboard_is_existing_records_most_recent_first_witness :
  let cs := [ParkourGame.CallMint 10; ParkourGame.CallMint 11; ParkourGame.CallMint 13;
             ParkourGame.CallSubmit 10 100 (FHE.mk_input 50 true);
             ParkourGame.CallSubmit 10 200 (FHE.mk_input 30 true);
             ParkourGame.CallSubmit 11 150 (FHE.mk_input 80 true);
             ParkourGame.CallSubmit 13 200 (FHE.mk_input 1 true)] in
  let s := ParkourGame.storage (ParkourGame.run 99 ParkourGame.init cs) in
  let rows := leaderboard (hook (fetchLeaderboard Examples.render
                (reading (ParkourGame.run 99 ParkourGame.init cs)
                   Examples.unchanged Examples.unchanged) initial)) in
  map (fun row => (rank row, row_address row, row_timestamp row)) rows
  = [(1, 10, 200); (2, 13, 200); (3, 11, 150)]
  /\ (forall x y, [x; y] `sublist_of` rows -> row_timestamp y <= row_timestamp x)
  /\ (forall x y, [x; y] `sublist_of` rows -> row_timestamp x = row_timestamp y ->
        [row_address x; row_address y] `sublist_of` ParkourGame._players s).
Proof.
  intros cs s rows. split; [vm_compute; reflexivity |].
  destruct (leaderboard_is_existing_records_most_recent_first 99 cs Examples.render 99
              contract_runner Examples.unchanged Examples.unchanged initial)
    as (_ & _ & _ & Hsorted & Hstable & _).
  - reflexivity.
  - reflexivity.
  - vm_compute. reflexivity.
  - vm_compute. reflexivity.
  - vm_compute. discriminate.
  - split; [exact Hsorted | exact Hstable].
Defined.




(** * Further properties *)

(** ** The registry *)

Module RegistryFacts.
Import ParkourGame LedgerSpec RegistrySpec LedgerFacts.

(** A submission that goes through leaves the registry alone. *)
Lemma submitScore_frame this a t i w :
  tokens_of (storage w) a <> [] -> FHE.proof_ok i = true ->
  returns (submitScore this a t i) (fun _ w' => submitted_frame a w w') w.
Proof.
  intros Htok Hproof.
  unfold submitScore. tx_step. tx_step. tx_step.
  apply returns_require; [destruct (tokens_of (storage w) a); [done | reflexivity] |].
  tx_step. apply returns_fromExternal; [done |]. intros e f1 E1. cbn [storage fhe events].
  tx_step. tx_step. tx_step.
  destruct (exists_ (score_of (storage w) a)) eqn:Ex; cbn [negb].
  - tx_call c1 f2 G1. tx_call r1 f3 S1. tx_call c2 f4 G2. tx_call r2 f5 S2.
    repeat tx_step. by split.
  - repeat tx_step. cbn [_hasTopPlayer push_player set_playerScore].
    destruct (_hasTopPlayer (storage w)) eqn:Et; cbn [negb].
    + tx_call c2 f2 G2. tx_call r2 f3 S2. repeat tx_step. by split.
    + repeat tx_step. by split.
Qed.

(** What a mint does. *)
Lemma mintCharacter_effects a w :
  mintCharacter a w =
  if _tokenCounter (storage w) + 1 <=? MAX_UINT256
  then Ok (_tokenCounter (storage w) + 1,
           {| storage :=
                push_ownerToken a (_tokenCounter (storage w) + 1)
                  (set_character (_tokenCounter (storage w) + 1)
                     {| tokenId := _tokenCounter (storage w) + 1; owner := a;
                        char_exists := true |}
                     (set_tokenCounter (_tokenCounter (storage w) + 1) (storage w)));
              fhe := fhe w;
              events := events w ++ [CharacterMinted a (_tokenCounter (storage w) + 1)] |})
  else Revert (Panic 17).
Proof.
  unfold mintCharacter, bind, sload, lift, checked_add. simpl.
  by destruct (_ <=? _).
Qed.

Lemma exec_submit_frame this w a t i w' :
  exec this w (CallSubmit a t i) = (w', Success) -> submitted_frame a w w'.
Proof.
  unfold exec, transact. intros H.
  destruct (tokens_of (storage w) a) as [|tk tks] eqn:Et.
  { by rewrite submitScore_not_eligible in H. }
  destruct (FHE.proof_ok i) eqn:Ep.
  - assert (Htok : tokens_of (storage w) a <> []) by (by rewrite Et).
    destruct (returns_Ok _ _ _ (submitScore_frame this a t i w Htok Ep))
      as ([] & w1 & Hw & F).
    rewrite Hw in H. by injection H as <-.
  - rewrite submitScore_invalid_proof in H; [done | by rewrite Et | done].
Qed.

(** A call that reverts leaves the world as it was. *)
Lemma exec_reverted this w c e : snd (exec this w c) = Reverted e -> fst (exec this w c) = w.
Proof.
  destruct c as [a | a t i]; unfold exec, transact.
  - by destruct (mintCharacter a w) as [[? ?]|].
  - by destruct (submitScore this a t i w) as [[? ?]|].
Qed.

Lemma tokens_minted_by_app a first l1 l2 :
  tokens_minted_by a first (l1 ++ l2)
  = tokens_minted_by a first l1 ++ tokens_minted_by a (first + Z.of_nat (length l1)) l2.
Proof.
  revert first. induction l1 as [|b l1 IH]; intros first.
  - simpl. by rewrite Z.add_0_r.
  - cbn [app tokens_minted_by length]. rewrite IH.
    replace (first + 1 + Z.of_nat (length l1)) with (first + Z.of_nat (S (length l1))) by lia.
    by destruct (decide (b = a)).
Qed.

Lemma tokens_minted_by_elem a first ms t :
  t ∈ tokens_minted_by a first ms <->
  exists i : nat, ms !! i = Some a /\ t = first + Z.of_nat i.
Proof.
  revert first. induction ms as [|b ms IH]; intros first.
  - simpl. split; [by intros ?%elem_of_nil | by intros (i & ? & _)].
  - cbn [tokens_minted_by]. destruct (decide (b = a)) as [->|Hne].
    + rewrite elem_of_cons, IH. split.
      * intros [-> | (i & Hi & ->)]; [exists 0%nat | exists (S i)]; split; try done; lia.
      * intros ([|i] & Hi & ->); [left; lia | right; exists i; split; [done | lia]].
    + rewrite IH. split.
      * intros (i & Hi & ->). exists (S i). split; [done | lia].
      * intros ([|i] & Hi & ->); [by injection Hi | exists i; split; [done | lia]].
Qed.

Lemma tokens_minted_by_nil a first ms : tokens_minted_by a first ms = [] <-> a ∉ ms.
Proof.
  split.
  - intros E Hin. apply list_elem_of_lookup in Hin as [i Hi].
    assert (H : first + Z.of_nat i ∈ tokens_minted_by a first ms)
      by (apply tokens_minted_by_elem; eauto).
    rewrite E in H. by apply elem_of_nil in H.
  - intros Hn. destruct (tokens_minted_by a first ms) as [|t ts] eqn:E; [done |].
    assert (H : t ∈ tokens_minted_by a first ms) by (rewrite E; left).
    apply tokens_minted_by_elem in H as (i & Hi & _).
    exfalso. apply Hn. apply list_elem_of_lookup. eauto.
Qed.

Lemma RegRepr_init : RegRepr init [].
Proof. split; [done | done |]. intros t. unfold minter_of. simpl. by destruct (0 <? t). Qed.

Lemma RegRepr_exec this w ms c :
  RegRepr w ms -> RegRepr (fst (exec this w c)) (ms ++ minted_of this w c).
Proof.
  intros [Hc Ht Hch]. destruct c as [a | a t i].
  - unfold minted_of, exec, transact. rewrite mintCharacter_effects.
    destruct (Z.leb_spec (_tokenCounter (storage w) + 1) MAX_UINT256) as [Hle|Hgt];
      cbn [fst snd]; [| rewrite app_nil_r; by split].
    split; cbn [storage].
    + simpl. rewrite Hc, length_app. simpl. lia.
    + intros b. rewrite tokens_minted_by_app. cbn [tokens_minted_by].
      specialize (Ht b). unfold tokens_of in *. simpl. rewrite lookup_insert.
      destruct (decide (a = b)) as [->|Hne]; simpl.
      * unfold tokens_of. simpl. rewrite Ht, Hc. do 2 f_equal. lia.
      * rewrite ?decide_False by done. rewrite ?app_nil_r. apply Ht.
    + intros t. simpl. rewrite lookup_insert.
      destruct (decide (_tokenCounter (storage w) + 1 = t)) as [<-|Hne].
      * unfold minter_of. destruct (Z.ltb_spec 0 (_tokenCounter (storage w) + 1)); [| lia].
        replace (Z.to_nat (_tokenCounter (storage w) + 1 - 1)) with (length ms) by lia.
        by rewrite list_lookup_middle.
      * rewrite Hch. unfold minter_of. destruct (0 <? t) eqn:E0; [| done].
        apply Z.ltb_lt in E0.
        destruct (decide (Z.to_nat (t - 1) < length ms)%nat) as [Hlt|Hge].
        -- by rewrite lookup_app_l.
        -- rewrite !lookup_ge_None_2; [done | | lia]. rewrite length_app. simpl. lia.
  - unfold minted_of. rewrite app_nil_r.
    destruct (exec this w (CallSubmit a t i)) as [w' [|e]] eqn:E.
    + apply exec_submit_frame in E as [F1 F2 F3]. cbn [fst].
      split; [by rewrite F1 | | by rewrite F2].
      intros b. unfold tokens_of. rewrite F3. apply Ht.
    + pose proof (exec_reverted this w (CallSubmit a t i) e) as H.
      rewrite E in H. cbn [fst snd] in *. rewrite H by done. by split.
Qed.

Lemma RegRepr_run this w ms cs :
  RegRepr w ms -> RegRepr (run this w cs) (ms ++ mint_history this w cs).
Proof.
  revert w ms. induction cs as [|c cs IH]; intros w ms R.
  - simpl. by rewrite app_nil_r.
  - rewrite LedgerInvariant.run_cons. cbn [mint_history]. rewrite app_assoc.
    apply IH. by apply RegRepr_exec.
Qed.

Lemma RegRepr_reachable this cs : RegRepr (run this init cs) (mint_history this init cs).
Proof. apply (RegRepr_run this init []). apply RegRepr_init. Qed.

End RegistryFacts.

Import ParkourGame.

(** X1. After any trace of calls the registry is the list of the mints
    that went through: the counter is their number, the tokens of an
    owner are the positions (from 1) of its mints, in order, the character
    of a token names the sender of the mint of that rank, and
    [hasCharacter] answers with the first token the owner minted. *)
Theorem registry_is_mint_history (this : Z) (cs : list Call) :
  let s := storage (run this init cs) in
  let ms := RegistrySpec.mint_history this init cs in
  _tokenCounter s = Z.of_nat (length ms)
  /\ (forall a, getPlayerCharacters s a = RegistrySpec.tokens_minted_by a 1 ms)
  /\ (forall a, hasCharacter s a
                = match RegistrySpec.tokens_minted_by a 1 ms with
                  | t :: _ => (true, t)
                  | [] => (false, 0)
                  end)
  /\ (forall t, characters s !! t
                = (fun a => {| tokenId := t; owner := a; char_exists := true |})
                  <$> RegistrySpec.minter_of ms t).
Proof.
  intros s ms. destruct (RegistryFacts.RegRepr_reachable this cs) as [Hc Ht Hch].
  fold s ms in Hc, Ht, Hch.
  split; [done |]. split; [done |]. split; [| done].
  intros a. unfold hasCharacter. by rewrite Ht.
Qed.

Module RegistryFacts2.
Import ParkourGame RegistrySpec RegistryFacts.

Lemma tokens_minted_by_ge a first ms t : t ∈ tokens_minted_by a first ms -> first <= t.
Proof. rewrite tokens_minted_by_elem. intros (i & _ & ->). lia. Qed.

Lemma tokens_minted_by_NoDup a first ms : NoDup (tokens_minted_by a first ms).
Proof.
  revert first. induction ms as [|b ms IH]; intros first; [constructor |].
  cbn [tokens_minted_by]. destruct (decide (b = a)); [| apply IH].
  constructor; [| apply IH]. intros Hin%tokens_minted_by_ge. lia.
Qed.

Lemma minter_of_Some ms t a :
  minter_of ms t = Some a <-> exists i : nat, ms !! i = Some a /\ t = 1 + Z.of_nat i.
Proof.
  unfold minter_of. destruct (Z.ltb_spec 0 t) as [Hpos|Hneg].
  - split.
    + intros H. exists (Z.to_nat (t - 1)). split; [done | lia].
    + intros (i & Hi & ->). by replace (Z.to_nat (1 + Z.of_nat i - 1)) with i by lia.
  - split; [done |]. intros (i & _ & ->). lia.
Qed.

End RegistryFacts2.

(** X2. After any trace of calls the two mappings of the registry agree:
    a token is in the list of an owner exactly when its character names
    that owner; the tokens in existence are those from 1 to the counter;
    no list holds a token twice and no token is in the lists of two
    owners. *)
Theorem tokens_have_exactly_one_owner (this : Z) (cs : list Call) :
  let s := storage (run this init cs) in
  (forall a t, t ∈ getPlayerCharacters s a
               <-> characters s !! t = Some {| tokenId := t; owner := a; char_exists := true |})
  /\ (forall t, is_Some (characters s !! t) <-> 1 <= t <= _tokenCounter s)
  /\ (forall a, NoDup (getPlayerCharacters s a))
  /\ (forall a b t, t ∈ getPlayerCharacters s a -> t ∈ getPlayerCharacters s b -> a = b).
Proof.
  intros s. destruct (RegistryFacts.RegRepr_reachable this cs) as [Hc Ht Hch].
  fold s in Hc, Ht, Hch. set (ms := RegistrySpec.mint_history this init cs) in *.
  assert (Hown : forall a t, t ∈ getPlayerCharacters s a
            <-> characters s !! t = Some {| tokenId := t; owner := a; char_exists := true |}).
  { intros a t. unfold getPlayerCharacters. rewrite Ht, Hch.
    rewrite RegistryFacts.tokens_minted_by_elem. rewrite <- RegistryFacts2.minter_of_Some.
    destruct (RegistrySpec.minter_of ms t) as [b|]; simpl; [| done].
    split; [by intros [= ->] | by intros [= ->]]. }
  split; [exact Hown |]. split; [| split].
  - intros t. rewrite Hch, Hc. unfold RegistrySpec.minter_of.
    destruct (Z.ltb_spec 0 t) as [Hpos|Hneg].
    + rewrite fmap_is_Some, lookup_lt_is_Some. lia.
    + simpl. split; [by intros [? ?] | lia].
  - intros a. unfold getPlayerCharacters. rewrite Ht.
    apply RegistryFacts2.tokens_minted_by_NoDup.
  - intros a b t Ha Hb. apply Hown in Ha, Hb. rewrite Ha in Hb. by injection Hb.
Qed.

Lemma tokens_have_exactly_one_owner_witness :
  let s := storage (run 99 init [CallMint 10; CallMint 11; CallMint 10]) in
  getPlayerCharacters s 10 = [1; 3] /\ getPlayerCharacters s 11 = [2]
  /\ (forall a b t, t ∈ getPlayerCharacters s a -> t ∈ getPlayerCharacters s b -> a = b).
Proof.
  intros s. split; [reflexivity |]. split; [reflexivity |].
  exact (proj2 (proj2 (proj2
    (tokens_have_exactly_one_owner 99 [CallMint 10; CallMint 11; CallMint 10])))).
Defined.

(** X3. On every world the contract can reach, what a submission gets
    is decided by two things only: it reverts with the eligibility error
    when its sender never minted, with the proof error when the sender
    minted and the proof is refused, and it succeeds otherwise. A
    principal that minted once stays eligible for good. *)
Theorem submit_succeeds_iff_minted (this : Z) (cs : list Call) (a t : Z)
    (i : FHE.ExternalInput) :
  snd (exec this (run this init cs) (CallSubmit a t i))
  = if decide (a ∈ RegistrySpec.mint_history this init cs)
    then if FHE.proof_ok i then Success else Reverted InvalidProof
    else Reverted NotEligible.
Proof.
  pose proof (LedgerInvariant.Repr_reachable this cs) as R.
  destruct (RegistryFacts.RegRepr_reachable this cs) as [_ Ht _].
  specialize (Ht a).
  destruct (LedgerInvariant.exec_submit_cases this _ _ a t i R)
    as [[-> Hn] | [[-> [Hy Hp]] | (w' & -> & Hy & Hp & _)]]; cbn [snd].
  - rewrite Hn in Ht. symmetry in Ht. apply RegistryFacts.tokens_minted_by_nil in Ht.
    by rewrite decide_False.
  - rewrite Hp, decide_True; [done |].
    destruct (decide (a ∈ RegistrySpec.mint_history this init cs)) as [|Hn]; [done |].
    apply (RegistryFacts.tokens_minted_by_nil a 1) in Hn. congruence.
  - rewrite Hp, decide_True; [done |].
    destruct (decide (a ∈ RegistrySpec.mint_history this init cs)) as [|Hn]; [done |].
    apply (RegistryFacts.tokens_minted_by_nil a 1) in Hn. congruence.
Qed.

(** ** Invariants along a trace *)

Module TraceFacts.
Import ParkourGame LedgerSpec RegistrySpec LedgerFacts LedgerInvariant RegistryFacts.

(** The three ways a call can go. *)
Lemma exec_cases this w hist c :
  Repr this w hist ->
  (exists e, exec this w c = (w, Reverted e)
     /\ accepted_of this w c = [] /\ minted_of this w c = [])
  \/ (exists a, c = CallMint a
        /\ _tokenCounter (storage w) + 1 <= MAX_UINT256
        /\ exec this w c
           = ({| storage :=
                   push_ownerToken a (_tokenCounter (storage w) + 1)
                     (set_character (_tokenCounter (storage w) + 1)
                        {| tokenId := _tokenCounter (storage w) + 1; owner := a;
                           char_exists := true |}
                        (set_tokenCounter (_tokenCounter (storage w) + 1) (storage w)));
                 fhe := fhe w;
                 events := events w ++ [CharacterMinted a (_tokenCounter (storage w) + 1)] |},
              Success)
        /\ accepted_of this w c = [] /\ minted_of this w c = [a])
  \/ (exists a t i w', c = CallSubmit a t i
        /\ exec this w c = (w', Success)
        /\ accepted_of this w c
           = [ {| sub_sender := a; sub_time := t; sub_value := FHE.plain_of i |} ]
        /\ minted_of this w c = []
        /\ submitted this a t i w w' /\ submitted_frame a w w').
Proof.
  intros R. destruct c as [a | a t i].
  - unfold accepted_of, minted_of, exec, transact. rewrite mintCharacter_effects.
    destruct (Z.leb_spec (_tokenCounter (storage w) + 1) MAX_UINT256) as [Hle|Hgt].
    + right. left. exists a. cbn [snd]. done.
    + left. exists (Panic 17). done.
  - destruct (exec_submit_cases this w hist a t i R)
      as [[E _] | [[E _] | (w' & E & _ & _ & S)]].
    + left. exists NotEligible. unfold accepted_of, minted_of. by rewrite E.
    + left. exists InvalidProof. unfold accepted_of, minted_of. by rewrite E.
    + right. right. exists a, t, i, w'. unfold accepted_of, minted_of. rewrite E.
      cbn [snd]. pose proof (exec_submit_frame this w a t i w' E) as F. done.
Qed.

(** What holds at the start and is kept by every call holds after
    every trace. *)
Lemma trace_invariant this (Inv : World -> list Submission -> list Z -> Prop) :
  Inv init [] [] ->
  (forall w hist ms c,
     Repr this w hist -> RegRepr w ms -> Inv w hist ms ->
     Inv (fst (exec this w c)) (hist ++ accepted_of this w c) (ms ++ minted_of this w c)) ->
  forall cs, Inv (run this init cs) (history this init cs) (mint_history this init cs).
Proof.
  intros Hinit Hstep cs.
  assert (H : forall w hist ms,
             Repr this w hist -> RegRepr w ms -> Inv w hist ms ->
             Inv (run this w cs) (hist ++ history this w cs) (ms ++ mint_history this w cs)).
  { induction cs as [|c cs IH]; intros w hist ms R G I.
    - simpl. by rewrite !app_nil_r.
    - rewrite run_cons. cbn [history mint_history]. rewrite !app_assoc.
      apply IH; [by apply Repr_exec | by apply RegRepr_exec | by apply Hstep]. }
  apply (H init [] []); [apply Repr_init | apply RegRepr_init | done].
Qed.

Lemma first_seen_snoc l a :
  first_seen (l ++ [a])
  = if decide (a ∈ first_seen l) then first_seen l else first_seen l ++ [a].
Proof. unfold first_seen. by rewrite fold_left_app. Qed.

Lemma first_seen_elem l a : a ∈ first_seen l <-> a ∈ l.
Proof.
  induction l as [|b l IH] using rev_ind; [done |].
  rewrite first_seen_snoc, elem_of_app, list_elem_of_singleton.
  destruct (decide (b ∈ first_seen l)) as [Hin|Hn].
  - rewrite IH. split; [tauto |]. intros [? | ->]; [done | by apply IH].
  - rewrite elem_of_app, list_elem_of_singleton, IH. tauto.
Qed.

Lemma first_seen_NoDup l : NoDup (first_seen l).
Proof.
  induction l as [|b l IH] using rev_ind; [constructor |].
  rewrite first_seen_snoc. destruct (decide (b ∈ first_seen l)) as [Hin|Hn]; [done |].
  apply NoDup_app. split; [done |]. split; [| apply NoDup_singleton].
  intros x Hx Hb. apply list_elem_of_singleton in Hb. by subst.
Qed.

(** The players list is the senders of the accepted submissions, each
    at its first occurrence. *)
Lemma players_first_seen this cs :
  _players (storage (run this init cs))
  = first_seen (map sub_sender (history this init cs)).
Proof.
  apply (trace_invariant this
           (fun w hist _ => _players (storage w) = first_seen (map sub_sender hist)));
    [done |].
  intros w hist ms c R _ I.
  destruct (exec_cases this w hist c R)
    as [(e & -> & -> & _) | [(a & -> & _ & -> & -> & _)
       | (a & t & i & w' & -> & -> & -> & _ & S & _)]]; cbn [fst].
  - by rewrite app_nil_r.
  - by rewrite app_nil_r.
  - rewrite map_app. cbn [map sub_sender]. rewrite first_seen_snoc, <- I.
    rewrite (sub_players _ _ _ _ _ _ S).
    destruct (exists_ (score_of (storage w) a)) eqn:Ex.
    + rewrite decide_True; [done |]. by apply (repr_players _ _ _ R).
    + rewrite decide_False; [done |]. intros Hin%(repr_players _ _ _ R). congruence.
Qed.

End TraceFacts.

(** X4. After any trace of calls the players list is the list of the
    principals whose submission was accepted at least once, each once, in
    the order of their first accepted submission; the player count is its
    length, and reverted submissions and later submissions of a known
    player add nothing to it. *)
Theorem players_are_first_submitters_in_order (this : Z) (cs : list Call) :
  let s := storage (run this init cs) in
  let senders := map sub_sender (history this init cs) in
  getAllPlayers s = RegistrySpec.first_seen senders
  /\ getPlayerCount s = Z.of_nat (length (RegistrySpec.first_seen senders))
  /\ NoDup (getAllPlayers s)
  /\ (forall p, p ∈ getAllPlayers s <-> p ∈ senders)
  /\ (forall p, p ∈ getAllPlayers s <-> snd (getPlayerScore s p) = true).
Proof.
  intros s senders. pose proof (TraceFacts.players_first_seen this cs) as H.
  fold s senders in H. unfold getAllPlayers, getPlayerCount. rewrite H.
  split; [done |]. split; [done |]. split; [apply TraceFacts.first_seen_NoDup |].
  split; [intros p; apply TraceFacts.first_seen_elem |].
  intros p. rewrite <- H. apply (LedgerSpec.repr_players _ _ _ (LedgerInvariant.Repr_reachable this cs)).
Qed.

Module OrderFacts.
Import ParkourGame LedgerSpec RegistrySpec LedgerFacts LedgerInvariant RegistryFacts TraceFacts.

Lemma is_max_le_app m m' l l' : is_max m l -> is_max m' (l ++ l') -> m <= m'.
Proof.
  intros [Hin _] [_ Hall]. rewrite Forall_forall in Hall. apply Hall.
  apply elem_of_app. by left.
Qed.

Lemma is_max_le_sub m m' l k : is_max m l -> is_max m' k -> l ⊆ k -> m <= m'.
Proof.
  intros [Hin _] [_ Hall] Hsub. rewrite Forall_forall in Hall. apply Hall, Hsub, Hin.
Qed.

Lemma by_sender_app p h h' : by_sender p (h ++ h') = by_sender p h ++ by_sender p h'.
Proof. unfold by_sender. apply filter_app. Qed.

Lemma decrypt_score_is_max this w hist p :
  Repr this w hist -> by_sender p hist <> [] ->
  is_max (decrypt_score w p) (values (by_sender p hist)).
Proof.
  intros R Hne. destruct (repr_some _ _ _ R p Hne) as [_ (v & Hv & Hmax) _ _ _].
  unfold decrypt_score. by rewrite (FHEFacts.decrypt32_lookup _ _ _ Hv).
Qed.

Lemma decrypt_max_is_max this w hist :
  Repr this w hist -> hist <> [] -> is_max (decrypt_max w) (values hist).
Proof.
  intros R Hne. destruct (repr_max _ _ _ R Hne) as [_ _ (v & Hv & Hmax) _].
  unfold decrypt_max. by rewrite (FHEFacts.decrypt32_lookup _ _ _ Hv).
Qed.

(** The store, the grants and the event log only grow. *)
Lemma exec_grows this w hist c :
  Repr this w hist ->
  (forall h v, FHE.lookup (fhe w) h = Some v ->
               FHE.lookup (fhe (fst (exec this w c))) h = Some v)
  /\ FHE.acl (fhe w) ⊆ FHE.acl (fhe (fst (exec this w c)))
  /\ events w `prefix_of` events (fst (exec this w c)).
Proof.
  intros R.
  destruct (exec_cases this w hist c R)
    as [(e & -> & _) | [(a & -> & _ & -> & _)
       | (a & t & i & w' & -> & -> & _ & _ & S & _)]]; cbn [fst fhe events].
  - done.
  - split; [done |]. split; [done |]. by apply prefix_app_r.
  - split; [apply (sub_store _ _ _ _ _ _ S) |]. split.
    + rewrite (sub_acl _ _ _ _ _ _ S). set_solver.
    + rewrite (sub_events _ _ _ _ _ _ S). by apply prefix_app_r.
Qed.

Lemma run_grows this w hist cs :
  Repr this w hist ->
  (forall h v, FHE.lookup (fhe w) h = Some v ->
               FHE.lookup (fhe (run this w cs)) h = Some v)
  /\ FHE.acl (fhe w) ⊆ FHE.acl (fhe (run this w cs))
  /\ events w `prefix_of` events (run this w cs).
Proof.
  revert w hist. induction cs as [|c cs IH]; intros w hist R; [done |].
  rewrite run_cons.
  destruct (exec_grows this w hist c R) as (H1 & H2 & H3).
  destruct (IH _ _ (Repr_exec this w hist c R)) as (I1 & I2 & I3).
  split; [auto |]. split; [intros x Hx; apply I2, H2, Hx | by etrans].
Qed.

End OrderFacts.

(** X5. Along any trace the plaintext behind a record never goes down,
    the plaintext behind the max state never goes down, and no record
    decrypts above the max state. *)
Theorem scores_and_max_never_decrease (this : Z) (cs cs' : list Call) (p : Z) :
  let w := run this init cs in
  let w' := run this init (cs ++ cs') in
  by_sender p (history this init cs) <> [] ->
  decrypt_score w p <= decrypt_score w' p
  /\ decrypt_max w <= decrypt_max w'
  /\ decrypt_score w p <= decrypt_max w.
Proof.
  intros w w' Hp.
  pose proof (LedgerInvariant.Repr_reachable this cs) as R.
  pose proof (LedgerInvariant.Repr_reachable this (cs ++ cs')) as R'.
  assert (Hne : history this init cs <> []) by (intros E; by rewrite E in Hp).
  rewrite LedgerInvariant.history_app in R'.
  pose proof (OrderFacts.decrypt_score_is_max _ _ _ p R Hp) as M1.
  pose proof (OrderFacts.decrypt_max_is_max _ _ _ R Hne) as M2.
  assert (Hp' : by_sender p (history this init cs ++ history this (run this init cs) cs') <> []).
  { rewrite OrderFacts.by_sender_app. by destruct (by_sender p (history this init cs)). }
  pose proof (OrderFacts.decrypt_score_is_max _ _ _ p R' Hp') as M1'.
  assert (Hne' : history this init cs ++ history this (run this init cs) cs' <> [])
    by (by destruct (history this init cs)).
  pose proof (OrderFacts.decrypt_max_is_max _ _ _ R' Hne') as M2'.
  unfold LedgerSpec.values in *.
  rewrite OrderFacts.by_sender_app, map_app in M1'. rewrite map_app in M2'.
  split; [exact (OrderFacts.is_max_le_app _ _ _ _ M1 M1') |].
  split; [exact (OrderFacts.is_max_le_app _ _ _ _ M2 M2') |].
  apply (OrderFacts.is_max_le_sub _ _ _ _ M1 M2).
  intros v Hv. apply list_elem_of_In, in_map_iff in Hv as (s & <- & Hs).
  apply list_elem_of_In, in_map. apply list_elem_of_In in Hs.
  apply list_elem_of_In. unfold by_sender in Hs. by apply list_elem_of_filter in Hs as [_ ?].
Qed.

Lemma scores_and_max_never_decrease_witness :
  let cs := [CallMint 10; CallMint 11; CallSubmit 10 100 (FHE.mk_input 50 true)] in
  let cs' := [CallSubmit 10 200 (FHE.mk_input 30 true);
              CallSubmit 11 150 (FHE.mk_input 80 true)] in
  decrypt_score (run 99 init cs) 10 <= decrypt_score (run 99 init (cs ++ cs')) 10
  /\ decrypt_max (run 99 init cs) <= decrypt_max (run 99 init (cs ++ cs'))
  /\ decrypt_score (run 99 init cs) 10 <= decrypt_max (run 99 init cs).
Proof.
  intros cs cs'. apply (scores_and_max_never_decrease 99 cs cs' 10).
  vm_compute. discriminate.
Defined.

(** X6. Nothing is ever taken back: along any trace a handle the
    co-processor issued keeps its plaintext, a grant once given stays,
    and the event log is only appended to. *)
Theorem store_grants_and_events_only_grow (this : Z) (cs cs' : list Call) :
  let w := run this init cs in
  let w' := run this init (cs ++ cs') in
  (forall h v, FHE.lookup (fhe w) h = Some v -> FHE.lookup (fhe w') h = Some v)
  /\ (forall h q, FHE.isAllowed (fhe w) h q = true -> FHE.isAllowed (fhe w') h q = true)
  /\ events w `prefix_of` events w'.
Proof.
  intros w w'. subst w w'. rewrite LedgerInvariant.run_app.
  destruct (OrderFacts.run_grows this _ _ cs' (LedgerInvariant.Repr_reachable this cs))
    as (H1 & H2 & H3).
  split; [exact H1 |]. split; [| exact H3].
  intros h q. unfold FHE.isAllowed. rewrite !bool_decide_eq_true. apply H2.
Qed.

Lemma store_grants_and_events_only_grow_witness :
  let cs := [CallMint 10; CallSubmit 10 100 (FHE.mk_input 50 true)] in
  let cs' := [CallSubmit 10 200 (FHE.mk_input 70 true)] in
  FHE.lookup (fhe (run 99 init (cs ++ cs'))) 1 = Some (FHE.VU32 50)
  /\ FHE.isAllowed (fhe (run 99 init (cs ++ cs'))) 1 10 = true.
Proof.
  intros cs cs'.
  destruct (store_grants_and_events_only_grow 99 cs cs') as (H1 & H2 & _).
  split; [apply H1 | apply H2]; vm_compute; reflexivity.
Defined.

(** ** Who holds a grant *)

Module GrantFacts.
Import ParkourGame LedgerSpec RegistrySpec LedgerFacts LedgerInvariant RegistryFacts TraceFacts.

Lemma GrantRepr_init this : GrantRepr this init [] [] [].
Proof.
  split; [| done | done | done]. intros h q. simpl. split.
  - by intros ?%elem_of_empty.
  - intros [H | (_ & [H | H])]; by apply elem_of_nil in H.
Qed.

(** A call that grants nothing. *)
Lemma GrantRepr_same this w w' hist own maxes :
  fhe w' = fhe w -> playerScores (storage w') = playerScores (storage w) ->
  _maxEncryptedScore (storage w') = _maxEncryptedScore (storage w) ->
  GrantRepr this w hist own maxes -> GrantRepr this w' hist own maxes.
Proof.
  intros Hf Hs Hm [Ga Go Gm Gs].
  assert (Hsc : forall p, score_of (storage w') p = score_of (storage w) p)
    by (intros p; unfold score_of; by rewrite Hs).
  split.
  - intros h q. rewrite Hf. apply Ga.
  - intros p. rewrite !Hsc. apply Go.
  - rewrite Hm. apply Gm.
  - done.
Qed.

Lemma GrantRepr_submit this w hist own maxes a t i w' :
  GrantRepr this w hist own maxes -> submitted this a t i w w' ->
  GrantRepr this w'
    (hist ++ [ {| sub_sender := a; sub_time := t; sub_value := FHE.plain_of i |} ])
    (own ++ [(a, encryptedScore (score_of (storage w') a))])
    (maxes ++ [_maxEncryptedScore (storage w')]).
Proof.
  intros [Ga Go Gm Gs] S. split.
  - intros h q. rewrite (sub_acl _ _ _ _ _ _ S), !elem_of_union, !elem_of_singleton, Ga.
    rewrite map_app, !elem_of_app, !list_elem_of_singleton. cbn [map snd].
    rewrite list_elem_of_singleton. split.
    + intros [[[[H | (Hq & [H | H])] | E] | E] | E]; try injection E as -> ->; tauto.
    + intros [[H | E] | (-> & [[H | ->] | [H | ->]])]; try injection E as -> ->; tauto.
  - intros p Hex. apply elem_of_app. destruct (decide (p = a)) as [->|Hne].
    + right. by apply list_elem_of_singleton.
    + left. rewrite (sub_others _ _ _ _ _ _ S p Hne) in *. by apply Go.
  - intros _. apply elem_of_app. right. by apply list_elem_of_singleton.
  - by rewrite !map_app, Gs.
Qed.

Lemma GrantRepr_exec this w hist own maxes c :
  Repr this w hist -> GrantRepr this w hist own maxes ->
  GrantRepr this (fst (exec this w c)) (hist ++ accepted_of this w c)
    (own ++ granted_of this w c) (maxes ++ maxed_of this w c).
Proof.
  intros R G. unfold granted_of, maxed_of.
  destruct (exec_cases this w hist c R)
    as [(e & E & -> & _) | [(a & -> & _ & E & -> & _)
       | (a & t & i & w' & -> & E & -> & _ & S & _)]]; rewrite E; cbn [fst snd].
  - destruct c; rewrite ?E, !app_nil_r; done.
  - rewrite !app_nil_r. by apply (GrantRepr_same this w).
  - by apply (GrantRepr_submit this w).
Qed.

Lemma GrantRepr_run this w hist own maxes cs :
  Repr this w hist -> GrantRepr this w hist own maxes ->
  GrantRepr this (run this w cs) (hist ++ history this w cs)
    (own ++ own_grants this w cs) (maxes ++ max_grants this w cs).
Proof.
  revert w hist own maxes. induction cs as [|c cs IH]; intros w hist own maxes R G.
  - simpl. by rewrite !app_nil_r.
  - rewrite run_cons. cbn [history own_grants max_grants]. rewrite !app_assoc.
    apply IH; [by apply Repr_exec | by apply GrantRepr_exec].
Qed.

Lemma GrantRepr_reachable this cs :
  GrantRepr this (run this init cs) (history this init cs)
    (own_grants this init cs) (max_grants this init cs).
Proof. apply (GrantRepr_run this init [] [] []); [apply Repr_init | apply GrantRepr_init]. Qed.

End GrantFacts.

(** X7. After any trace of calls the grant set is what the accepted
    submissions gave, and nothing else: each accepted submission gives
    its sender and the contract a grant on the handle the record of the
    sender holds when the call returns, and the contract a grant on the
    max handle. So a principal other than the contract holds a grant on
    a handle only if that handle was the handle of its own record at the
    return of one of its own accepted submissions; the record of every
    player holds such a handle; mints and reverted calls give nothing. *)
Theorem grants_are_to_the_contract_or_to_the_sender_on_its_own_record
    (this : Z) (cs : list Call) :
  let w := run this init cs in
  let own := RegistrySpec.own_grants this init cs in
  let maxes := RegistrySpec.max_grants this init cs in
  (forall h q, FHE.isAllowed (fhe w) h q = true
               <-> (q, h) ∈ own \/ (q = this /\ (h ∈ map snd own \/ h ∈ maxes)))
  /\ (forall p, ParkourGame.exists_ (score_of (storage w) p) = true ->
        (p, ParkourGame.encryptedScore (score_of (storage w) p)) ∈ own)
  /\ (history this init cs <> [] -> _maxEncryptedScore (storage w) ∈ maxes)
  /\ map fst own = map sub_sender (history this init cs)
  /\ length maxes = length (history this init cs).
Proof.
  intros w own maxes.
  destruct (GrantFacts.GrantRepr_reachable this cs) as [Ga Go Gm Gs].
  split; [| split; [done | split; [done | split; [done |]]]].
  - intros h q. unfold FHE.isAllowed. rewrite bool_decide_eq_true. apply Ga.
  - subst maxes. clear. generalize init. induction cs as [|c cs IH]; intros w0; [done |].
    cbn [RegistrySpec.max_grants history]. rewrite !length_app, IH. f_equal.
    unfold RegistrySpec.maxed_of, accepted_of.
    destruct c as [a | a t i]; [done |].
    by destruct (exec this w0 (CallSubmit a t i)) as [w1 [|e]].
Qed.

(** Two players and a submission refused for its proof. *)
Lemma grants_are_to_the_contract_or_to_the_sender_on_its_own_record_witness :
  let cs := [CallMint 10; CallMint 11;
             CallSubmit 10 100 (FHE.mk_input 50 true);
             CallSubmit 11 120 (FHE.mk_input 70 false);
             CallSubmit 11 150 (FHE.mk_input 80 true)] in
  let w := run 99 init cs in
  map fst (RegistrySpec.own_grants 99 init cs) = [10; 11]
  /\ FHE.isAllowed (fhe w) (ParkourGame.encryptedScore (score_of (storage w) 11)) 11 = true
  /\ FHE.isAllowed (fhe w) (ParkourGame.encryptedScore (score_of (storage w) 11)) 99 = true
  /\ FHE.isAllowed (fhe w) (_maxEncryptedScore (storage w)) 99 = true.
Proof.
  intros cs w.
  destruct (grants_are_to_the_contract_or_to_the_sender_on_its_own_record 99 cs)
    as (Ha & Ho & Hm & Hs & _).
  assert (Hex : ParkourGame.exists_ (score_of (storage w) 11) = true) by (vm_compute; reflexivity).
  split; [rewrite Hs; vm_compute; reflexivity |].
  split; [apply Ha; left; by apply Ho |].
  split.
  - apply Ha. right. split; [done |]. left.
    apply (list_elem_of_fmap_2 snd _ _ (Ho 11 Hex)).
  - apply Ha. right. split; [done |]. right. apply Hm. vm_compute. discriminate.
Defined.

(** ** The event log, the records and the reach of a call *)

Module EventFacts.
Import ParkourGame LedgerSpec RegistrySpec LedgerFacts LedgerInvariant RegistryFacts TraceFacts.

Lemma minted_events_snoc ms a :
  minted_events (ms ++ [a]) = minted_events ms ++ [(a, Z.of_nat (length ms) + 1)].
Proof. unfold minted_events. rewrite imap_app. simpl. by rewrite Nat.add_0_r. Qed.

Lemma EventsRepr_reachable this cs :
  EventsRepr (run this init cs) (history this init cs) (mint_history this init cs).
Proof.
  apply (trace_invariant this EventsRepr).
  - split; try done. intros p r H. by apply elem_of_nil in H.
  - intros w hist ms c R G [Em Es En El].
    destruct (exec_cases this w hist c R)
      as [(e & -> & -> & ->) | [(a & -> & _ & -> & -> & ->)
         | (a & t & i & w' & -> & -> & -> & -> & S & _)]]; cbn [fst].
    + rewrite !app_nil_r. by split.
    + rewrite app_nil_r. split; cbn [events].
      * rewrite omap_app, Em, minted_events_snoc. simpl.
        by rewrite (reg_counter _ _ G).
      * rewrite omap_app, Es. simpl. by rewrite app_nil_r.
      * intros p r [H|H]%elem_of_app; [by apply (En p r) |].
        by apply list_elem_of_singleton in H.
      * rewrite !length_app. simpl. lia.
    + rewrite app_nil_r. split; rewrite (sub_events _ _ _ _ _ _ S).
      * rewrite omap_app, Em. simpl. by rewrite app_nil_r.
      * rewrite omap_app, Es. unfold submitted_events. by rewrite map_app.
      * intros p r [H|H]%elem_of_app; [by apply (En p r) |].
        by apply list_elem_of_singleton in H.
      * rewrite !length_app. simpl. lia.
Qed.

Lemma RecordsRepr_reachable this cs :
  RecordsRepr (run this init cs) (history this init cs).
Proof.
  apply (trace_invariant this (fun w hist _ => RecordsRepr w hist)).
  - by split.
  - intros w hist ms c R _ [Hn].
    destruct (exec_cases this w hist c R)
      as [(e & -> & -> & _) | [(a & -> & _ & -> & -> & _)
         | (a & t & i & w' & -> & -> & -> & _ & S & F)]]; cbn [fst].
    + rewrite app_nil_r. by split.
    + rewrite app_nil_r. by split.
    + split. intros p. rewrite by_sender_snoc. cbn [sub_sender].
      destruct (decide (a = p)) as [->|Hne]; [by destruct (by_sender p hist) |].
      intros H. rewrite (sub_others _ _ _ _ _ _ S) by congruence. by apply Hn.
Qed.

Lemma by_sender_nil p hist : by_sender p hist = [] <-> p ∉ map sub_sender hist.
Proof.
  unfold by_sender. induction hist as [|s hist IH]; [split; [intros _ H; by apply elem_of_nil in H | done] |].
  rewrite filter_cons. cbn [map]. rewrite not_elem_of_cons.
  destruct (decide (sub_sender s = p)) as [E|E]; [split; [done | intros [? _]; congruence] |].
  rewrite IH. split; [intros H; split; [congruence | done] | tauto].
Qed.

End EventFacts.

(** X9. After any trace of calls the event log holds one
    [CharacterMinted] for each mint that went through, in order and with
    the token ids 1, 2, 3, ..., one [ScoreSubmitted] for each accepted
    submission, in order and with its sender and timestamp, and nothing
    else: a reverted call leaves no event, and [LeaderboardUpdated] is
    never emitted. *)
Theorem event_log_is_the_accepted_calls (this : Z) (cs : list Call) :
  let w := run this init cs in
  omap RegistrySpec.mint_event (events w)
  = RegistrySpec.minted_events (RegistrySpec.mint_history this init cs)
  /\ omap RegistrySpec.score_event (events w)
     = RegistrySpec.submitted_events (history this init cs)
  /\ (forall p r, LeaderboardUpdated p r ∉ events w)
  /\ length (events w)
     = (length (RegistrySpec.mint_history this init cs) + length (history this init cs))%nat.
Proof.
  intros w. destruct (EventFacts.EventsRepr_reachable this cs) as [H1 H2 H3 H4]. done.
Qed.

(** X10. A principal without an accepted submission has no record, in
    the contract and in the hook: after any trace of calls
    [getPlayerScore] answers the zero record for it (handle 0, timestamp
    0, no record), and a run of [decryptScore] by a signer with that
    address, reading the contract at that state, makes the two reads and
    stops there: the oracle is not asked, no signature is loaded, the
    score shown is left as it was, the message is [No score found for
    this player] and the flags are released. *)
Theorem principal_without_a_submission_has_no_score
    (this : Z) (cs : list ParkourGame.Call) (r : Render) (h : Hook) (user addr : Z)
    (signer : Signer) (inst : FhevmInstance) (pr : ContractRunner)
    (sig : option DecryptionSignature) (before after : Ambient) :
  let w := ParkourGame.run this ParkourGame.init cs in
  let c := decryptScore r
             (PipelineSpec.decrypt_reading w (ethersReadonlyProvider r) user sig before after)
             h in
  user ∉ map ParkourGame.sub_sender (ParkourGame.history this ParkourGame.init cs) ->
  ParkourGame.getPlayerScore (ParkourGame.storage w) user = (0, 0, false)
  /\ (parkourGame_address r = Some addr -> instance r = Some inst ->
      ethersSigner r = Some signer -> ethersReadonlyProvider r = Some pr ->
      isDecryptingRef h = false ->
      log c = [GetAddress; GetPlayerScore user]
      /\ playerScore (hook c) = playerScore h
      /\ message (hook c) = "No score found for this player"
      /\ isDecryptingRef (hook c) = false /\ isDecrypting (hook c) = false).
Proof.
  intros w c Hp%EventFacts.by_sender_nil.
  destruct (EventFacts.RecordsRepr_reachable this cs) as [Hn].
  assert (Hz : ParkourGame.getPlayerScore (ParkourGame.storage w) user = (0, 0, false))
    by (unfold ParkourGame.getPlayerScore, w; by rewrite (Hn user Hp)).
  split; [exact Hz |].
  intros Ha Hi Hs Hpr Hr. subst c.
  unfold decryptScore, decryptScore_begin. rewrite Hr, Ha, Hi, Hs, Hpr.
  unfold decryptScore_run, try_catch_finally, await, check, PipelineSpec.decrypt_reading.
  cbn [de_getAddress de_getPlayerScore de_loadOrSign de_before de_userDecrypt de_after
       thisParkourGameAddress thisChainId thisEthersSigner].
  repeat ProjectionFacts.async_step. rewrite Hz. done.
Qed.

(** Signer [11] has a character and no accepted submission. *)
Lemma principal_without_a_submission_has_no_score_witness :
  let cs := [ParkourGame.CallMint 10; ParkourGame.CallMint 11;
             ParkourGame.CallSubmit 10 100 (FHE.mk_input 50 true);
             ParkourGame.CallSubmit 11 120 (FHE.mk_input 70 false)] in
  let w := ParkourGame.run 99 ParkourGame.init cs in
  let c := decryptScore Examples.render
             (PipelineSpec.decrypt_reading w (Some contract_runner) 11
                (Some Examples.session) Examples.unchanged Examples.unchanged)
             initial in
  ParkourGame.getPlayerScore (ParkourGame.storage w) 11 = (0, 0, false)
  /\ message (hook c) = "No score found for this player"
  /\ oracle_calls (log c) = [].
Proof.
  intros cs w c.
  destruct (principal_without_a_submission_has_no_score 99 cs Examples.render initial 11 99
              Examples.signer10 fhevm_instance contract_runner (Some Examples.session)
              Examples.unchanged Examples.unchanged) as (Hz & H);
    [vm_compute; intros H; repeat (apply elem_of_cons in H as [H | H]; [discriminate |]);
     by apply elem_of_nil in H |].
  destruct H as (Hl & _ & Hm & _); try reflexivity.
  split; [exact Hz |]. split; [exact Hm |].
  exact (f_equal oracle_calls Hl).
Defined.

(** X11. The range view fails in one way only: with the arithmetic
    panic, when [startIndex] is below the number of players and
    [startIndex + count] does not fit 256 bits. It never reads or writes
    out of the bounds of an array, and a [startIndex] at or beyond the
    number of players gives the empty answer whatever [count] is. *)
Theorem range_reverts_only_on_overflow (s : Storage) (startIndex count : Z) :
  0 <= startIndex -> 0 <= count ->
  getLeaderboardRange s startIndex count
  = if getPlayerCount s <=? startIndex then Ok ([], [], [])
    else if startIndex + count <=? MAX_UINT256
         then let players := ViewSpec.slice startIndex count (getAllPlayers s) in
              Ok (players,
                  map (fun p => fst (fst (getPlayerScore s p))) players,
                  map (fun p => snd (fst (getPlayerScore s p))) players)
         else Revert (Panic 17).
Proof.
  intros Hs Hc. unfold getPlayerCount.
  destruct (Z.leb_spec (Z.of_nat (length (_players s))) startIndex) as [Hge|Hlt].
  - unfold getLeaderboardRange. by destruct (Z.leb_spec (Z.of_nat (length (_players s))) startIndex); [| lia].
  - destruct (Z.leb_spec (startIndex + count) MAX_UINT256) as [Hfit|Hover].
    + by rewrite ViewFacts.getLeaderboardRange_slice.
    + unfold getLeaderboardRange, checked_add.
      destruct (Z.leb_spec (Z.of_nat (length (_players s))) startIndex); [lia |].
      by destruct (Z.leb_spec (startIndex + count) MAX_UINT256); [lia |].
Qed.

Lemma range_reverts_only_on_overflow_witness :
  let s := storage (run 99 init [CallMint 10; CallMint 11;
                                 CallSubmit 10 100 (FHE.mk_input 50 true);
                                 CallSubmit 11 200 (FHE.mk_input 80 true)]) in
  getLeaderboardRange s 1 MAX_UINT256 = Revert (Panic 17)
  /\ getLeaderboardRange s 2 MAX_UINT256 = Ok ([], [], [])
  /\ getLeaderboardRange s 0 1 = Ok ([10], [1], [100]).
Proof.
  intros s. split; [| split].
  - rewrite (range_reverts_only_on_overflow s 1 MAX_UINT256); [reflexivity | lia | vm_compute; discriminate].
  - rewrite (range_reverts_only_on_overflow s 2 MAX_UINT256); [reflexivity | lia | vm_compute; discriminate].
  - rewrite (range_reverts_only_on_overflow s 0 1); [reflexivity | lia | lia].
Defined.

(** X12. Pages of the range view tile the players list, as long as the
    end of the second page fits 256 bits ([startIndex + count + count']
    is at most the greatest [uint256], so that no sum in the calls
    overflows): a page of [count] players from [startIndex] followed by
    the page of [count'] players from [startIndex + count] is the page
    of [count + count'] players from [startIndex], array by array. *)
Theorem range_pages_tile (s : Storage) (startIndex count count' : Z) :
  0 <= startIndex -> 0 <= count -> 0 <= count' ->
  startIndex + count + count' <= MAX_UINT256 ->
  exists P E T P' E' T',
    getLeaderboardRange s startIndex count = Ok (P, E, T)
    /\ getLeaderboardRange s (startIndex + count) count' = Ok (P', E', T')
    /\ getLeaderboardRange s startIndex (count + count') = Ok (P ++ P', E ++ E', T ++ T').
Proof.
  intros Hs Hc Hc' Hfit.
  rewrite !ViewFacts.getLeaderboardRange_slice by lia. cbn zeta.
  do 6 eexists. split; [reflexivity |]. split; [reflexivity |].
  rewrite <- !map_app.
  assert (E : ViewSpec.slice startIndex (count + count') (_players s)
              = ViewSpec.slice startIndex count (_players s)
                ++ ViewSpec.slice (startIndex + count) count' (_players s)).
  { unfold ViewSpec.slice.
    replace (Z.to_nat (count + count')) with (Z.to_nat count + Z.to_nat count')%nat by lia.
    replace (Z.to_nat (startIndex + count)) with (Z.to_nat startIndex + Z.to_nat count)%nat by lia.
    rewrite <- drop_drop. set (l := drop (Z.to_nat startIndex) (_players s)).
    rewrite <- (take_drop (Z.to_nat count) l) at 1.
    destruct (decide (Z.to_nat count <= length l)%nat) as [Hle|Hgt].
    - rewrite take_app_add'; [done | rewrite length_take; lia].
    - rewrite (drop_ge l) by lia. rewrite app_nil_r, take_nil, app_nil_r.
      rewrite !take_ge; [done | lia | rewrite length_take; lia]. }
  by rewrite E.
Qed.

Lemma range_pages_tile_witness :
  let s := storage (run 99 init [CallMint 10; CallMint 11; CallMint 12;
                                 CallSubmit 10 100 (FHE.mk_input 50 true);
                                 CallSubmit 11 200 (FHE.mk_input 80 true);
                                 CallSubmit 12 300 (FHE.mk_input 20 true)]) in
  exists P E T P' E' T',
    getLeaderboardRange s 0 2 = Ok (P, E, T)
    /\ getLeaderboardRange s (0 + 2) 5 = Ok (P', E', T')
    /\ getLeaderboardRange s 0 (2 + 5) = Ok (P ++ P', E ++ E', T ++ T').
Proof.
  intros s. apply (range_pages_tile s 0 2 5); [lia | lia | lia | vm_compute; discriminate].
Defined.

(** X13. A call reaches its sender only: after any trace, whatever the
    next call is and whether it goes through or not, every other
    principal keeps its tokens, its record, the plaintext behind it and
    its place in the players list. *)
Theorem calls_touch_only_their_sender (this : Z) (cs : list Call) (c : Call) (p : Z) :
  let w := run this init cs in
  let w' := fst (exec this w c) in
  p <> RegistrySpec.sender_of c ->
  getPlayerCharacters (storage w') p = getPlayerCharacters (storage w) p
  /\ hasCharacter (storage w') p = hasCharacter (storage w) p
  /\ getPlayerScore (storage w') p = getPlayerScore (storage w) p
  /\ decrypt_score w' p = decrypt_score w p
  /\ (p ∈ getAllPlayers (storage w') <-> p ∈ getAllPlayers (storage w)).
Proof.
  intros w w' Hp. subst w'.
  pose proof (LedgerInvariant.Repr_reachable this cs) as R. fold w in R.
  destruct (TraceFacts.exec_cases this w _ c R)
    as [(e & -> & _) | [(a & -> & _ & -> & _)
       | (a & t & i & w' & -> & -> & _ & _ & S & F)]]; cbn [fst]; [done | |].
  - cbn [RegistrySpec.sender_of] in Hp.
    assert (Ht : tokens_of (storage {| storage :=
                   push_ownerToken a (_tokenCounter (storage w) + 1)
                     (set_character (_tokenCounter (storage w) + 1)
                        {| tokenId := _tokenCounter (storage w) + 1; owner := a;
                           char_exists := true |}
                        (set_tokenCounter (_tokenCounter (storage w) + 1) (storage w)));
                 fhe := fhe w;
                 events := events w ++ [CharacterMinted a (_tokenCounter (storage w) + 1)] |}) p
                 = tokens_of (storage w) p).
    { unfold tokens_of. simpl. by rewrite lookup_insert_ne by congruence. }
    unfold getPlayerCharacters, hasCharacter. rewrite Ht. done.
  - cbn [RegistrySpec.sender_of] in Hp.
    pose proof (LedgerSpec.sub_others _ _ _ _ _ _ S p Hp) as Ho.
    assert (Ht : tokens_of (storage w') p = tokens_of (storage w) p)
      by (unfold tokens_of; by rewrite (RegistrySpec.sf_tokens _ _ _ F)).
    unfold getPlayerCharacters, hasCharacter, getPlayerScore, decrypt_score, getAllPlayers.
    rewrite Ht, Ho. split; [done |]. split; [done |]. split; [done |]. split.
    + destruct (exists_ (score_of (storage w) p)) eqn:Ex.
      * destruct (LedgerSpec.repr_some _ _ _ R p (LedgerInvariant.Repr_exists _ _ _ _ R Ex))
          as [_ (v & Hv & _) _ _ _].
        rewrite (FHEFacts.decrypt32_lookup _ _ _ Hv).
        by rewrite (FHEFacts.decrypt32_lookup _ _ _ (LedgerSpec.sub_store _ _ _ _ _ _ S _ _ Hv)).
      * destruct (EventFacts.RecordsRepr_reachable this cs) as [Hn].
        fold w in Hn. rewrite Hn.
        -- unfold FHE.decrypt32, FHE.lookup. done.
        -- destruct (by_sender p (history this init cs)) eqn:Eb; [done |].
           assert (Hne : by_sender p (history this init cs) <> []) by (by rewrite Eb).
           destruct (LedgerSpec.repr_some _ _ _ R p Hne) as [Hex _ _ _ _]. congruence.
    + rewrite (LedgerSpec.sub_players _ _ _ _ _ _ S).
      destruct (exists_ (score_of (storage w) a)); [done |].
      rewrite elem_of_app, list_elem_of_singleton. tauto.
Qed.

Lemma calls_touch_only_their_sender_witness :
  let w := run 99 init [CallMint 10; CallMint 11; CallSubmit 10 100 (FHE.mk_input 50 true)] in
  let w' := fst (exec 99 w (CallSubmit 11 200 (FHE.mk_input 80 true))) in
  getPlayerScore (storage w') 10 = getPlayerScore (storage w) 10
  /\ decrypt_score w' 10 = decrypt_score w 10.
Proof.
  intros w w'.
  destruct (calls_touch_only_their_sender 99
              [CallMint 10; CallMint 11; CallSubmit 10 100 (FHE.mk_input 50 true)]
              (CallSubmit 11 200 (FHE.mk_input 80 true)) 10) as (_ & _ & H1 & H2 & _).
  - simpl. lia.
  - split; [exact H1 | exact H2].
Defined.

(** ** The pipelines of the hook *)

Import UseParkourGame.

(** X14. A run of [submitScore], whatever the awaited calls answer:
    it starts by encrypting the score for the contract and the signer
    captured at the call; a transaction is sent at most once, carries the
    handle and the proof the encryption gave, and is sent only if the
    check made before it found the request fresh; a stale request sends
    nothing and says so; the receipt is awaited only for a transaction
    that was sent. The flags are released in every case, and the player
    score and the leaderboard shown are never touched. *)
Theorem score_is_sent_once_and_only_when_fresh
    (q : Request) (score : Z) (env : SubmitEnv) (h : Hook) :
  let c := submitScore_run q score env {| hook := h; log := [] |} in
  let stale := isStale (thisParkourGameAddress q) (thisChainId q) (thisEthersSigner q) in
  head (log c)
  = Some (Encrypt (thisParkourGameAddress q) (signer_address (thisEthersSigner q)) score)
  /\ (forall hd pf, SendSubmitScore hd pf ∈ log c ->
        se_encrypt env = Resolved (hd, pf) /\ stale (se_before env) = false)
  /\ (length (PipelineSpec.sends (log c)) <= 1)%nat
  /\ (forall e, se_encrypt env = Resolved e -> stale (se_before env) = true ->
        PipelineSpec.sends (log c) = [] /\ message (hook c) = "Ignore score submission")
  /\ (WaitReceipt ∈ log c -> exists tx, se_send env = Resolved tx)
  /\ isSubmittingRef (hook c) = false /\ isSubmitting (hook c) = false
  /\ playerScore (hook c) = playerScore h /\ leaderboard (hook c) = leaderboard h.
Proof.
  intros c stale. subst c stale.
  destruct env as [enc before send wait after].
  unfold submitScore_run, try_catch_finally, await, check, bind, perform,
    setMessage, setIsSubmitting, update, pure, return_, throw.
  simpl. PipelineFacts.answers.
  all: split; [done |].
  all: split;
    [intros hd pf Hin;
     repeat (apply elem_of_cons in Hin as [Hin | Hin]; [try discriminate |]);
     try (by apply elem_of_nil in Hin); injection Hin as <- <-; by split |].
  all: split; [vm_compute; lia |].
  all: split; [intros e He Hs; try discriminate; try done |].
  all: split;
    [intros Hin;
     repeat (apply elem_of_cons in Hin as [Hin | Hin]; [try discriminate |]);
     try (by apply elem_of_nil in Hin); eauto |].
  all: done.
Qed.

(** X15. The decryption pipeline run against the ledger and the oracle,
    with nothing stale, by a signer that has an accepted submission and
    an authorization in its own name, the handle of its record not being
    the zero sentinel. The flags are released. When the render has a
    read-only provider, the oracle is called once, on the handle of the
    signer's record, and the score shown is the greatest plaintext the
    signer submitted. When it has none, the read of the contract fails:
    the oracle is not called, the score shown is left as it was and the
    failure is reported. *)
Theorem signer_decrypts_the_greatest_of_its_own_submissions
    (this : Z) (cs : list ParkourGame.Call) (r : Render) (h : Hook) (user addr : Z)
    (signer : Signer) (inst : FhevmInstance) (sig : DecryptionSignature)
    (before after : Ambient) :
  let w := ParkourGame.run this ParkourGame.init cs in
  let subs := ParkourGame.by_sender user (ParkourGame.history this ParkourGame.init cs) in
  let handle := fst (fst (ParkourGame.getPlayerScore (ParkourGame.storage w) user)) in
  let c := decryptScore r
             (PipelineSpec.decrypt_reading w (ethersReadonlyProvider r) user (Some sig)
                before after) h in
  parkourGame_address r = Some addr -> instance r = Some inst ->
  ethersSigner r = Some signer -> isDecryptingRef h = false ->
  isStale addr (chainId r) signer before = false ->
  isStale addr (chainId r) signer after = false ->
  userAddress sig = user -> subs <> [] -> handle <> ZeroHash ->
  isDecryptingRef (hook c) = false /\ isDecrypting (hook c) = false
  /\ match ethersReadonlyProvider r with
     | Some _ =>
         exists v, ParkourGame.is_max v (map ParkourGame.sub_value subs)
          /\ playerScore (hook c) = Some (pretty v)
          /\ message (hook c) = "Your score: " +:+ pretty v
          /\ oracle_calls (log c) = [UserDecrypt handle addr sig]
     | None =>
         playerScore (hook c) = playerScore h
         /\ oracle_calls (log c) = []
         /\ exists m, message (hook c) = "Decryption failed: " +:+ m
     end.
Proof.
  intros w subs handle c Ha Hi Hs Hr Hb Hb' Hu Hne Hnz.
  pose proof (LedgerInvariant.Repr_reachable this cs) as R. fold w in R.
  destruct (LedgerSpec.repr_some _ _ _ R user Hne) as [Hex (v & Hv & Hmax) _ _ Hgo].
  unfold ParkourGame.getPlayerScore in handle. cbn [fst snd] in handle.
  assert (Hpos : (handle =? ZeroHash) = false) by (by apply Z.eqb_neq).
  assert (Hallow : FHE.isAllowed (ParkourGame.fhe w) handle (userAddress sig) = true)
    by (rewrite Hu; unfold FHE.isAllowed; by apply bool_decide_eq_true_2).
  assert (Hdec : FHE.decrypt32 (ParkourGame.fhe w) handle = v)
    by (by apply FHEFacts.decrypt32_lookup).
  subst c. unfold decryptScore, decryptScore_begin. rewrite Hr, Ha, Hi, Hs.
  unfold decryptScore_run, try_catch_finally, await, check, PipelineSpec.decrypt_reading.
  cbn [de_getAddress de_getPlayerScore de_loadOrSign de_before de_userDecrypt de_after
       thisParkourGameAddress thisChainId thisEthersSigner].
  unfold setMessage, setPlayerScore, setIsDecrypting.
  ProjectionFacts.async_step.
  destruct (ethersReadonlyProvider r) as [pr|].
  - unfold ParkourGame.getPlayerScore, PipelineSpec.userDecrypt.
    cbn [forallb map fst snd]. fold handle.
    repeat ProjectionFacts.async_step.
    rewrite Hex, Hpos. cbn [negb]. repeat ProjectionFacts.async_step.
    rewrite Hb. repeat ProjectionFacts.async_step.
    rewrite Hallow, Hdec, andb_true_r.
    clearbody handle. clear R Hv Hgo Hallow Hdec Hex Hnz.
    unfold property, bind, perform, update, pure, return_, throw. rewrite Hb'. cbn.
    rewrite decide_True by done. cbn.
    split; [done |]. split; [done |]. exists v. split; [exact Hmax |]. done.
  - clearbody handle.
    unfold bind, perform, update, pure, return_, throw. cbn.
    split; [done |]. split; [done |]. split; [done |]. split; [done |]. by eexists.
Qed.

Lemma signer_decrypts_the_greatest_of_its_own_submissions_witness :
  let cs := [ParkourGame.CallMint 10;
             ParkourGame.CallSubmit 10 100 (FHE.mk_input 50 true);
             ParkourGame.CallSubmit 10 200 (FHE.mk_input 30 true)] in
  let w := ParkourGame.run 99 ParkourGame.init cs in
  let c := decryptScore Examples.render
             (PipelineSpec.decrypt_reading w (Some contract_runner) 10
                (Some Examples.session) Examples.unchanged Examples.unchanged) initial in
  exists v, ParkourGame.is_max v [50; 30]
            /\ playerScore (hook c) = Some (pretty v)
            /\ message (hook c) = "Your score: " +:+ pretty v.
Proof.
  intros cs w c.
  destruct (signer_decrypts_the_greatest_of_its_own_submissions 99 cs Examples.render
              initial 10 99 Examples.signer10 fhevm_instance Examples.session
              Examples.unchanged Examples.unchanged) as (_ & _ & H);
    [reflexivity | reflexivity | reflexivity | reflexivity | reflexivity | reflexivity
    | reflexivity | vm_compute; discriminate | vm_compute; discriminate |].
  destruct H as (v & Hmax & Hp & Hm & _). exists v. split; [exact Hmax |]. by split.
Defined.

(** ** The leaderboard fetch on any answers *)

Module FetchFacts.
Import UseParkourGame HookSpec PipelineSpec.

(** [Promise.all]: every read is made, whatever the answers; the rows
    come in the order of the players. *)
Lemma await_all_log env ps c :
  snd (await_all env ps c) = {| hook := hook c; log := log c ++ map GetPlayerScore ps |}.
Proof.
  revert c. induction ps as [|p ps IH]; intros c.
  - destruct c. simpl. by rewrite app_nil_r.
  - cbn [await_all]. unfold bind at 1, perform at 1.
    specialize (IH {| hook := hook c; log := log c ++ [GetPlayerScore p] |}).
    destruct (await_all env ps _) as [o c']. cbn [snd] in IH. subst c'.
    cbn [map hook log]. rewrite <- app_assoc.
    destruct (fe_getPlayerScore env p); [destruct o |]; done.
Qed.

Lemma await_all_value env ps c rows :
  fst (await_all env ps c) = Value rows -> omap (answered env) ps = rows /\ length rows = length ps.
Proof.
  revert c rows. induction ps as [|p ps IH]; intros c rows.
  - simpl. by intros [= <-].
  - cbn [await_all]. unfold bind at 1, perform at 1.
    specialize (IH {| hook := hook c; log := log c ++ [GetPlayerScore p] |}).
    destruct (await_all env ps _) as [o c']. cbn [fst] in IH.
    destruct (fe_getPlayerScore env p) as [a|m] eqn:Ea; [destruct o as [rs| |m] |]; try done.
    cbn [fst]. intros [= <-]. destruct (IH rs eq_refl) as [<- Hl].
    simpl. unfold answered at 1. rewrite Ea. simpl. by rewrite Hl.
Qed.

Lemma await_all_not_returned env ps c : fst (await_all env ps c) <> Returned.
Proof.
  revert c. induction ps as [|p ps IH]; intros c; [done |].
  cbn [await_all]. unfold bind at 1, perform at 1.
  specialize (IH {| hook := hook c; log := log c ++ [GetPlayerScore p] |}).
  destruct (await_all env ps _) as [o c']. cbn [fst] in IH.
  destruct (fe_getPlayerScore env p); [destruct o |]; done.
Qed.

Lemma bind_await_all_any {B} env ps (k : list ScoreRow -> Async B) c :
  bind (await_all env ps) k c
  = let c' := {| hook := hook c; log := log c ++ map GetPlayerScore ps |} in
    match fst (await_all env ps c) with
    | Value rows => k rows c'
    | Returned => (Returned, c')
    | Thrown e => (Thrown e, c')
    end.
Proof.
  unfold bind. pose proof (await_all_log env ps c) as H.
  destruct (await_all env ps c) as [o c1]. cbn [fst snd] in *. subst c1. by destruct o.
Qed.

Ltac log_in H :=
  repeat first
    [ apply elem_of_cons in H as [H | H]; [try discriminate |]
    | apply elem_of_app in H as [H | H] ];
  try (by apply elem_of_nil in H).

Lemma reads_scores ps : reads (map GetPlayerScore ps) = map GetPlayerScore ps.
Proof. induction ps as [|p ps IH]; [done |]. unfold reads in *. simpl. by rewrite filter_cons_True, IH. Qed.

Lemma sends_scores ps : sends (map GetPlayerScore ps) = [].
Proof. induction ps as [|p ps IH]; [done |]. unfold sends in *. simpl. by rewrite filter_cons_False. Qed.

Lemma oracle_calls_scores ps : oracle_calls (map GetPlayerScore ps) = [].
Proof.
  induction ps as [|p ps IH]; [done |]. unfold oracle_calls in *. simpl.
  by rewrite filter_cons_False.
Qed.

End FetchFacts.

(** X16. A fetch of the leaderboard, whatever the awaited reads answer:
    it never touches the player score nor the request flags, does nothing
    at all without a contract address or a provider, and otherwise always
    releases the loading flag. The board shown is left as it was when a
    staleness check finds the request stale and when a read is rejected;
    when it is replaced, it is by the ranked, sorted entries made of the
    answers for all the players the list read named: no partial board is
    ever shown. *)
Theorem leaderboard_is_replaced_only_by_a_fresh_full_answer
    (r : Render) (env : FetchEnv) (h : Hook) :
  let c := fetchLeaderboard r env h in
  playerScore (hook c) = playerScore h
  /\ isSubmittingRef (hook c) = isSubmittingRef h
  /\ isDecryptingRef (hook c) = isDecryptingRef h
  /\ (parkourGame_address r = None \/ ethersReadonlyProvider r = None ->
      c = {| hook := h; log := [] |})
  /\ (parkourGame_address r <> None -> ethersReadonlyProvider r <> None ->
      isLoadingLeaderboard (hook c) = false)
  /\ (forall site, IsStale site true ∈ log c ->
        leaderboard (hook c) = leaderboard h
        /\ message (hook c) = "Ignore leaderboard fetch")
  /\ (forall m, parkourGame_address r <> None -> ethersReadonlyProvider r <> None ->
        fe_getLeaderboard env = Rejected m ->
        leaderboard (hook c) = leaderboard h
        /\ message (hook c) = "Failed to load leaderboard: " +:+ m
        /\ log c = [GetLeaderboard])
  /\ (leaderboard (hook c) = leaderboard h
      \/ exists players timestamps,
           fe_getLeaderboard env = Resolved (players, timestamps)
           /\ (players = [] \/ length (omap (PipelineSpec.answered env) players) = length players)
           /\ leaderboard (hook c)
              = ranked (array_sort compare_entries
                          (omap to_entry
                             (filter (fun row => exists_ row = true)
                                (omap (PipelineSpec.answered env) players))))).
Proof.
  intros c. subst c. unfold fetchLeaderboard.
  destruct (parkourGame_address r) as [addr|], (ethersReadonlyProvider r) as [pr|];
    try (repeat (split; [done |]); split; [intros site Hin; by apply elem_of_nil in Hin |];
         split; [by intros |]; by left).
  unfold fetchLeaderboard_run, try_catch_finally, await, check, setLeaderboard, setMessage,
    setIsLoadingLeaderboard.
  destruct (fe_getLeaderboard env) as [[ps ts]|m] eqn:EL.
  2:{ repeat ProjectionFacts.async_step. unfold bind, throw, update. cbn.
      repeat (split; [done |]). split; [by intros [?|?] |]. split; [done |].
      split.
      { intros site Hin. repeat (apply elem_of_cons in Hin as [Hin | Hin]; [try discriminate |]).
        by apply elem_of_nil in Hin. }
      split; [intros m' _ _ [= <-]; done |]. by left. }
  repeat ProjectionFacts.async_step.
  assert (Hlog : forall site (l : list Effect),
            IsStale site true ∈ map GetPlayerScore ps -> False).
  { intros site _ Hin. apply list_elem_of_In, in_map_iff in Hin as (p & Hp & _). done. }
  destruct (Nat.eqb_spec (length ps) 0) as [Hz|Hz].
  { destruct ps; [| done]. unfold bind, update, return_. cbn.
    repeat (split; [done |]). split; [by intros [?|?] |]. split; [done |].
    split; [intros site Hin; FetchFacts.log_in Hin |].
    split; [done |]. right. exists [], ts. split; [done |]. split; [by left | done]. }
  repeat ProjectionFacts.async_step.
  destruct (isStale_fetch addr (chainId r) (fe_afterList env)) eqn:Es1.
  { unfold bind, update, return_. cbn.
    repeat (split; [done |]). split; [by intros [?|?] |]. split; [done |].
    split; [intros site Hin; FetchFacts.log_in Hin; done |].
    split; [done |]. by left. }
  repeat ProjectionFacts.async_step. rewrite FetchFacts.bind_await_all_any. cbn zeta.
  destruct (fst (await_all env ps _)) as [rows| |m] eqn:Ev.
  2:{ by apply FetchFacts.await_all_not_returned in Ev. }
  2:{ unfold update. cbn.
      repeat (split; [done |]). split; [by intros [?|?] |]. split; [done |].
      split; [intros site Hin; FetchFacts.log_in Hin; by apply (Hlog site []) in Hin |].
      split; [done |]. by left. }
  apply FetchFacts.await_all_value in Ev as [Hrows Hlen]. subst rows.
  set (rows := omap (PipelineSpec.answered env) ps) in *.
  set (valid := filter (fun row : ScoreRow => exists_ row = true) rows).
  assert (Hshape : forall l, l = ranked (array_sort compare_entries (omap to_entry valid)) ->
            l = leaderboard h
            \/ exists players timestamps,
                 Resolved (ps, ts) = Resolved (players, timestamps)
                 /\ (players = [] \/ length (omap (PipelineSpec.answered env) players) = length players)
                 /\ l = ranked (array_sort compare_entries
                            (omap to_entry
                               (filter (fun row => exists_ row = true)
                                  (omap (PipelineSpec.answered env) players))))).
  { intros l ->. right. exists ps, ts. split; [done |]. split; [by right | done]. }
  destruct (Nat.eqb_spec (length valid) 0) as [Hv|Hv].
  { unfold bind, update, return_. cbn.
    repeat (split; [done |]). split; [by intros [?|?] |]. split; [done |].
    split; [intros site Hin; FetchFacts.log_in Hin; by apply (Hlog site []) in Hin |].
    split; [done |]. apply Hshape. by destruct valid. }
  repeat ProjectionFacts.async_step.
  destruct (isStale_fetch addr (chainId r) (fe_afterScores env)) eqn:Es2.
  { unfold bind, update, return_. cbn.
    repeat (split; [done |]). split; [by intros [?|?] |]. split; [done |].
    split; [intros site Hin; FetchFacts.log_in Hin; try done; by apply (Hlog site []) in Hin |].
    split; [done |]. by left. }
  repeat ProjectionFacts.async_step.
  destruct (Nat.eqb_spec (length (omap to_entry valid)) 0) as [He|He].
  { unfold bind, update, return_. cbn.
    repeat (split; [done |]). split; [by intros [?|?] |]. split; [done |].
    split; [intros site Hin; FetchFacts.log_in Hin; by apply (Hlog site []) in Hin |].
    split; [done |]. apply Hshape. by destruct (omap to_entry valid). }
  repeat ProjectionFacts.async_step. unfold update. cbn.
  repeat (split; [done |]). split; [by intros [?|?] |]. split; [done |].
  split; [intros site Hin; FetchFacts.log_in Hin; by apply (Hlog site []) in Hin |].
  split; [done |]. by apply Hshape.
Qed.

(** X17. The reads of a fetch: one read of the list and then, unless
    the request went stale meanwhile, one read of the record of each
    player listed, in order, all of them made even when one is rejected;
    no other player is read. A fetch never sends a transaction and never
    calls the decryption oracle. *)
Theorem leaderboard_fetch_reads_the_list_then_each_player
    (r : Render) (env : FetchEnv) (h : Hook) :
  let c := fetchLeaderboard r env h in
  PipelineSpec.reads (log c)
  = match parkourGame_address r, ethersReadonlyProvider r with
    | Some addr, Some _ =>
        GetLeaderboard ::
        match fe_getLeaderboard env with
        | Resolved (players, _) =>
            if isStale_fetch addr (chainId r) (fe_afterList env) then []
            else map GetPlayerScore players
        | Rejected _ => []
        end
    | _, _ => []
    end
  /\ PipelineSpec.sends (log c) = []
  /\ oracle_calls (log c) = [].
Proof.
  intros c. subst c. unfold fetchLeaderboard.
  destruct (parkourGame_address r) as [addr|], (ethersReadonlyProvider r) as [pr|]; try done.
  unfold fetchLeaderboard_run, try_catch_finally, await, check, setLeaderboard, setMessage,
    setIsLoadingLeaderboard.
  unfold PipelineSpec.reads, PipelineSpec.sends, oracle_calls.
  pose proof (FetchFacts.reads_scores) as Hr. pose proof (FetchFacts.sends_scores) as Hs.
  pose proof (FetchFacts.oracle_calls_scores) as Ho.
  unfold PipelineSpec.reads, PipelineSpec.sends, oracle_calls in Hr, Hs, Ho.
  destruct (fe_getLeaderboard env) as [[ps ts]|m] eqn:EL.
  2:{ repeat ProjectionFacts.async_step. unfold bind, throw, update. cbn [fst snd hook log app]; repeat first
      [ rewrite filter_app | rewrite Hr | rewrite Hs | rewrite Ho
      | rewrite filter_cons_True by done | rewrite filter_cons_False by done
      | rewrite filter_nil | rewrite app_nil_r ]; done. }
  repeat ProjectionFacts.async_step.
  destruct (Nat.eqb_spec (length ps) 0) as [Hz|Hz].
  { destruct ps; [| done]. unfold bind, update, return_. cbn [fst snd hook log app].
    by destruct (isStale_fetch addr (chainId r) (fe_afterList env)). }
  repeat ProjectionFacts.async_step.
  destruct (isStale_fetch addr (chainId r) (fe_afterList env)) eqn:Es1.
  { unfold bind, update, return_. cbn [fst snd hook log app]; repeat first
      [ rewrite filter_app | rewrite Hr | rewrite Hs | rewrite Ho
      | rewrite filter_cons_True by done | rewrite filter_cons_False by done
      | rewrite filter_nil | rewrite app_nil_r ]; done. }
  repeat ProjectionFacts.async_step. rewrite FetchFacts.bind_await_all_any. cbn zeta.
  destruct (fst (await_all env ps _)) as [rows| |m] eqn:Ev.
  2:{ by apply FetchFacts.await_all_not_returned in Ev. }
  2:{ unfold update. cbn. repeat first
      [ rewrite filter_app | rewrite Hr | rewrite Hs | rewrite Ho
      | rewrite filter_cons_True by done | rewrite filter_cons_False by done
      | rewrite filter_nil | rewrite app_nil_r ]; done. }
  set (valid := filter (fun row : ScoreRow => exists_ row = true) rows).
  destruct (Nat.eqb_spec (length valid) 0) as [Hv|Hv].
  { unfold bind, update, return_. cbn [fst snd hook log app].
    repeat first
      [ rewrite filter_app | rewrite Hr | rewrite Hs | rewrite Ho
      | rewrite filter_cons_True by done | rewrite filter_cons_False by done
      | rewrite filter_nil | rewrite app_nil_r ]; done. }
  repeat ProjectionFacts.async_step.
  destruct (isStale_fetch addr (chainId r) (fe_afterScores env)) eqn:Es2.
  { unfold bind, update, return_. cbn [fst snd hook log app].
    repeat first
      [ rewrite filter_app | rewrite Hr | rewrite Hs | rewrite Ho
      | rewrite filter_cons_True by done | rewrite filter_cons_False by done
      | rewrite filter_nil | rewrite app_nil_r ]; done. }
  repeat ProjectionFacts.async_step.
  destruct (Nat.eqb_spec (length (omap to_entry valid)) 0) as [He|He].
  { unfold bind, update, return_. cbn [fst snd hook log app].
    repeat first
      [ rewrite filter_app | rewrite Hr | rewrite Hs | rewrite Ho
      | rewrite filter_cons_True by done | rewrite filter_cons_False by done
      | rewrite filter_nil | rewrite app_nil_r ]; done. }
  repeat ProjectionFacts.async_step. unfold update. cbn [fst snd hook log app].
  repeat first
      [ rewrite filter_app | rewrite Hr | rewrite Hs | rewrite Ho
      | rewrite filter_cons_True by done | rewrite filter_cons_False by done
      | rewrite filter_nil | rewrite app_nil_r ]; done.
Qed.

(** X18. A run of [decryptScore], whatever the awaited calls answer: it
    starts by asking the signer for its address and reads the record of
    that address only; the authorization is asked for the contract and
    the signer captured at the call; the oracle is called at most once,
    for the captured contract, under the authorization obtained, on the
    handle of a record that exists and is not the zero handle, and only
    when the check made before it found the request fresh. The score
    shown is left as it was, or set to 0, or set to what the oracle gave
    for that handle on a request still fresh; the flags are released in
    every case and the leaderboard is never touched. *)
Theorem oracle_is_asked_once_for_the_signers_own_record
    (q : Request) (env : DecryptEnv) (h : Hook) :
  let c := decryptScore_run q env {| hook := h; log := [] |} in
  let stale := isStale (thisParkourGameAddress q) (thisChainId q) (thisEthersSigner q) in
  head (log c) = Some GetAddress
  /\ (forall p, GetPlayerScore p ∈ log c -> de_getAddress env = Resolved p)
  /\ (forall a s, LoadOrSign a s ∈ log c ->
        a = thisParkourGameAddress q /\ s = thisEthersSigner q)
  /\ (forall hd a sig, UserDecrypt hd a sig ∈ log c ->
        a = thisParkourGameAddress q
        /\ hd <> ZeroHash
        /\ de_loadOrSign env = Resolved (Some sig)
        /\ stale (de_before env) = false
        /\ exists user ts,
             de_getAddress env = Resolved user
             /\ de_getPlayerScore env user = Resolved (hd, ts, true))
  /\ (length (oracle_calls (log c)) <= 1)%nat
  /\ (playerScore (hook c) = playerScore h
      \/ playerScore (hook c) = Some "0"
      \/ exists hd sig res i v,
           UserDecrypt hd (thisParkourGameAddress q) sig ∈ log c
           /\ de_userDecrypt env hd sig = Resolved res
           /\ list_find (fun kv => fst kv = hd) res = Some (i, (hd, v))
           /\ stale (de_after env) = false
           /\ playerScore (hook c) = Some (pretty v))
  /\ isDecryptingRef (hook c) = false /\ isDecrypting (hook c) = false
  /\ leaderboard (hook c) = leaderboard h.
Proof.
  intros c stale. subst c stale.
  destruct env as [ga gps los before ud after].
  unfold decryptScore_run, try_catch_finally, await, check, property, bind, perform,
    setMessage, setPlayerScore, setIsDecrypting, update, pure, return_, throw.
  simpl. PipelineFacts.answers.
  all: split; [done |].
  all: split; [intros rp Hin; FetchFacts.log_in Hin; by injection Hin as <- |].
  all: split; [intros ca cs Hin; FetchFacts.log_in Hin; by injection Hin as <- <- |].
  all: split;
    [intros ohd oa osig Hin; FetchFacts.log_in Hin;
     (injection Hin as <- <- <-;
      (split; [done |
       split; [by apply Z.eqb_neq |
       split; [done | split; [done |
         do 2 eexists; split; [reflexivity |];
         match goal with H : negb ?b = false |- _ => destruct b; [| discriminate H] end;
         eassumption]]]])) |].
  all: split; [vm_compute; lia |].
  all: split; [| done].
  all: try (by left); try (by (right; left)).
  all: right; right.
  all: match goal with
       | H : list_find _ _ = Some (_, (_, _)) |- _ =>
           pose proof H as H'; apply list_find_Some in H' as (_ & Hp & _);
           simpl in Hp; subst
       end.
  all: do 5 eexists; split; [by repeat constructor |].
  all: split; [eassumption |]. all: split; [eassumption |]. all: by split.
Qed.

(** * The rest of the frontend *)

(** ** The deployment looked up *)

Module DeploymentFacts.
Import Deployments.

Lemma truthy_Some a : truthy (Some a) = true <-> a <> EmptyString.
Proof. simpl. destruct (String.eqb_spec a EmptyString); simpl; split; congruence. Qed.

Lemma is_string_Some a v : is_string (Some a) v = true <-> a = v.
Proof. simpl. destruct (String.eqb_spec a v); split; congruence. Qed.

(** The three answers of the lookup. *)
Lemma getParkourGameByChainId_cases table chain :
  let c := getParkourGameByChainId table chain in
  (c = {| abi := ParkourGameABI_abi; address := None; chainId := None; chainName := None |}
   /\ (chain = None \/ chain = Some 0
       \/ exists n, chain = Some n /\ table !! Number_toString n = None))
  \/ (exists n e, chain = Some n /\ n <> 0 /\ table !! Number_toString n = Some e
        /\ (forall a, entry_address e = Some a -> ~ valid_address a)
        /\ c = {| abi := ParkourGameABI_abi; address := None; chainId := Some n;
                  chainName := entry_chainName e |})
  \/ (exists n e a, chain = Some n /\ n <> 0 /\ table !! Number_toString n = Some e
        /\ entry_address e = Some a /\ valid_address a
        /\ c = {| abi := ParkourGameABI_abi; address := Some a;
                  chainId := Some (default n (entry_chainId e));
                  chainName := entry_chainName e |}).
Proof.
  intros c. subst c. unfold getParkourGameByChainId.
  destruct chain as [n|]; [| left; split; [done | by left]].
  destruct (Z.eqb_spec n 0) as [->|Hn]; [left; split; [done | right; by left] |].
  destruct (table !! Number_toString n) as [e|] eqn:Et; [| left; split; [done | right; right; eauto]].
  right. destruct (entry_address e) as [a|] eqn:Ea.
  - simpl. destruct (String.eqb_spec a EmptyString) as [->|Hne]; simpl.
    + left. exists n, e. rewrite Ea. repeat (split; [done |]). split; [| done].
      intros ? [= <-] [? _]. done.
    + destruct (String.eqb_spec a ZeroAddress) as [->|Hnz]; simpl.
      * left. exists n, e. rewrite Ea. repeat (split; [done |]). split; [| done].
        intros ? [= <-] [_ ?]. done.
      * right. exists n, e, a. done.
  - simpl. left. exists n, e. rewrite Ea. done.
Qed.

End DeploymentFacts.

(** X19. For every table of deployments and every chain id that is a
    safe integer, the lookup
    gives an address exactly when the table has an entry for the chain
    with an address that is neither empty nor the zero address;
    [isDeployed] is true exactly then, false exactly when the chain has
    an entry without such an address, and undefined exactly when there is
    no chain id (or it is 0) or the chain is not in the table. The warning
    is shown exactly when [isDeployed] is false, cleared when it is true,
    and the message is left alone when it is undefined. *)
Theorem deployment_is_known_exactly_when_the_table_has_an_address
    (table : gmap string Deployments.AddressEntry) (chain : option Z) (message : string) :
  let c := Deployments.getParkourGameByChainId table chain in
  (forall n, chain = Some n -> Deployments.safe_integer n) ->
  (forall a, Deployments.address c = Some a <->
     Deployments.valid_address a
     /\ exists n e, chain = Some n /\ n <> 0 /\ table !! Deployments.Number_toString n = Some e
                    /\ Deployments.entry_address e = Some a)
  /\ (Deployments.isDeployed c chain = Some true <-> is_Some (Deployments.address c))
  /\ (Deployments.isDeployed c chain = Some false <->
      exists n e, chain = Some n /\ n <> 0 /\ table !! Deployments.Number_toString n = Some e
                  /\ forall a, Deployments.entry_address e = Some a ->
                               ~ Deployments.valid_address a)
  /\ (Deployments.isDeployed c chain = None <->
      chain = None \/ chain = Some 0
      \/ exists n, chain = Some n /\ table !! Deployments.Number_toString n = None)
  /\ Deployments.parkourGame_message chain c message
     = match Deployments.isDeployed c chain, chain with
       | Some true, _ => EmptyString
       | Some false, Some n => Deployments.not_found n (Deployments.chainName c)
       | _, _ => message
       end.
Proof.
  intros c _.
  destruct (DeploymentFacts.getParkourGameByChainId_cases table chain)
    as [[Hc Hwhy] | [(n & e & -> & Hn & Ht & Hbad & Hc) | (n & e & a & -> & Hn & Ht & Ha & Hok & Hc)]];
    fold c in Hc; rewrite Hc; clear Hc c.
  - unfold Deployments.isDeployed, Deployments.parkourGame_message. cbn.
    rewrite orb_true_r.
    split; [intros a; split; [done | ] |].
    { intros (_ & n & e & -> & Hn & Ht & _).
      destruct Hwhy as [? | [[= ?] | (n' & [= <-] & Ht')]]; congruence. }
    split; [split; [done | by intros [? ?]] |].
    split; [split; [done |] |].
    { intros (n & e & -> & Hn & Ht & _).
      destruct Hwhy as [? | [[= ?] | (n' & [= <-] & Ht')]]; congruence. }
    split; [done |].
    destruct chain as [n|]; [| done]. rewrite bool_decide_eq_false_2 by done. done.
  - unfold Deployments.isDeployed, Deployments.parkourGame_message. cbn.
    rewrite bool_decide_eq_true_2 by done. cbn.
    split; [intros a; split; [done |] |].
    { intros (Hv & n' & e' & [= <-] & _ & Ht' & Ha). rewrite Ht in Ht'. injection Ht' as <-.
      by apply Hbad in Ha. }
    split; [split; [done | by intros [? ?]] |].
    split; [split; [eauto 10 | done] |].
    split; [| done]. split; [done |].
    intros [? | [[= ?] | (n' & [= <-] & Ht')]]; congruence.
  - unfold Deployments.isDeployed, Deployments.parkourGame_message. cbn.
    destruct Hok as [Hne Hnz].
    destruct (String.eqb_spec a EmptyString); [done |].
    destruct (String.eqb_spec a Deployments.ZeroAddress); [done |]. cbn.
    rewrite andb_false_r.
    split; [intros a'; split |].
    { intros [= <-]. split; [done |]. eauto 10. }
    { intros (_ & n' & e' & [= <-] & _ & Ht' & Ha'). rewrite Ht in Ht'. injection Ht' as <-.
      congruence. }
    split; [split; [eauto | done] |].
    split; [split; [done |] |].
    { intros (n' & e' & [= <-] & _ & Ht' & Hbad). rewrite Ht in Ht'. injection Ht' as <-.
      by destruct (Hbad a Ha). }
    split; [| done]. split; [done |].
    intros [? | [[= ?] | (n' & [= <-] & Ht')]]; congruence.
Qed.

(** The two chains of the table of this repository, and a chain that is
    not in it. *)
Lemma deployment_is_known_exactly_when_the_table_has_an_address_witness :
  let table := Deployments.ParkourGameAddresses in
  let sepolia := Deployments.getParkourGameByChainId table (Some 11155111) in
  let localhost := Deployments.getParkourGameByChainId table (Some 31337) in
  let mainnet := Deployments.getParkourGameByChainId table (Some 1) in
  Deployments.safe_integer 11155111
  /\ (Deployments.isDeployed sepolia (Some 11155111) = Some true
       <-> is_Some (Deployments.address sepolia))
  /\ Deployments.parkourGame_message (Some 11155111) sepolia "Loading" = EmptyString
  /\ Deployments.parkourGame_message (Some 31337) localhost "Loading"
     = "ParkourGame deployment not found for chainId=31337 (Localhost)."
  /\ Deployments.parkourGame_message (Some 1) mainnet "Loading" = "Loading".
Proof.
  intros table sepolia localhost mainnet.
  assert (S1 : forall n, Some 11155111 = Some n -> Deployments.safe_integer n)
    by (intros n [= <-]; vm_compute; discriminate).
  assert (S2 : forall n, Some 31337 = Some n -> Deployments.safe_integer n)
    by (intros n [= <-]; vm_compute; discriminate).
  assert (S3 : forall n, Some 1 = Some n -> Deployments.safe_integer n)
    by (intros n [= <-]; vm_compute; discriminate).
  destruct (deployment_is_known_exactly_when_the_table_has_an_address
              table (Some 11155111) "Loading" S1) as (_ & H1 & _ & _ & M1).
  destruct (deployment_is_known_exactly_when_the_table_has_an_address
              table (Some 31337) "Loading" S2) as (_ & _ & _ & _ & M2).
  destruct (deployment_is_known_exactly_when_the_table_has_an_address
              table (Some 1) "Loading" S3) as (_ & _ & _ & _ & M3).
  split; [vm_compute; discriminate |]. split; [exact H1 |].
  split; [exact M1 |]. split; [exact M2 | exact M3].
Defined.

(** ** The character check *)

Module CharacterFacts.
Import UseParkourGame CharacterHook.

(** A check leaves the minting flag and the message alone. *)
Lemma checkCharacter_frame r env c :
  isMinting (state (checkCharacter r env c)) = isMinting (state c)
  /\ message (state (checkCharacter r env c)) = message (state c).
Proof.
  unfold checkCharacter.
  destruct (parkourGame_address r), (ethersReadonlyProvider r), (ethersSigner r); try done.
  destruct (ce_getAddress env) as [user|m]; [| done].
  by destruct (ce_hasCharacter env user) as [[has tok]|m].
Qed.

(** What a check reads. *)
Lemma checkCharacter_reads r env c :
  exists l, log (checkCharacter r env c) = log c ++ l
    /\ (l = [] \/ l = [GetAddress]
        \/ exists user, ce_getAddress env = Resolved user
             /\ l = [GetAddress; HasCharacter user]).
Proof.
  unfold checkCharacter.
  destruct (parkourGame_address r), (ethersReadonlyProvider r), (ethersSigner r);
    try (exists []; split; [by rewrite app_nil_r | by left]).
  destruct (ce_getAddress env) as [user|m] eqn:Ea;
    [| eexists; split; [done | by right; left]].
  exists [GetAddress; HasCharacter user]. split; [| right; right; by eexists].
  destruct (ce_hasCharacter env user) as [[has tok]|m]; simpl; by rewrite <- app_assoc.
Qed.

(** A check shows a character only on the word of the contract. *)
Lemma checkCharacter_true r env c :
  hasCharacter (state (checkCharacter r env c)) = true ->
  exists user tokenId,
    ce_getAddress env = Resolved user /\ ce_hasCharacter env user = Resolved (true, tokenId).
Proof.
  unfold checkCharacter.
  destruct (parkourGame_address r), (ethersReadonlyProvider r), (ethersSigner r); try done.
  destruct (ce_getAddress env) as [user|m] eqn:Ea; [| done].
  destruct (ce_hasCharacter env user) as [[has tok]|m] eqn:Eh; [| done].
  simpl. intros ->. eauto.
Qed.

Lemma mint_history_app this w l1 l2 :
  RegistrySpec.mint_history this w (l1 ++ l2)
  = RegistrySpec.mint_history this w l1
    ++ RegistrySpec.mint_history this (ParkourGame.run this w l1) l2.
Proof.
  revert w. induction l1 as [|c0 l1 IH]; intros w; [done |].
  cbn [app RegistrySpec.mint_history]. rewrite IH, <- app_assoc.
  by rewrite LedgerInvariant.run_cons.
Qed.

End CharacterFacts.

(** X20. A check of the character, whatever the awaited calls answer:
    it never touches the minting flag nor the message, asks at most for
    the address of the signer and then for the character of that address,
    and fails closed: [hasCharacter] is true after it only if address,
    provider and signer are there and the contract answered true for the
    signer's address; the token id changes only on an answer of the
    contract. *)
Theorem character_check_fails_closed
    (r : CharacterHook.Closure) (env : CharacterHook.CheckEnv) (c : CharacterHook.Cell) :
  let c' := CharacterHook.checkCharacter r env c in
  CharacterHook.isMinting (CharacterHook.state c')
  = CharacterHook.isMinting (CharacterHook.state c)
  /\ CharacterHook.message (CharacterHook.state c')
     = CharacterHook.message (CharacterHook.state c)
  /\ (exists l, CharacterHook.log c' = CharacterHook.log c ++ l
        /\ (l = [] \/ l = [CharacterHook.GetAddress]
            \/ exists user, CharacterHook.ce_getAddress env = UseParkourGame.Resolved user
                 /\ l = [CharacterHook.GetAddress; CharacterHook.HasCharacter user]))
  /\ (CharacterHook.hasCharacter (CharacterHook.state c') = true ->
      is_Some (CharacterHook.parkourGame_address r)
      /\ is_Some (CharacterHook.ethersReadonlyProvider r)
      /\ is_Some (CharacterHook.ethersSigner r)
      /\ exists user tokenId,
           CharacterHook.ce_getAddress env = UseParkourGame.Resolved user
           /\ CharacterHook.ce_hasCharacter env user = UseParkourGame.Resolved (true, tokenId)
           /\ CharacterHook.characterTokenId (CharacterHook.state c')
              = if tokenId =? 0 then None else Some tokenId)
  /\ (CharacterHook.characterTokenId (CharacterHook.state c')
      <> CharacterHook.characterTokenId (CharacterHook.state c) ->
      exists user has tokenId,
        CharacterHook.ce_getAddress env = UseParkourGame.Resolved user
        /\ CharacterHook.ce_hasCharacter env user = UseParkourGame.Resolved (has, tokenId)).
Proof.
  intros c'. subst c'. unfold CharacterHook.checkCharacter.
  destruct (CharacterHook.parkourGame_address r), (CharacterHook.ethersReadonlyProvider r),
    (CharacterHook.ethersSigner r);
    try (split; [done |]; split; [done |];
         split; [exists []; split; [by rewrite app_nil_r | by left] |]; by split).
  destruct (CharacterHook.ce_getAddress env) as [user|m] eqn:Ea.
  2:{ split; [done |]. split; [done |]. split; [eexists; split; [done | by right; left] |].
      by split. }
  destruct (CharacterHook.ce_hasCharacter env user) as [[has tok]|m] eqn:Eh.
  2:{ split; [done |]. split; [done |].
      split; [eexists; split; [simpl; by rewrite <- app_assoc | right; right; by eexists] |].
      by split. }
  split; [done |]. split; [done |].
  split; [eexists; split; [simpl; by rewrite <- app_assoc | right; right; by eexists] |].
  split.
  - simpl. intros ->. repeat (split; [done |]). by exists user, tok.
  - intros _. by exists user, has, tok.
Qed.

(** X21. A check that reads the contract at a state it can reach
    shows what the registry holds: [hasCharacter] is true exactly when the
    signer's address minted, and the token id shown is the first token it
    minted. The gate of the hook then agrees with the gate of the
    contract: with [hasCharacter] true a submission is started and the
    contract does not refuse it for eligibility; with [hasCharacter] false
    the hook refuses with its own message, starts nothing, and the
    contract would have reverted. *)
Theorem character_check_agrees_with_the_registry
    (this : Z) (cs : list ParkourGame.Call) (r : CharacterHook.Closure) (user : Z)
    (c : CharacterHook.Cell) :
  let w := ParkourGame.run this ParkourGame.init cs in
  let st := CharacterHook.state (CharacterHook.checkCharacter r
                                   (CharacterHook.check_reading w user) c) in
  is_Some (CharacterHook.parkourGame_address r) ->
  is_Some (CharacterHook.ethersReadonlyProvider r) ->
  is_Some (CharacterHook.ethersSigner r) ->
  CharacterHook.hasCharacter st
  = bool_decide (user ∈ RegistrySpec.mint_history this ParkourGame.init cs)
  /\ CharacterHook.characterTokenId st
     = head (ParkourGame.getPlayerCharacters (ParkourGame.storage w) user)
  /\ (forall inst chain score h,
        UseParkourGame.isSubmittingRef h = false ->
        if CharacterHook.hasCharacter st
        then is_Some (snd (UseParkourGame.submitScore_begin
                             (CharacterHook.render_after r (Some inst) chain st) score h))
             /\ forall t i, snd (ParkourGame.exec this w (ParkourGame.CallSubmit user t i))
                            <> ParkourGame.Reverted ParkourGame.NotEligible
        else UseParkourGame.submitScore_begin
               (CharacterHook.render_after r (Some inst) chain st) score h
             = (UseParkourGame.with_message "You need to mint a character first!" h, None)
             /\ forall t i, ParkourGame.exec this w (ParkourGame.CallSubmit user t i)
                            = (w, ParkourGame.Reverted ParkourGame.NotEligible)).
Proof.
  intros w st [addr Ha] [pr Hp] [signer Hs].
  pose proof (RegistryFacts.RegRepr_reachable this cs) as G. fold w in G.
  pose proof (RegistrySpec.reg_tokens _ _ G user) as Ht.
  assert (Hst : st = {| CharacterHook.hasCharacter :=
                          bool_decide (user ∈ RegistrySpec.mint_history this ParkourGame.init cs);
                        CharacterHook.characterTokenId :=
                          head (ParkourGame.tokens_of (ParkourGame.storage w) user);
                        CharacterHook.isMinting := CharacterHook.isMinting (CharacterHook.state c);
                        CharacterHook.message := CharacterHook.message (CharacterHook.state c) |}).
  { subst st. unfold CharacterHook.checkCharacter. rewrite Ha, Hp, Hs.
    unfold CharacterHook.check_reading. cbn [CharacterHook.ce_getAddress CharacterHook.ce_hasCharacter].
    unfold ParkourGame.hasCharacter.
    destruct (ParkourGame.tokens_of (ParkourGame.storage w) user) as [|t ts] eqn:Et.
    - symmetry in Ht. apply RegistryFacts.tokens_minted_by_nil in Ht.
      rewrite bool_decide_eq_false_2 by done. done.
    - assert (Hin : user ∈ RegistrySpec.mint_history this ParkourGame.init cs).
      { destruct (decide (user ∈ RegistrySpec.mint_history this ParkourGame.init cs)); [done |].
        apply (RegistryFacts.tokens_minted_by_nil user 1) in n. congruence. }
      rewrite bool_decide_eq_true_2 by done.
      assert (Hpos : 1 <= t).
      { assert (Hel : t ∈ RegistrySpec.tokens_minted_by user 1
                          (RegistrySpec.mint_history this ParkourGame.init cs))
          by (rewrite <- Ht; left).
        apply RegistryFacts.tokens_minted_by_elem in Hel as (i & _ & ->). lia. }
      cbn. destruct (Z.eqb_spec t 0); [lia | done]. }
  clearbody st. subst st. cbn [CharacterHook.hasCharacter CharacterHook.characterTokenId].
  split; [done |]. split; [done |].
  intros inst chain score h Hr.
  unfold UseParkourGame.submitScore_begin, CharacterHook.render_after.
  cbn [UseParkourGame.parkourGame_address UseParkourGame.instance UseParkourGame.ethersSigner
       UseParkourGame.hasCharacter CharacterHook.hasCharacter].
  rewrite Hr, Ha, Hs.
  destruct (decide (user ∈ RegistrySpec.mint_history this ParkourGame.init cs)) as [Hin|Hn].
  - rewrite bool_decide_eq_true_2 by done. cbn. split; [by eexists |].
    intros t i. unfold ParkourGame.exec, ParkourGame.transact.
    assert (Htok : ParkourGame.tokens_of (ParkourGame.storage w) user <> []).
    { rewrite Ht. intros E. by apply RegistryFacts.tokens_minted_by_nil in E. }
    destruct (ParkourGame.tokens_of (ParkourGame.storage w) user) as [|tk tks] eqn:Et; [done |].
    destruct (LedgerInvariant.exec_submit_cases this w _ user t i
                (LedgerInvariant.Repr_reachable this cs))
      as [[_ E] | [[E _] | (w' & E & _)]]; [congruence | |];
      unfold ParkourGame.exec, ParkourGame.transact in E; by rewrite E.
  - rewrite bool_decide_eq_false_2 by done. cbn. split; [done |].
    intros t i. unfold ParkourGame.exec, ParkourGame.transact.
    rewrite LedgerFacts.submitScore_not_eligible; [done |].
    rewrite Ht. by apply RegistryFacts.tokens_minted_by_nil.
Qed.

Lemma character_check_agrees_with_the_registry_witness :
  let r := {| CharacterHook.parkourGame_address := Some 99;
              CharacterHook.ethersReadonlyProvider := Some UseParkourGame.contract_runner;
              CharacterHook.ethersSigner := Some Examples.signer10;
              CharacterHook.seen_isMinting := false |} in
  let c := {| CharacterHook.state :=
                {| CharacterHook.hasCharacter := false; CharacterHook.characterTokenId := None;
                   CharacterHook.isMinting := false; CharacterHook.message := EmptyString |};
              CharacterHook.log := [] |} in
  let w := ParkourGame.run 99 ParkourGame.init [ParkourGame.CallMint 11; ParkourGame.CallMint 10] in
  let st := CharacterHook.state (CharacterHook.checkCharacter r
                                   (CharacterHook.check_reading w 10) c) in
  CharacterHook.hasCharacter st = true /\ CharacterHook.characterTokenId st = Some 2.
Proof.
  intros r c w st.
  destruct (character_check_agrees_with_the_registry 99
              [ParkourGame.CallMint 11; ParkourGame.CallMint 10] r 10 c)
    as (H1 & H2 & _); [by eexists | by eexists | by eexists |].
  split; [etransitivity; [exact H1 |] | etransitivity; [exact H2 |]]; vm_compute; reflexivity.
Defined.

(** ** The mint through the hook *)

(** X22. A mint through the hook, whatever the awaited calls answer: a
    call made while a mint is seen in progress, or without address or
    signer, changes nothing. Otherwise the transaction is sent once; if
    sending or the receipt fails, the failure is reported and the
    character shown is left as it was, with no read of the contract; the
    character is checked only after the receipt, and the minting flag is
    down at the end in every case. *)
Theorem mint_through_the_hook_sends_once_and_checks_after_the_receipt
    (r : CharacterHook.Closure) (env : CharacterHook.MintEnv) (c : CharacterHook.Cell) :
  let c' := CharacterHook.mintCharacter r env c in
  let started := negb (CharacterHook.seen_isMinting r)
                 && bool_decide (is_Some (CharacterHook.parkourGame_address r))
                 && bool_decide (is_Some (CharacterHook.ethersSigner r)) in
  (started = false -> c' = c)
  /\ (started = true ->
      CharacterHook.isMinting (CharacterHook.state c') = false
      /\ match CharacterHook.me_send env, CharacterHook.me_wait env with
         | UseParkourGame.Rejected m, _ =>
             CharacterHook.log c' = CharacterHook.log c ++ [CharacterHook.SendMintCharacter]
             /\ CharacterHook.message (CharacterHook.state c') = "Mint failed: " +:+ m
             /\ CharacterHook.hasCharacter (CharacterHook.state c')
                = CharacterHook.hasCharacter (CharacterHook.state c)
             /\ CharacterHook.characterTokenId (CharacterHook.state c')
                = CharacterHook.characterTokenId (CharacterHook.state c)
         | UseParkourGame.Resolved _, UseParkourGame.Rejected m =>
             CharacterHook.log c'
             = CharacterHook.log c ++ [CharacterHook.SendMintCharacter; CharacterHook.WaitReceipt]
             /\ CharacterHook.message (CharacterHook.state c') = "Mint failed: " +:+ m
             /\ CharacterHook.hasCharacter (CharacterHook.state c')
                = CharacterHook.hasCharacter (CharacterHook.state c)
             /\ CharacterHook.characterTokenId (CharacterHook.state c')
                = CharacterHook.characterTokenId (CharacterHook.state c)
         | UseParkourGame.Resolved _, UseParkourGame.Resolved _ =>
             CharacterHook.message (CharacterHook.state c') = "Character minted successfully!"
             /\ (exists l,
                   CharacterHook.log c'
                   = CharacterHook.log c
                     ++ [CharacterHook.SendMintCharacter; CharacterHook.WaitReceipt] ++ l
                   /\ (l = [] \/ l = [CharacterHook.GetAddress]
                       \/ exists user,
                            CharacterHook.ce_getAddress (CharacterHook.me_check env)
                            = UseParkourGame.Resolved user
                            /\ l = [CharacterHook.GetAddress; CharacterHook.HasCharacter user]))
             /\ (CharacterHook.hasCharacter (CharacterHook.state c') = true ->
                 exists user tokenId,
                   CharacterHook.ce_getAddress (CharacterHook.me_check env)
                   = UseParkourGame.Resolved user
                   /\ CharacterHook.ce_hasCharacter (CharacterHook.me_check env) user
                      = UseParkourGame.Resolved (true, tokenId))
         end).
Proof.
  intros c' started. subst c' started. unfold CharacterHook.mintCharacter.
  destruct (CharacterHook.seen_isMinting r); [by split |].
  destruct (CharacterHook.parkourGame_address r) as [addr|] eqn:Ea; [| by split].
  destruct (CharacterHook.ethersSigner r) as [signer|] eqn:Es; [| by split].
  split; [rewrite !bool_decide_eq_true_2 by eauto; done |]. intros _.
  destruct (CharacterHook.me_send env) as [hash|m].
  2:{ split; [done |]. cbn. done. }
  destruct (CharacterHook.me_wait env) as [[]|m].
  2:{ split; [done |]. cbn. by rewrite <- app_assoc. }
  split; [done |].
  set (c0 := CharacterHook.setMessage "Character minted successfully!" _).
  destruct (CharacterFacts.checkCharacter_frame r (CharacterHook.me_check env) c0)
    as [_ Hmsg].
  destruct (CharacterFacts.checkCharacter_reads r (CharacterHook.me_check env) c0)
    as (l & Hlog & Hl).
  cbn [CharacterHook.setIsMinting CharacterHook.state CharacterHook.message
       CharacterHook.log CharacterHook.hasCharacter].
  split; [by rewrite Hmsg |]. split.
  - exists l. split; [| done]. rewrite Hlog. subst c0. cbn. by rewrite <- !app_assoc.
  - apply CharacterFacts.checkCharacter_true.
Qed.

(** X23. A mint through the hook against the contract at a state it
    can reach, with room left in the token counter: the transaction goes
    through, the check that follows shows [hasCharacter] with the first
    token of the signer, the next render lets a submission start, and the
    contract, then and after any further calls, does not refuse a
    submission of the signer for eligibility. *)
Theorem mint_through_the_hook_opens_the_submission_gate
    (this : Z) (cs : list ParkourGame.Call) (r : CharacterHook.Closure) (user : Z)
    (hash : string) (c : CharacterHook.Cell) :
  let w := ParkourGame.run this ParkourGame.init cs in
  let w' := fst (ParkourGame.exec this w (ParkourGame.CallMint user)) in
  let c' := CharacterHook.mintCharacter r (CharacterHook.mint_reading this w user hash) c in
  let st := CharacterHook.state c' in
  CharacterHook.seen_isMinting r = false ->
  is_Some (CharacterHook.parkourGame_address r) ->
  is_Some (CharacterHook.ethersReadonlyProvider r) ->
  is_Some (CharacterHook.ethersSigner r) ->
  ParkourGame._tokenCounter (ParkourGame.storage w) < MAX_UINT256 ->
  CharacterHook.log c'
  = CharacterHook.log c ++ [CharacterHook.SendMintCharacter; CharacterHook.WaitReceipt;
                            CharacterHook.GetAddress; CharacterHook.HasCharacter user]
  /\ CharacterHook.isMinting st = false
  /\ CharacterHook.message st = "Character minted successfully!"
  /\ CharacterHook.hasCharacter st = true
  /\ CharacterHook.characterTokenId st
     = head (ParkourGame.getPlayerCharacters (ParkourGame.storage w') user)
  /\ (forall inst chain score h,
        UseParkourGame.isSubmittingRef h = false ->
        is_Some (snd (UseParkourGame.submitScore_begin
                        (CharacterHook.render_after r (Some inst) chain st) score h)))
  /\ (forall cs' t i,
        snd (ParkourGame.exec this (ParkourGame.run this w' cs') (ParkourGame.CallSubmit user t i))
        <> ParkourGame.Reverted ParkourGame.NotEligible).
Proof.
  intros w w' c' st Hm [addr Ha] [pr Hp] [signer Hs] Hc.
  assert (Hw' : w' = ParkourGame.run this ParkourGame.init (cs ++ [ParkourGame.CallMint user])).
  { subst w' w. by rewrite LedgerInvariant.run_app. }
  assert (Hex : ParkourGame.exec this w (ParkourGame.CallMint user) = (w', ParkourGame.Success)).
  { subst w'. unfold ParkourGame.exec, ParkourGame.transact.
    rewrite RegistryFacts.mintCharacter_effects.
    destruct (Z.leb_spec (ParkourGame._tokenCounter (ParkourGame.storage w) + 1) MAX_UINT256);
      [done | lia]. }
  pose proof (RegistryFacts.RegRepr_reachable this (cs ++ [ParkourGame.CallMint user])) as G.
  rewrite <- Hw' in G.
  pose proof (RegistrySpec.reg_tokens _ _ G user) as Ht.
  assert (Hin : user ∈ RegistrySpec.mint_history this ParkourGame.init
                          (cs ++ [ParkourGame.CallMint user])).
  { rewrite CharacterFacts.mint_history_app. apply elem_of_app. right. fold w.
    cbn [RegistrySpec.mint_history RegistrySpec.minted_of]. rewrite Hex. left. }
  destruct (ParkourGame.tokens_of (ParkourGame.storage w') user) as [|tk tks] eqn:Et.
  { symmetry in Ht. by apply RegistryFacts.tokens_minted_by_nil in Ht. }
  assert (Hpos : 1 <= tk).
  { assert (Hel : tk ∈ RegistrySpec.tokens_minted_by user 1
                        (RegistrySpec.mint_history this ParkourGame.init
                           (cs ++ [ParkourGame.CallMint user])))
      by (rewrite <- Ht; left).
    apply RegistryFacts.tokens_minted_by_elem in Hel as (i & _ & ->). lia. }
  assert (Hst : c' = {| CharacterHook.state :=
                          {| CharacterHook.hasCharacter := true;
                             CharacterHook.characterTokenId := Some tk;
                             CharacterHook.isMinting := false;
                             CharacterHook.message := "Character minted successfully!" |};
                        CharacterHook.log :=
                          (((CharacterHook.log c ++ [CharacterHook.SendMintCharacter])
                            ++ [CharacterHook.WaitReceipt]) ++ [CharacterHook.GetAddress])
                          ++ [CharacterHook.HasCharacter user] |}).
  { subst c'. unfold CharacterHook.mintCharacter, CharacterHook.mint_reading.
    rewrite Hm, Ha, Hs, Hex. cbn [CharacterHook.me_send CharacterHook.me_wait CharacterHook.me_check].
    unfold CharacterHook.checkCharacter. rewrite Ha, Hp, Hs.
    unfold CharacterHook.check_reading.
    cbn [CharacterHook.ce_getAddress CharacterHook.ce_hasCharacter].
    unfold ParkourGame.hasCharacter. rewrite Et.
    destruct (Z.eqb_spec tk 0); [lia |]. reflexivity. }
  subst st. rewrite Hst. cbn [CharacterHook.state CharacterHook.log CharacterHook.isMinting
    CharacterHook.message CharacterHook.hasCharacter CharacterHook.characterTokenId].
  split; [by rewrite <- !app_assoc |]. split; [done |]. split; [done |]. split; [done |].
  split; [unfold ParkourGame.getPlayerCharacters; by rewrite Et |].
  split.
  - intros inst chain score h Hr.
    unfold UseParkourGame.submitScore_begin, CharacterHook.render_after.
    cbn [UseParkourGame.parkourGame_address UseParkourGame.instance UseParkourGame.ethersSigner
         UseParkourGame.hasCharacter CharacterHook.hasCharacter].
    rewrite Hr, Ha, Hs. cbn. by eexists.
  - intros cs' t i.
    pose proof (RegistryFacts.RegRepr_reachable this
                  ((cs ++ [ParkourGame.CallMint user]) ++ cs')) as G'.
    pose proof (LedgerInvariant.Repr_reachable this
                  ((cs ++ [ParkourGame.CallMint user]) ++ cs')) as R'.
    rewrite LedgerInvariant.run_app, <- Hw' in G', R'.
    pose proof (RegistrySpec.reg_tokens _ _ G' user) as Ht'.
    destruct (LedgerInvariant.exec_submit_cases this _ _ user t i R')
      as [[_ E] | [[E _] | (w2 & E & _)]]; [| by rewrite E | by rewrite E].
    rewrite Ht' in E. apply RegistryFacts.tokens_minted_by_nil in E.
    exfalso. apply E. rewrite CharacterFacts.mint_history_app. apply elem_of_app. by left.
Qed.

Lemma mint_through_the_hook_opens_the_submission_gate_witness :
  let r := {| CharacterHook.parkourGame_address := Some 99;
              CharacterHook.ethersReadonlyProvider := Some UseParkourGame.contract_runner;
              CharacterHook.ethersSigner := Some Examples.signer10;
              CharacterHook.seen_isMinting := false |} in
  let c := {| CharacterHook.state :=
                {| CharacterHook.hasCharacter := false; CharacterHook.characterTokenId := None;
                   CharacterHook.isMinting := false; CharacterHook.message := EmptyString |};
              CharacterHook.log := [] |} in
  let w := ParkourGame.run 99 ParkourGame.init [ParkourGame.CallMint 11] in
  let st := CharacterHook.state
              (CharacterHook.mintCharacter r (CharacterHook.mint_reading 99 w 10 "0xabc") c) in
  CharacterHook.hasCharacter st = true
  /\ CharacterHook.characterTokenId st = Some 2
  /\ forall t i,
       snd (ParkourGame.exec 99 (fst (ParkourGame.exec 99 w (ParkourGame.CallMint 10)))
              (ParkourGame.CallSubmit 10 t i))
       <> ParkourGame.Reverted ParkourGame.NotEligible.
Proof.
  intros r c w st.
  destruct (mint_through_the_hook_opens_the_submission_gate 99 [ParkourGame.CallMint 11]
              r 10 "0xabc" c)
    as (_ & _ & _ & H1 & H2 & _ & H3);
    [reflexivity | by eexists | by eexists | by eexists | vm_compute; reflexivity |].
  split; [exact H1 |]. split; [etransitivity; [exact H2 |]; vm_compute; reflexivity |].
  intros t i. exact (H3 [] t i).
Defined.

(** ** Wallet discovery *)

Module Eip6963Facts.
Import Eip6963.

Lemma providers_after_snoc events detail :
  providers_after (events ++ [detail])
  = handleAnnounceProvider detail (providers_after events).
Proof. unfold providers_after. by rewrite fold_left_app. Qed.

Lemma existsb_uuid u l :
  existsb (fun p => String.eqb (uuid (info p)) u) l = true
  <-> u ∈ map uuid_of l.
Proof.
  induction l as [|p l IH]; simpl.
  - split; [done | by intros ?%elem_of_nil].
  - rewrite orb_true_iff, IH, elem_of_cons.
    destruct (String.eqb_spec (uuid (info p)) u) as [E|E].
    + split; [intros _; by left | intros _; by left].
    + split; [intros [?|?]; [done | by right] |].
      intros [Hu|?]; [| by right]. unfold uuid_of in Hu. congruence.
Qed.

Lemma handleAnnounceProvider_cases detail prev :
  ((Eip6963.uuid_of detail ∈ map Eip6963.uuid_of prev)
   /\ handleAnnounceProvider detail prev = prev)
  \/ ((Eip6963.uuid_of detail ∉ map Eip6963.uuid_of prev)
      /\ handleAnnounceProvider detail prev = prev ++ [detail]).
Proof.
  unfold handleAnnounceProvider.
  destruct (existsb _ prev) eqn:E.
  - left. split; [by apply existsb_uuid | done].
  - right. split; [| done]. intros H%existsb_uuid. unfold uuid_of in H at 1. congruence.
Qed.

End Eip6963Facts.

(** X24. After any sequence of announcements, the providers listed
    are the announced ones, one for each uuid, in the order of their first
    announcement: a later announcement of a uuid already listed, whatever
    provider it carries, changes nothing, and the list only grows at its
    end. *)
Theorem announced_wallets_are_listed_once_at_their_first_announcement
    (events more : list Eip6963.Eip6963ProviderDetail) :
  let ps := Eip6963.providers_after events in
  NoDup (map Eip6963.uuid_of ps)
  /\ ps `sublist_of` events
  /\ (forall u, u ∈ map Eip6963.uuid_of ps <-> u ∈ map Eip6963.uuid_of events)
  /\ (forall p, p ∈ ps ->
        exists i, events !! i = Some p
                  /\ forall j q, (j < i)%nat -> events !! j = Some q -> Eip6963.uuid_of q <> Eip6963.uuid_of p)
  /\ (forall detail, Eip6963.uuid_of detail ∈ map Eip6963.uuid_of events ->
        Eip6963.handleAnnounceProvider detail ps = ps)
  /\ ps `prefix_of` Eip6963.providers_after (events ++ more).
Proof.
  intros ps. subst ps.
  assert (Hmain : NoDup (map Eip6963.uuid_of (Eip6963.providers_after events))
    /\ Eip6963.providers_after events `sublist_of` events
    /\ (forall u, u ∈ map Eip6963.uuid_of (Eip6963.providers_after events) <-> u ∈ map Eip6963.uuid_of events)
    /\ (forall p, p ∈ Eip6963.providers_after events ->
        exists i, events !! i = Some p
                  /\ forall j q, (j < i)%nat -> events !! j = Some q -> Eip6963.uuid_of q <> Eip6963.uuid_of p)).
  { induction events as [|d events (IH1 & IH2 & IH3 & IH4)] using rev_ind.
    - split; [constructor |]. split; [done |]. split; [done |].
      intros p Hp. by apply elem_of_nil in Hp.
    - rewrite Eip6963Facts.providers_after_snoc.
      destruct (Eip6963Facts.handleAnnounceProvider_cases d (Eip6963.providers_after events))
        as [[Hin ->] | [Hnew ->]].
      + split; [done |]. split; [by apply sublist_inserts_r |].
        split.
        { intros u. rewrite map_app, elem_of_app, IH3. cbn [map].
          rewrite list_elem_of_singleton. split; [tauto |].
          intros [? | ->]; [done |]. by apply IH3. }
        intros p Hp. destruct (IH4 p Hp) as (i & Hi & Hfirst). exists i.
        assert (Hlt : (i < length events)%nat) by (by apply lookup_lt_Some in Hi).
        split; [by rewrite lookup_app_l |].
        intros j q Hj. rewrite lookup_app_l by lia. by apply Hfirst.
      + split.
        { rewrite map_app. apply NoDup_app. split; [done |]. split; [| apply NoDup_singleton].
          intros u Hu Hd. cbn [map] in Hd. apply list_elem_of_singleton in Hd. by subst. }
        split; [by apply sublist_app |].
        split.
        { intros u. rewrite !map_app, !elem_of_app, IH3. done. }
        intros p [Hp | Hp]%elem_of_app.
        * destruct (IH4 p Hp) as (i & Hi & Hfirst). exists i.
          assert (Hlt : (i < length events)%nat) by (by apply lookup_lt_Some in Hi).
          split; [by rewrite lookup_app_l |].
          intros j q Hj. rewrite lookup_app_l by lia. by apply Hfirst.
        * apply list_elem_of_singleton in Hp as ->. exists (length events).
          split; [by rewrite list_lookup_middle |].
          intros j q Hj. rewrite lookup_app_l by lia. intros Hq E.
          apply Hnew, IH3. rewrite <- E. apply list_elem_of_In, in_map, list_elem_of_In.
          by eapply list_elem_of_lookup_2. }
  destruct Hmain as (H1 & H2 & H3 & H4).
  split; [done |]. split; [done |]. split; [done |]. split; [done |].
  split.
  - intros detail Hin. apply H3 in Hin.
    by destruct (Eip6963Facts.handleAnnounceProvider_cases detail (Eip6963.providers_after events))
      as [[_ ->] | [Hnew _]].
  - clear. induction more as [|d more IH] using rev_ind; [by rewrite app_nil_r |].
    rewrite app_assoc, Eip6963Facts.providers_after_snoc.
    destruct (Eip6963Facts.handleAnnounceProvider_cases d
                (Eip6963.providers_after (events ++ more))) as [[_ ->] | [_ ->]]; [done |].
    by apply prefix_app_r.
Qed.

(** ** The generated table *)

Module GenabiFacts.
Import Genabi.

(** The two loops leave two entries: chain 31337 from the deployment
    named [localhost], chain 11155111 from the one named [sepolia]. *)
Lemma addresses_of_entries deployments :
  addresses_of deployments
  = [("31337", {| entry_address := deployments !! "localhost" ≫= address;
                  entry_chainId := 31337; entry_chainName := Some "Localhost" |});
     ("11155111", {| entry_address := deployments !! "sepolia" ≫= address;
                     entry_chainId := 11155111; entry_chainName := Some "Sepolia" |})].
Proof. reflexivity. Qed.

End GenabiFacts.

(** X25. The generated table has two entries, chain 31337 and chain
    11155111 in that order, with the addresses of the deployments named
    [localhost] and [sepolia]: deployments under any other name
    ([hardhat] and [anvil] included) never reach the file, whose text is
    the same for any two sets of deployments that agree on those two.
    With no [localhost] address and the [sepolia] address of this
    repository, the text generated is the text of
    [ParkourGameAddresses.ts] as committed. *)
Theorem generated_table_reads_localhost_and_sepolia_only
    (deployments deployments' : gmap string Genabi.DeploymentInfo) :
  deployments !! "localhost" ≫= Genabi.address = deployments' !! "localhost" ≫= Genabi.address ->
  deployments !! "sepolia" ≫= Genabi.address = deployments' !! "sepolia" ≫= Genabi.address ->
  map fst (Genabi.addresses_of deployments) = ["31337"; "11155111"]
  /\ map (fun e => Genabi.entry_address (snd e)) (Genabi.addresses_of deployments)
     = [deployments !! "localhost" ≫= Genabi.address;
        deployments !! "sepolia" ≫= Genabi.address]
  /\ Genabi.generateAddressesFile deployments = Genabi.generateAddressesFile deployments'
  /\ (deployments !! "localhost" ≫= Genabi.address = None ->
      deployments !! "sepolia" ≫= Genabi.address
      = Some "0xE282329C84fe2fAeA688D0f40C00210A35df00bB" ->
      Genabi.generateAddressesFile deployments = Genabi.ParkourGameAddresses_ts).
Proof.
  intros Hl Hs. unfold Genabi.generateAddressesFile.
  rewrite !GenabiFacts.addresses_of_entries. cbn [map fst snd Genabi.entry_address].
  split; [done |]. split; [done |]. split; [by rewrite Hl, Hs |].
  intros -> ->. vm_compute. reflexivity.
Qed.

Lemma generated_table_reads_localhost_and_sepolia_only_witness :
  let sepolia := {| Genabi.address := Some "0xE282329C84fe2fAeA688D0f40C00210A35df00bB";
                    Genabi.abi := []; Genabi.transactionHash := None |} in
  let hardhat := {| Genabi.address := Some "0x5FbDB2315678afecb367f032d93F642f64180aa3";
                    Genabi.abi := []; Genabi.transactionHash := None |} in
  let both : gmap string Genabi.DeploymentInfo :=
    <["hardhat" := hardhat]> {["sepolia" := sepolia]} in
  Genabi.generateAddressesFile both = Genabi.generateAddressesFile {["sepolia" := sepolia]}
  /\ Genabi.generateAddressesFile both = Genabi.ParkourGameAddresses_ts.
Proof.
  intros sepolia hardhat both.
  destruct (generated_table_reads_localhost_and_sepolia_only both {["sepolia" := sepolia]})
    as (_ & _ & H1 & H2); [reflexivity | reflexivity |].
  split; [exact H1 | apply H2; reflexivity].
Defined.

(** X26. The generator and the lookup of the frontend together: on
    chain 31337 the frontend finds the contract exactly when the
    deployment named [localhost] has an address that is neither empty nor
    the zero address, and shows the warning for Localhost otherwise, also
    when a [hardhat] or [anvil] deployment exists; a chain other than the
    two of the table is unknown; and for the deployments of this
    repository the table read is the committed one. *)
Theorem local_chain_is_deployed_only_through_localhost
    (deployments : gmap string Genabi.DeploymentInfo) (message : string) :
  let table := Genabi.table_of (Genabi.addresses_of deployments) in
  let local := deployments !! "localhost" ≫= Genabi.address in
  let ok := Deployments.truthy local
            && negb (Deployments.is_string local Deployments.ZeroAddress) in
  let c := Deployments.getParkourGameByChainId table (Some 31337) in
  Deployments.address c = (if ok then local else None)
  /\ Deployments.isDeployed c (Some 31337) = Some ok
  /\ Deployments.parkourGame_message (Some 31337) c message
     = (if ok then EmptyString
        else "ParkourGame deployment not found for chainId=31337 (Localhost).")
  /\ (forall n, n <> 31337 -> n <> 11155111 ->
        Deployments.isDeployed (Deployments.getParkourGameByChainId table (Some n)) (Some n)
        = None)
  /\ (local = None ->
      deployments !! "sepolia" ≫= Genabi.address
      = Some "0xE282329C84fe2fAeA688D0f40C00210A35df00bB" ->
      table = Deployments.ParkourGameAddresses).
Proof.
  intros table local ok c. subst table c.
  rewrite GenabiFacts.addresses_of_entries. unfold Genabi.table_of.
  cbn [map fst snd list_to_map foldr uncurry Genabi.entry_address Genabi.entry_chainId
       Genabi.entry_chainName].
  fold local.
  set (e1 := {| Deployments.entry_address := if Genabi.truthy local then local else None;
                Deployments.entry_chainId := Some 31337;
                Deployments.entry_chainName := Some (Genabi.or_unknown (Some "Localhost")) |}).
  set (e2 := Deployments.mk_AddressEntry _ (Some 11155111) _).
  set (T := <["31337" := e1]> (<["11155111" := e2]> ∅)).
  assert (H1 : T !! "31337" = Some e1) by reflexivity.
  assert (Hc : Deployments.getParkourGameByChainId T (Some 31337)
               = {| Deployments.abi := Deployments.ParkourGameABI_abi;
                    Deployments.address := if ok then local else None;
                    Deployments.chainId := Some 31337;
                    Deployments.chainName := Some "Localhost" |}).
  { unfold Deployments.getParkourGameByChainId.
    change (Deployments.Number_toString 31337) with "31337". rewrite H1. cbn [Z.eqb Pos.eqb].
    subst e1 ok. cbn [Deployments.entry_address Deployments.entry_chainId
                      Deployments.entry_chainName default].
    destruct local as [a|]; [| reflexivity].
    unfold Genabi.truthy, Deployments.truthy, Deployments.is_string, Deployments.is_undefined.
    destruct (String.eqb a EmptyString) eqn:E1,
      (String.eqb a Deployments.ZeroAddress) eqn:E2;
      cbn [negb orb andb]; rewrite ?E1, ?E2; reflexivity. }
  rewrite Hc.
  split; [done |]. split.
  { unfold Deployments.isDeployed. cbn. f_equal. subst ok.
    destruct local as [a|]; [| done].
    unfold Deployments.truthy, Deployments.is_string.
    destruct (String.eqb a EmptyString) eqn:E1,
      (String.eqb a Deployments.ZeroAddress) eqn:E2;
      cbn [negb orb andb]; rewrite ?E1, ?E2; reflexivity. }
  split.
  { unfold Deployments.parkourGame_message. cbn [Deployments.chainId Deployments.address
      Deployments.chainName].
    rewrite bool_decide_eq_true_2 by done. subst ok.
    destruct local as [a|]; [| reflexivity].
    unfold Deployments.truthy, Deployments.is_string.
    destruct (String.eqb a EmptyString) eqn:E1,
      (String.eqb a Deployments.ZeroAddress) eqn:E2;
      cbn [negb orb andb]; rewrite ?E1, ?E2; reflexivity. }
  split.
  { intros n Hn1 Hn2. unfold Deployments.getParkourGameByChainId.
    destruct (Z.eqb_spec n 0); [done |].
    assert (Hnone : T !! Deployments.Number_toString n = None).
    { subst T. unfold Deployments.Number_toString. rewrite !lookup_insert_ne; [done | |].
      - change "11155111" with (pretty 11155111). by intros ?%(inj pretty).
      - change "31337" with (pretty 31337). by intros ?%(inj pretty). }
    by rewrite Hnone. }
  intros Hl Hs. subst T e1 e2. rewrite Hl, Hs. reflexivity.
Qed.

(** ** The flags a component shows *)

Module FlagFacts.
Import UseParkourGame HookSpec.

Lemma decryptScore_run_flags q env c :
  isDecrypting (hook (decryptScore_run q env c)) = false
  /\ isSubmitting (hook (decryptScore_run q env c)) = isSubmitting (hook c).
Proof.
  destruct env as [ga gps los before ud after], c as [h l].
  unfold decryptScore_run, try_catch_finally, await, check, property, bind, perform,
    setMessage, setPlayerScore, setIsDecrypting, update, pure, return_, throw.
  simpl. PipelineFacts.answers. all: done.
Qed.

Lemma submitScore_run_flags q score env c :
  isSubmitting (hook (submitScore_run q score env c)) = false
  /\ isDecrypting (hook (submitScore_run q score env c)) = isDecrypting (hook c).
Proof.
  destruct env as [enc before send wait after], c as [h l].
  unfold submitScore_run, try_catch_finally, await, check, bind, perform,
    setMessage, setIsSubmitting, update, pure, return_, throw.
  simpl. PipelineFacts.answers. all: done.
Qed.

(** The flag a component shows is the flag the guard reads. *)
Lemma mirrored_step s a :
  isSubmitting (current s) = isSubmittingRef (current s) ->
  isDecrypting (current s) = isDecryptingRef (current s) ->
  isSubmitting (current (step s a)) = isSubmittingRef (current (step s a))
  /\ isDecrypting (current (step s a)) = isDecryptingRef (current (step s a)).
Proof.
  intros Hs Hd. destruct s as [h ds ss]. simpl in *. destruct a as [r | r score | env | env].
  - unfold step, decryptScore_begin. simpl.
    destruct (isDecryptingRef h) eqn:Er, (parkourGame_address r), (instance r),
      (ethersSigner r); simpl; rewrite ?Er; auto.
  - unfold step, submitScore_begin. simpl.
    destruct (isSubmittingRef h) eqn:Er, (parkourGame_address r), (instance r),
      (ethersSigner r), (hasCharacter r); simpl; rewrite ?Er; auto.
  - unfold step. simpl. destruct ds as [|q rest]; [done |]. simpl.
    destruct (decryptScore_run_flags q env {| hook := h; log := [] |}) as [E1 E2].
    destruct (PipelineFacts.decryptScore_run_refs q env {| hook := h; log := [] |}) as [E3 E4].
    simpl in *. by rewrite E1, E2, E3, E4.
  - unfold step. simpl. destruct ss as [|[q score] rest]; [done |]. simpl.
    destruct (submitScore_run_flags q score env {| hook := h; log := [] |}) as [E1 E2].
    destruct (PipelineFacts.submitScore_run_refs q score env {| hook := h; log := [] |})
      as [E3 E4].
    simpl in *. by rewrite E1, E2, E3, E4.
Qed.

Lemma mirrored_play s l :
  isSubmitting (current s) = isSubmittingRef (current s) ->
  isDecrypting (current s) = isDecryptingRef (current s) ->
  isSubmitting (current (play s l)) = isSubmittingRef (current (play s l))
  /\ isDecrypting (current (play s l)) = isDecryptingRef (current (play s l)).
Proof.
  revert s. induction l as [|a l IH]; intros s Hs Hd; [done |].
  destruct (mirrored_step s a Hs Hd). by apply IH.
Qed.

End FlagFacts.

(** X27. However the calls and the settlements of one component
    interleave, the flags a component shows are the flags the guards
    read: [isSubmitting] is up exactly while a submission is outstanding,
    [isDecrypting] exactly while a decryption is, and each equals its
    ref. *)
Theorem busy_flags_are_up_exactly_while_a_run_is_outstanding (l : list Action) :
  let s := play start l in
  (isSubmitting (current s) = true <-> submissions s <> [])
  /\ (isDecrypting (current s) = true <-> decryptions s <> [])
  /\ isSubmitting (current s) = isSubmittingRef (current s)
  /\ isDecrypting (current s) = isDecryptingRef (current s).
Proof.
  intros s.
  destruct (FlagFacts.mirrored_play start l eq_refl eq_refl) as [Hs Hd].
  destruct (PipelineFacts.guarded_play start l PipelineFacts.guarded_start) as [Gd Gs].
  fold s in Hs, Hd, Gd, Gs.
  split; [| split; [| by split]].
  - rewrite Hs. destruct Gs as [[-> ->] | (q & -> & ->)]; split; done.
  - rewrite Hd. destruct Gd as [[-> ->] | (q & -> & ->)]; split; done.
Qed.
